(** * Entity-enhanced vector RAG: a shallow embedding of the retrieval pipeline

    The development follows [src/mastra/tools/enhanced-vector-rag-tool.ts],
    [src/mastra/tools/store-web-results-tool.ts], the file-upload tool
    (entity extraction at ingestion time and the tool itself), the steps of
    [src/mastra/workflows/enhanced-vector-rag-workflow.ts] that process
    documents and store embeddings, and [src/mastra/mcp.ts].

    Conventions of the embedding.
    - A JavaScript string is a [string]; every [ascii] stands for one UTF-16
      code unit in the range 0..255, so [String.length] is [.length].
    - A JavaScript number that the pipeline treats as a score is an
      [option Q]: [Some q] is the exact value, [None] stands for a missing
      ([undefined]) or not-a-number score.  Comparisons of doubles are exact,
      so they are comparisons of rationals; the rounding of [*] and [+] is
      not part of the model.
    - An object used as an open mapping (candidate metadata) is a
      [gmap string JsValue].  The pipeline reads [metadata.text] as a string
      and [metadata.entities] as an array of strings; on a value of another
      type the code throws a [TypeError] where the functions [text_of],
      [truthy_text] and [entities_of] of the model see a missing value.
      Statements that would differ on such metadata assume [string_text] or
      [array_entities].
    - Collaborators (embedding provider, vector store, MCP tool registry,
      clock) are functions on an abstract world; a rejected promise or a
      thrown exception is the [Throw] result. *)

From Stdlib Require Import Ascii QArith Qminmax.
From stdpp Require Import gmap strings list pretty sorting.

(** ** Strings *)

Module Js.

Definition code (c : ascii) : N := Ascii.N_of_ascii c.

Definition in_range (lo hi : N) (c : ascii) : bool :=
  ((lo <=? code c) && (code c <=? hi))%N.

Definition is_upper (c : ascii) : bool := in_range 65 90 c.
Definition is_lower (c : ascii) : bool := in_range 97 122 c.
Definition is_digit (c : ascii) : bool := in_range 48 57 c.

(** [[a-zA-Z]] *)
Definition is_letter (c : ascii) : bool := is_upper c || is_lower c.

(** [\w] without the unicode flag: [[A-Za-z0-9_]] *)
Definition is_word (c : ascii) : bool :=
  is_letter c || is_digit c || (code c =? 95)%N.

(** [\s], restricted to code units below 256. *)
Definition is_space (c : ascii) : bool :=
  in_range 9 13 c || (code c =? 32)%N || (code c =? 160)%N.

(** Upper-case letters of the Latin-1 range that [toLowerCase] moves. *)
Definition is_latin1_upper (c : ascii) : bool :=
  in_range 192 222 c && negb (code c =? 215)%N.

Definition lower_char (c : ascii) : ascii :=
  if is_upper c || is_latin1_upper c
  then Ascii.ascii_of_N (code c + 32)
  else c.

(** [s.toLowerCase()] *)
Fixpoint toLowerCase (s : string) : string :=
  match s with
  | EmptyString => EmptyString
  | String c s' => String (lower_char c) (toLowerCase s')
  end.

(** [s.split(/\s+/)]: [gap] tells that the previous code unit belonged to
    a separator run.  The head of the result is the piece being read. *)
Fixpoint split_aux (gap : bool) (s : string) : list string :=
  match s with
  | EmptyString => [EmptyString]
  | String c s' =>
      if is_space c then
        if gap then split_aux true s'
        else EmptyString :: split_aux true s'
      else
        match split_aux false s' with
        | t :: ts => String c t :: ts
        | [] => [String c EmptyString]
        end
  end.

Definition split_ws (s : string) : list string := split_aux false s.

(** [/^[a-zA-Z]+$/.test(w)] *)
Fixpoint all_letters (w : string) : bool :=
  match w with
  | EmptyString => true
  | String c w' => is_letter c && all_letters w'
  end.

Definition test_letters (w : string) : bool :=
  match w with
  | EmptyString => false
  | _ => all_letters w
  end.

(** [arr.includes(w)] on an array of strings *)
Definition includes (arr : list string) (w : string) : bool :=
  bool_decide (w ∈ arr).

(** [s.startsWith(p)] *)
Fixpoint prefix_of (p s : string) : bool :=
  match p, s with
  | EmptyString, _ => true
  | String a p', String b s' => bool_decide (a = b) && prefix_of p' s'
  | String _ _, EmptyString => false
  end.

(** [s.includes(p)] on strings *)
Fixpoint str_includes (s p : string) : bool :=
  prefix_of p s ||
  match s with
  | EmptyString => false
  | String _ s' => str_includes s' p
  end.

(** [s.substring(0, n)] for [0 <= n] *)
Fixpoint take_str (n : nat) (s : string) : string :=
  match n, s with
  | S n', String c s' => String c (take_str n' s')
  | _, _ => EmptyString
  end.

(** [s.length] as an integer *)
Definition len (s : string) : Z := Z.of_nat (String.length s).

Fixpoint no_space (s : string) : bool :=
  match s with
  | EmptyString => true
  | String c s' => negb (is_space c) && no_space s'
  end.

Definition starts_with_space (s : string) : bool :=
  match s with
  | EmptyString => false
  | String c _ => is_space c
  end.

Fixpoint ends_with_space (s : string) : bool :=
  match s with
  | EmptyString => false
  | String c EmptyString => is_space c
  | String _ s' => ends_with_space s'
  end.

(** [w] is a piece of [s] between separator runs: a maximal run of code
    units that are not white space (possibly empty at either end of [s]). *)
Definition is_token (s w : string) : Prop :=
  ∃ pre post : string,
    s = pre +:+ w +:+ post ∧
    no_space w = true ∧
    (pre = EmptyString ∨ ends_with_space pre = true) ∧
    (post = EmptyString ∨ starts_with_space post = true).

End Js.

(** ** Entity extraction *)

(** The words of the query that may be entities
    ([potentialEntities] in [extractEntities]). *)
Definition potentialEntities (text : string) : list string :=
  filter (λ word, (3 <? String.length word) && Js.test_letters word = true)
         (Js.split_ws (Js.toLowerCase text)).

(** Insertion into a JavaScript [Set] of strings, kept in insertion order
    (the order [Array.from] returns). *)
Definition set_add (entities : list string) (entity : string) : list string :=
  if bool_decide (entity ∈ entities) then entities else entities ++ [entity].

(** ** Data model *)

(** Values stored in candidate metadata.  [VUndef] is [undefined] (and the
    not-a-number result of arithmetic on it). *)
Inductive JsValue : Type :=
  | VStr (s : string)
  | VNum (q : Q)
  | VBool (b : bool)
  | VStrs (l : list string)
  | VUndef.

(** A retrieval hit as the vector store returns it. *)
Record Candidate : Type := mkCandidate {
  r_id : string;
  r_score : option Q;
  r_metadata : gmap string JsValue
}.

(** [result.metadata.text] when it is a non-empty string (a truthy value).
    A truthy text that is not a string counts as missing here, while the
    assembly loop throws on it when it calls [toLowerCase]: see
    [string_text]. *)
Definition truthy_text (r : Candidate) : option string :=
  match r_metadata r !! "text" with
  | Some (VStr (String c s)) => Some (String c s)
  | _ => None
  end.

(** [result.metadata?.text] when it is a string.  A text that is neither a
    string nor missing counts as missing here, while [toLowerCase] and
    [substring] throw on it: see [string_text]. *)
Definition text_of (r : Candidate) : option string :=
  match r_metadata r !! "text" with
  | Some (VStr s) => Some s
  | _ => None
  end.

(** [result.metadata?.entities] when it is an array.  A truthy value that
    is not an array counts as missing here, while [extractEntities] throws
    on it when it calls [forEach]: see [array_entities]. *)
Definition entities_of (r : Candidate) : list string :=
  match r_metadata r !! "entities" with
  | Some (VStrs l) => l
  | _ => []
  end.

(** [result.metadata.text] is a string or missing: the candidates whose
    text the pipeline reads without a type error. *)
Definition string_text (r : Candidate) : Prop :=
  match r_metadata r !! "text" with
  | None | Some (VStr _) | Some VUndef => True
  | Some _ => False
  end.

(** [result.metadata.entities] is an array or missing: the candidates whose
    entities [extractEntities] reads without a type error. *)
Definition array_entities (r : Candidate) : Prop :=
  match r_metadata r !! "entities" with
  | None | Some (VStrs _) | Some VUndef => True
  | Some _ => False
  end.

(** [score || 0] *)
Definition score_or_0 (score : option Q) : Q := default 0%Q score.

(** [a > b] on numbers *)
Definition Qgtb (a b : Q) : bool := negb (Qle_bool a b).

(** [score > 0.7]; a missing score compares false. *)
Definition score_gt (score : option Q) (bound : Q) : bool :=
  match score with
  | Some q => Qgtb q bound
  | None => false
  end.

Definition num_value (score : option Q) : JsValue :=
  match score with
  | Some q => VNum q
  | None => VUndef
  end.

(** [extractEntities(query, results)] of the retrieval tool. *)
Definition extractEntities (query : string) (results : list Candidate)
  : list string :=
  let entities := foldl set_add [] (potentialEntities query) in
  foldl (λ entities result, foldl set_add entities (entities_of result))
        entities results.

(** The stop words that [performEntitySearch] skips. *)
Definition commonWords : list string :=
  ["the"; "and"; "or"; "but"; "in"; "on"; "at"; "to"; "for"; "of"; "with";
   "by"].

Module FileUpload.

Definition commonWords : list string :=
  ["the"; "and"; "with"; "that"; "this"; "have"; "from"; "they"; "will";
   "would"; "there"; "their"; "what"; "said"; "each"; "which"; "she"; "do";
   "how"; "her"; "if"; "will"; "up"; "one"; "about"; "many"; "then";
   "them"; "these"; "so"; "some"; "her"; "would"; "make"; "like"; "into";
   "him"; "time"; "two"; "more"; "go"; "no"; "way"; "could"; "my"; "than";
   "first"; "been"; "call"; "who"; "its"; "now"; "find"; "long"; "down";
   "day"; "did"; "get"; "come"; "made"; "may"; "part"].

Definition push_entity (entities : list string) (word : string)
  : list string :=
  if negb (Js.includes commonWords word) && negb (Js.includes entities word)
  then entities ++ [word]
  else entities.

(** [extractSimpleEntities(text)] of the file-upload tool. *)
Definition extractSimpleEntities (text : string) : list string :=
  take 10 (foldl push_entity [] (potentialEntities text)).

End FileUpload.

(** ** Sufficiency gate *)

(** [initialResults && initialResults.length > 0 && initialResults.some(...)];
    [None] is a store that answered [undefined]. *)
Definition hasSufficientLocalResults (initialResults : option (list Candidate))
  : bool :=
  match initialResults with
  | None => false
  | Some l =>
      bool_decide (0 < length l) &&
      existsb (λ result, Qgtb (score_or_0 (r_score result)) (7 # 10)) l
  end.

(** ** Deduplication *)

Fixpoint dedupe_from (seenIds : gset string) (results : list Candidate)
  : list Candidate :=
  match results with
  | [] => []
  | result :: rest =>
      if bool_decide (r_id result ∈ seenIds)
      then dedupe_from seenIds rest
      else result :: dedupe_from ({[ r_id result ]} ∪ seenIds) rest
  end.

(** [uniqueResults]: the filter over [rerankedResults] with the set
    [seenIds], initially empty. *)
Definition uniqueResults (rerankedResults : list Candidate) : list Candidate :=
  dedupe_from ∅ rerankedResults.

(** ** Context assembly *)

Definition maxContextLength : Z := 6000.
Definition maxResults : nat := 15.

Definition nl2 : string := String "010" (String "010" EmptyString).

(** [entities.some(entity => textLower.includes(entity.toLowerCase()))] *)
Definition hasRelevantContent (entities : list string) (text : string) : bool :=
  existsb (λ entity, Js.str_includes (Js.toLowerCase text)
                                     (Js.toLowerCase entity)) entities.

(** State of the assembly loop.  [pieces] is not in the source: it records,
    in order, each string appended to [relevantTexts], one per candidate
    whose text went into the context. *)
Record Assembly : Type := mkAssembly {
  relevantTexts : string;
  currentLength : Z;
  addedCount : nat;
  pieces : list string
}.

Definition assembly_start : Assembly := mkAssembly EmptyString 0 0 [].

Definition append_piece (a : Assembly) (piece : string) (dl : Z) (dn : nat)
  : Assembly :=
  mkAssembly (relevantTexts a +:+ piece) (currentLength a + dl)
             (addedCount a + dn) (pieces a ++ [piece]).

(** The [for (const result of uniqueResults)] loop. *)
Fixpoint assemble_loop (entities : list string) (a : Assembly)
    (results : list Candidate) : Assembly :=
  match results with
  | [] => a
  | result :: rest =>
      if bool_decide (maxResults ≤ addedCount a) then a
      else
        match truthy_text result with
        | None => assemble_loop entities a rest
        | Some text =>
            if bool_decide (Js.len text < 50)%Z then
              assemble_loop entities a rest
            else if negb (hasRelevantContent entities text) then
              assemble_loop entities a rest
            else if bool_decide (currentLength a + Js.len text
                                 > maxContextLength)%Z then
              let remainingSpace := (maxContextLength - currentLength a)%Z in
              if bool_decide (remainingSpace > 200)%Z then
                append_piece a
                  (nl2 +:+ Js.take_str (Z.to_nat (remainingSpace - 200)) text
                       +:+ "...") 0 0
              else a
            else
              assemble_loop entities
                (append_piece a
                   ((match relevantTexts a with
                     | EmptyString => EmptyString
                     | _ => nl2
                     end) +:+ text)
                   (Js.len text) 1)
                rest
        end
  end.

Definition assemble (uniqueResults : list Candidate) (entities : list string)
  : Assembly :=
  assemble_loop entities assembly_start uniqueResults.

(** ** Results of calls that may throw *)

Inductive Res (A : Type) : Type :=
  | Ok (a : A)
  | Throw (message : string).
Arguments Ok {A} a.
Arguments Throw {A} message.

Definition res_bind {A B : Type} (r : Res A) (k : A → Res B) : Res B :=
  match r with
  | Ok a => k a
  | Throw message => Throw message
  end.

(** [arr.map(f)] where [f] may throw: the first exception ends the map. *)
Fixpoint res_map {A B : Type} (f : A → Res B) (l : list A) : Res (list B) :=
  match l with
  | [] => Ok []
  | x :: l' =>
      res_bind (f x) (λ y, res_bind (res_map f l') (λ ys, Ok (y :: ys)))
  end.

(** ** Regular expressions built from an entity

    [new RegExp(`\\b${entity}\\b`, 'gi')] is interpreted here when the entity
    holds ordinary characters and dots only: the pattern is then a word
    boundary, a fixed sequence of characters compared without regard to
    case (a dot stands for any character but a line terminator) and a word
    boundary.  Entities that hold any other syntax character are handed to
    the engine of the run-time system ([regexp_other] below). *)

Module RegExp.

Inductive Item : Type :=
  | Lit (c : ascii)
  | AnyChar.

Definition syntax_characters : list ascii :=
  ["\"; "^"; "$"; "*"; "+"; "?"; "("; ")"; "["; "]"; "{"; "}"; "|"]%char.

Fixpoint parse (source : string) : option (list Item) :=
  match source with
  | EmptyString => Some []
  | String c source' =>
      if bool_decide (c ∈ syntax_characters) then None
      else
        match parse source' with
        | None => None
        | Some items =>
            Some ((if bool_decide (c = "."%char) then AnyChar else Lit c)
                    :: items)
        end
  end.

Definition is_line_terminator (c : ascii) : bool :=
  (Js.code c =? 10)%N || (Js.code c =? 13)%N.

Definition item_matches (item : Item) (c : ascii) : bool :=
  match item with
  | Lit a => bool_decide (Js.lower_char a = Js.lower_char c)
  | AnyChar => negb (is_line_terminator c)
  end.

Definition word_char (c : option ascii) : bool :=
  match c with
  | Some a => Js.is_word a
  | None => false
  end.

(** [\b] between the code unit before the position and the one after. *)
Definition at_boundary (prev next : option ascii) : bool :=
  xorb (word_char prev) (word_char next).

Definition head_char (s : string) : option ascii :=
  match s with
  | EmptyString => None
  | String c _ => Some c
  end.

(** The items, then the closing boundary, read from [rest]; [prev] is the
    code unit just before [rest]. *)
Fixpoint match_items (items : list Item) (prev : option ascii)
    (rest : string) : bool :=
  match items with
  | [] => at_boundary prev (head_char rest)
  | item :: items' =>
      match rest with
      | EmptyString => false
      | String c rest' =>
          item_matches item c && match_items items' (Some c) rest'
      end
  end.

Definition match_here (items : list Item) (prev : option ascii)
    (rest : string) : bool :=
  at_boundary prev (head_char rest) && match_items items prev rest.

(** The global search of [String.prototype.match]: after a match the
    search resumes at its end (one further for an empty match); [skip]
    counts the positions still covered by the last match. *)
Fixpoint scan (items : list Item) (prev : option ascii) (rest : string)
    (skip : nat) : nat :=
  let here :=
    match skip with
    | O => match_here items prev rest
    | S _ => false
    end in
  let skip' := if here then pred (length items) else pred skip in
  (if here then 1 else 0) +
  match rest with
  | EmptyString => 0
  | String c rest' => scan items (Some c) rest' skip'
  end.

Definition count_matches (items : list Item) (text : string) : nat :=
  scan items None text 0.

End RegExp.

(** ** Collaborators *)

(** A web-search result as the search tool returns it; every field may be
    missing. *)
Record WebResult : Type := mkWebResult {
  w_content : option string;
  w_snippet : option string;
  w_description : option string;
  w_title : option string;
  w_name : option string;
  w_url : option string;
  w_link : option string
}.

(** A tool of the MCP registry.  [tool_execute query numResults] answers
    with the [results] field of the reply ([None] when it is missing). *)
Record Tool (World : Type) : Type := mkTool {
  tool_id : option string;
  tool_execute : string → Q → World → Res (option (list WebResult)) * World
}.
Arguments tool_id {World} _.
Arguments tool_execute {World} _ _ _ _.

Definition Embedding : Type := list Q.

(** A document of the retrieval tool's upsert. *)
Record WebDocument : Type := mkWebDocument {
  d_id : string;
  d_content : string;
  d_metadata : gmap string JsValue;
  d_vector : option Embedding
}.

(** The two shapes of [vectorStore.upsert] in the repository. *)
Inductive UpsertRequest : Type :=
  | UpsertDocuments (documents : list WebDocument)
  | UpsertVectors (vectors : list Embedding)
                  (metadata : list (gmap string JsValue)).

(** Everything outside the pipeline.  Each call may change the world and
    may throw. *)
Class Runtime : Type := {
  World : Type;
  (** number of matches of [new RegExp(`\\b${entity}\\b`, 'gi')] in a text,
      for an entity outside the fragment of [RegExp.parse] *)
  regexp_other : string → string → Res nat;
  (** [embedMany({ model, values })], the [embeddings] of the reply *)
  rt_embedMany : list string → World → Res (list Embedding) * World;
  (** [vectorStore.query({ indexName, queryVector, topK, includeVector })] *)
  rt_query : option Embedding → Q → World
             → Res (option (list Candidate)) * World;
  (** [vectorStore.upsert(...)] *)
  rt_upsert : UpsertRequest → World → Res unit * World;
  (** [buildMcp()] followed by [mcp.getTools()], as [Object.values] lists
      the tools *)
  rt_getTools : World → Res (list (Tool World)) * World;
  (** [Date.now()], [Math.random()] and [new Date().toISOString()] as they
      print *)
  rt_now : World → string * World;
  rt_random : World → string * World;
  rt_isoString : World → string * World
}.

(** ** Reranking by entity overlap *)

(** [text.match(regex)] counted, [0] for [null]. *)
Definition match_count `{Runtime} (entity text : string) : Res nat :=
  match RegExp.parse entity with
  | Some items => Ok (RegExp.count_matches items text)
  | None => regexp_other entity text
  end.

(** The [entities.forEach] that accumulates [entityScore]. *)
Fixpoint count_entities `{Runtime} (entityScore : nat) (text : string)
    (entities : list string) : Res nat :=
  match entities with
  | [] => Ok entityScore
  | entity :: entities' =>
      res_bind (match_count entity text)
               (λ matches, count_entities (entityScore + matches) text
                                          entities')
  end.

(** [result.metadata?.text?.toLowerCase()], or the empty string when the
    text is missing. *)
Definition lower_text (result : Candidate) : string :=
  match text_of result with
  | Some text => Js.toLowerCase text
  | None => EmptyString
  end.

(** [result.score + entityScore * 0.1] *)
Definition boost_score (score : option Q) (entityScore : nat) : option Q :=
  match score with
  | Some q => Some (q + inject_Z (Z.of_nat entityScore) * (1 # 10))%Q
  | None => None
  end.

(** The callback of [results.map] in [rerankByEntityOverlap]. *)
Definition boost `{Runtime} (entities : list string) (result : Candidate)
  : Res Candidate :=
  res_bind (count_entities 0 (lower_text result) entities)
    (λ entityScore,
       let boostedScore := boost_score (r_score result) entityScore in
       Ok {| r_id := r_id result;
             r_score := boostedScore;
             r_metadata :=
               <[ "boostedScore" := num_value boostedScore ]>
                 (<[ "entityScore" :=
                       VNum (inject_Z (Z.of_nat entityScore)) ]>
                    (r_metadata result)) |}).

(** [Array.prototype.sort] with the comparator
    [(a, b) => (b.score || 0) - (a.score || 0)].  The sort is stable and the
    comparator is a total preorder on the keys, so the result is the one
    stable insertion gives. *)
Definition sort_key (result : Candidate) : Q := score_or_0 (r_score result).

Fixpoint insert_desc (x : Candidate) (sorted : list Candidate)
  : list Candidate :=
  match sorted with
  | [] => [x]
  | y :: sorted' =>
      if Qgtb (sort_key y) (sort_key x)
      then y :: insert_desc x sorted'
      else x :: y :: sorted'
  end.

Definition sort_desc (results : list Candidate) : list Candidate :=
  foldr insert_desc [] results.

Definition rerankByEntityOverlap `{Runtime} (results : list Candidate)
    (entities : list string) : Res (list Candidate) :=
  match entities with
  | [] => Ok results
  | _ => res_bind (res_map (boost entities) results)
                  (λ boosted, Ok (sort_desc boosted))
  end.

(** ** The monad of the tools

    A computation reads and writes the local variables [L] of the function
    it belongs to and the system state: the world of the collaborators and
    the record of the calls made so far (most recent last). *)

Inductive Event : Type :=
  | EvEmbed (values : list string) (reply : Res (list Embedding))
  | EvQuery (queryVector : option Embedding) (topK : Q)
            (reply : Res (option (list Candidate)))
  | EvUpsert (request : UpsertRequest) (reply : Res unit)
  | EvGetTools
  | EvSearch (tool : option string) (query : string) (numResults : Q).

Record Sys `{Runtime} : Type := mkSys {
  world : World;
  calls : list Event
}.
Arguments mkSys {_} world calls.

Definition M `{Runtime} (L A : Type) : Type := L → Sys → Res A * L * Sys.

Section Monad.
Context `{Runtime}.

Definition ret {L A} (a : A) : M L A := λ l s, (Ok a, l, s).

Definition bind {L A B} (m : M L A) (k : A → M L B) : M L B :=
  λ l s,
    match m l s with
    | (Ok a, l', s') => k a l' s'
    | (Throw message, l', s') => (Throw message, l', s')
    end.

Definition throw {L A} (message : string) : M L A :=
  λ l s, (Throw message, l, s).

(** [try { m } catch (error) { handler(error.message) }]: assignments and
    calls made before the exception stay. *)
Definition try_catch {L A} (m : M L A) (handler : string → M L A) : M L A :=
  λ l s,
    match m l s with
    | (Ok a, l', s') => (Ok a, l', s')
    | (Throw message, l', s') => handler message l' s'
    end.

Definition get {L} : M L L := λ l s, (Ok l, l, s).
Definition modify {L} (f : L → L) : M L unit := λ l s, (Ok tt, f l, s).

(** A call of a function with its own local variables. *)
Definition call {L L' A} (frame : L') (m : M L' A) : M L A :=
  λ l s, let '(r, _, s') := m frame s in (r, l, s').

Definition lift_res {L A} (r : Res A) : M L A := λ l s, (r, l, s).

(** A collaborator call, recorded with its reply. *)
Definition external {L A} (f : World → Res A * World)
    (event : Res A → Event) : M L A :=
  λ l s,
    let '(r, w) := f (world s) in
    (r, l, mkSys w (calls s ++ [event r])).

(** A collaborator call that cannot fail and is not recorded. *)
Definition ambient {L A} (f : World → A * World) : M L A :=
  λ l s, let '(a, w) := f (world s) in (Ok a, l, mkSys w (calls s)).

Fixpoint for_each {L A} (items : list A) (body : A → M L unit) : M L unit :=
  match items with
  | [] => ret tt
  | x :: items' => bind (body x) (λ _, for_each items' body)
  end.

Fixpoint map_m {L A B} (f : A → M L B) (items : list A) : M L (list B) :=
  match items with
  | [] => ret []
  | x :: items' =>
      bind (f x) (λ y, bind (map_m f items') (λ ys, ret (y :: ys)))
  end.

Definition embedMany {L} (values : list string) : M L (list Embedding) :=
  external (rt_embedMany values) (EvEmbed values).

Definition vectorStore_query {L} (queryVector : option Embedding) (topK : Q)
  : M L (option (list Candidate)) :=
  external (rt_query queryVector topK) (EvQuery queryVector topK).

Definition vectorStore_upsert {L} (request : UpsertRequest) : M L unit :=
  external (rt_upsert request) (EvUpsert request).

Definition getTools {L} : M L (list (Tool World)) :=
  external rt_getTools (λ _, EvGetTools).

Definition execute_tool {L} (tool : Tool World) (query : string)
    (numResults : Q) : M L (option (list WebResult)) :=
  external (tool_execute tool query numResults)
           (λ _, EvSearch (tool_id tool) query numResults).

End Monad.

Declare Scope tool_scope.
Delimit Scope tool_scope with tool.
Notation "'let*' x ':=' m 'in' k" := (bind m (λ x, k))
  (at level 10, x name, m at level 100, k at level 200) : tool_scope.

Local Open Scope tool_scope.

(** ** Entity-expansion search *)

(** [result.score * 0.7] *)
Definition dampen (score : option Q) : option Q :=
  match score with
  | Some q => Some (q * (7 # 10))%Q
  | None => None
  end.

(** [initialResults.find(initial => initial.id === result.id)] is defined *)
Definition found_in (initialResults : list Candidate) (result : Candidate)
  : bool :=
  existsb (λ initial, bool_decide (r_id initial = r_id result)) initialResults.

(** The object pushed onto [relatedResults]. *)
Definition related (entity : string) (result : Candidate) : Candidate :=
  {| r_id := r_id result;
     r_score := dampen (r_score result);
     r_metadata :=
       <[ "entity" := VStr entity ]>
         (<[ "entitySearch" := VBool true ]> (r_metadata result)) |}.

(** The callback of [entityResults.forEach]; the local variable of the
    function is [relatedResults]. *)
Definition add_related `{Runtime} (initialResults : list Candidate)
    (entity : string) (result : Candidate) : M (list Candidate) unit :=
  if negb (found_in initialResults result) && score_gt (r_score result) (7 # 10)
  then modify (λ relatedResults, relatedResults ++ [related entity result])
  else ret tt.

(** The body of [for (const entity of topEntities)]. *)
Definition search_entity `{Runtime} (initialResults : list Candidate)
    (depth : Q) (entity : string) : M (list Candidate) unit :=
  if Js.includes commonWords (Js.toLowerCase entity) then ret tt
  else
    let* entityEmbedding := embedMany [entity] in
    let* entityResults := vectorStore_query (head entityEmbedding)
                                       (Qmin 5 (depth * 2)) in
    match entityResults with
    | None => throw "Cannot read properties of undefined (reading 'forEach')"
    | Some hits => for_each hits (add_related initialResults entity)
    end.

Definition performEntitySearch `{Runtime} {L : Type} (entities : list string)
    (initialResults : list Candidate) (depth : Q) : M L (list Candidate) :=
  call ([] : list Candidate)
    (let* _ := try_catch
                 (for_each (take 3 entities)
                           (search_entity initialResults depth))
                 (λ error, ret tt) in
     get).

(** ** The retrieval tool *)

Record ToolContext : Type := mkToolContext {
  query : string;
  topK : Q;
  entityDepth : Q;
  useEntityEnhancement : bool
}.

Record Source : Type := mkSource {
  s_id : string;
  s_score : Q;
  s_document : string;
  s_metadata : gmap string JsValue
}.

Record PathEntry : Type := mkPathEntry {
  nodeId : string;
  relationship : string;
  p_score : option Q;
  p_text : string
}.

Record RetrievalResult : Type := mkRetrievalResult {
  relevantContext : string;
  sources : list Source;
  entityPath : list PathEntry;
  entities : list string;
  webSearchUsed : bool;
  webSearchResults : option (list WebResult)
}.

(** The variables of [execute] that the web-search block assigns. *)
Record Locals : Type := mkLocals {
  l_initialResults : option (list Candidate);
  l_webSearchUsed : bool;
  l_webSearchResults : list WebResult
}.

Definition locals_start : Locals := mkLocals None false [].

Definition dquote : string := String "034" EmptyString.

(** [a || b] on strings: [a] unless it is missing or empty. *)
Definition or_else (a : option string) (b : string) : string :=
  match a with
  | Some (String c s) => String c s
  | _ => b
  end.

Definition is_search_tool {W : Type} (tool : Tool W) : bool :=
  match tool_id tool with
  | Some i => Js.str_includes i "search" || Js.str_includes i "web"
  | None => false
  end.

(** The callback that turns a web result into a document. *)
Definition webDocument `{Runtime} {L : Type} (query : string)
    (result : WebResult) : M L WebDocument :=
  let* now := ambient rt_now in
  let* random := ambient rt_random in
  let* timestamp := ambient rt_isoString in
  ret {| d_id := "web_" +:+ now +:+ "_" +:+ random;
         d_content :=
           or_else (w_content result)
             (or_else (w_snippet result)
                (or_else (w_description result) EmptyString));
         d_metadata :=
           <[ "title" := VStr (or_else (w_title result)
                                 (or_else (w_name result)
                                    "Web Search Result")) ]>
             (<[ "url" := VStr (or_else (w_url result)
                                  (or_else (w_link result) "#")) ]>
                (<[ "source" := VStr "web_search" ]>
                   (<[ "originalQuery" := VStr query ]>
                      (<[ "timestamp" := VStr timestamp ]> ∅))));
         d_vector := None |}.

Definition with_vector (embeddings : list Embedding) (i : nat)
    (doc : WebDocument) : WebDocument :=
  {| d_id := d_id doc; d_content := d_content doc;
     d_metadata := d_metadata doc; d_vector := embeddings !! i |}.

(** The block guarded by [if (!hasSufficientLocalResults)]. *)
Definition webSearch `{Runtime} (query : string) (topK : Q)
    (queryEmbedding : option Embedding) : M Locals unit :=
  try_catch
    (let* tools := getTools in
     match List.find is_search_tool tools with
     | None => throw "Exa Search web search tool not available"
     | Some exaWebSearchTool =>
         let* searchResult := execute_tool exaWebSearchTool query 5 in
         match searchResult with
         | Some (r :: rs) =>
             let results := r :: rs in
             let* _ := modify (λ l, mkLocals (l_initialResults l) true
                                             results) in
             let* documents := map_m (webDocument query) results in
             let* embeddings := embedMany (map d_content documents) in
             let* _ := vectorStore_upsert
                         (UpsertDocuments
                            (imap (with_vector embeddings) documents)) in
             let* updatedResults := vectorStore_query queryEmbedding (topK + 5) in
             match updatedResults with
             | Some (u :: us) =>
                 modify (λ l, mkLocals (Some (u :: us)) (l_webSearchUsed l)
                                       (l_webSearchResults l))
             | _ => ret tt
             end
         | _ => ret tt
         end
     end)
    (λ webSearchError, ret tt).

(** [webSearchUsed ? webSearchResults : undefined] *)
Definition reported_results (l : Locals) : option (list WebResult) :=
  if l_webSearchUsed l then Some (l_webSearchResults l) else None.

Definition empty_result (query : string) (l : Locals) : RetrievalResult :=
  {| relevantContext :=
       "No relevant information found for the query: " +:+ dquote +:+ query
       +:+ dquote
       +:+ ". The knowledge base may be empty or the query doesn't match "
       +:+ "any stored documents.";
     sources := [];
     entityPath := [];
     entities := [];
     webSearchUsed := l_webSearchUsed l;
     webSearchResults := reported_results l |}.

Definition error_result (query errorMessage : string) : RetrievalResult :=
  {| relevantContext :=
       "Error retrieving information for query: " +:+ dquote +:+ query
       +:+ dquote
       +:+ ". Please check if the vector store is properly configured "
       +:+ "and contains data.";
     sources :=
       [ {| s_id := "error";
            s_score := 0;
            s_document := "Error occurred during retrieval";
            s_metadata := <[ "error" := VStr errorMessage ]> ∅ |} ];
     entityPath := [];
     entities := [];
     webSearchUsed := false;
     webSearchResults := None |}.

(** The callback of [entityResults.map] that builds [entityPath]. *)
Definition pathEntry (result : Candidate) : PathEntry :=
  {| nodeId := r_id result;
     relationship := "entity_search";
     p_score := r_score result;
     p_text :=
       match text_of result with
       | Some text => Js.take_str 100 text +:+ "..."
       | None => "undefined..."
       end |}.

(** The callback of [rerankedResults.map] that builds [sources];
    [initialCount] is [initialResults.length]. *)
Definition formatSource (initialCount : nat) (index : nat) (result : Candidate)
  : Source :=
  {| s_id := "result-" +:+ pretty index;
     s_score := score_or_0 (r_score result);
     s_document :=
       match truthy_text result with
       | Some text => text
       | None => "No text available"
       end;
     s_metadata :=
       <[ "retrievalMethod" :=
            VStr (if bool_decide (index < initialCount)
                  then "vector_similarity" else "entity_search") ]>
         (<[ "id" := VStr (r_id result) ]>
            (<[ "score" := num_value (r_score result) ]>
               (r_metadata result))) |}.

(** [relevantTexts || `No text content found for query: "${query}"`] *)
Definition or_notice (relevantTexts query : string) : string :=
  match relevantTexts with
  | EmptyString =>
      "No text content found for query: " +:+ dquote +:+ query +:+ dquote
  | text => text
  end.

(** The [try] block of [execute] from the test of [initialResults] on:
    the response for an empty knowledge base, or steps 2 to 6.  [l] holds
    the variables as the web-search block left them. *)
Definition respond `{Runtime} (context : ToolContext) (l : Locals)
  : M Locals RetrievalResult :=
  match l_initialResults l with
  | None | Some [] => ret (empty_result (query context) l)
  | Some initialResults =>
      let entities := extractEntities (query context) initialResults in
      let* entityResults :=
        (if useEntityEnhancement context && bool_decide (0 < length entities)
         then performEntitySearch entities initialResults
                                  (entityDepth context)
         else ret []) in
      let enhancedResults :=
        match entityResults with
        | [] => initialResults
        | _ => initialResults ++ entityResults
        end in
      let entityPath := map pathEntry entityResults in
      let* rerankedResults :=
        lift_res (rerankByEntityOverlap enhancedResults entities) in
      let unique := uniqueResults rerankedResults in
      let assembled := assemble unique entities in
      ret {| relevantContext :=
               or_notice (relevantTexts assembled) (query context);
             sources :=
               imap (formatSource (length initialResults)) rerankedResults;
             entityPath := entityPath;
             entities := entities;
             webSearchUsed := l_webSearchUsed l;
             webSearchResults := reported_results l |}
  end.

(** The body of the [try] block of [execute]; [pgVector] tells whether
    [mastra?.getVector("pgVector")] gave a store. *)
Definition execute_try `{Runtime} (context : ToolContext) (pgVector : bool)
  : M Locals RetrievalResult :=
  if negb pgVector then
    throw "Vector store not found. Please ensure pgVector is configured."
  else
    let* embeddings := embedMany [query context] in
    let queryEmbedding := head embeddings in
    let* first := vectorStore_query queryEmbedding (topK context) in
    let* _ := modify (λ l, mkLocals first (l_webSearchUsed l)
                                    (l_webSearchResults l)) in
    let* _ := (if hasSufficientLocalResults first then ret tt
               else webSearch (query context) (topK context)
                              queryEmbedding) in
    let* l := get in
    respond context l.

(** [enhancedVectorRagTool.execute] *)
Definition execute `{Runtime} (context : ToolContext) (pgVector : bool)
  : M Locals RetrievalResult :=
  try_catch (execute_try context pgVector)
            (λ errorMessage, ret (error_result (query context) errorMessage)).

(** ** The tool that stores web results on request *)

Module StoreWebResults.

Record SearchResult : Type := mkSearchResult {
  title : string;
  url : string;
  snippet : string;
  content : option string
}.

Record Input : Type := mkInput {
  searchResults : list SearchResult;
  originalQuery : string;
  userRequested : bool
}.

Record Output : Type := mkOutput {
  message : string;
  storedCount : nat;
  documentIds : list string
}.

Record Document : Type := mkDocument {
  doc_id : string;
  doc_text : string;
  doc_metadata : gmap string JsValue
}.

Definition document `{Runtime} {L : Type} (originalQuery : string)
    (indexed : nat * SearchResult) : M L Document :=
  let '(index, result) := indexed in
  let* now := ambient rt_now in
  let* timestamp := ambient rt_isoString in
  ret {| doc_id := "web_" +:+ now +:+ "_" +:+ pretty index;
         doc_text := or_else (content result) (or_else (Some (snippet result))
                                                       EmptyString);
         doc_metadata :=
           <[ "title" := VStr (or_else (Some (title result))
                                       "Web Search Result") ]>
             (<[ "url" := VStr (or_else (Some (url result)) "#") ]>
                (<[ "source" := VStr "web_search" ]>
                   (<[ "originalQuery" := VStr originalQuery ]>
                      (<[ "timestamp" := VStr timestamp ]>
                         (<[ "userRequested" := VBool true ]> ∅))))) |}.

(** [{ text: doc.text, ...doc.metadata }] *)
Definition stored_metadata (doc : Document) : gmap string JsValue :=
  doc_metadata doc ∪ <[ "text" := VStr (doc_text doc) ]> ∅.

(** The body of the [try] block.  The pictographs that open the messages
    of the source are left out. *)
Definition execute_try `{Runtime} (input : Input) (pgVector : bool)
  : M unit Output :=
  if negb (userRequested input) then
    ret {| message :=
             "Web search results not stored - user did not request storage";
           storedCount := 0;
           documentIds := [] |}
  else if negb pgVector then throw "Vector store not available"
  else
    let* documents := map_m (document (originalQuery input))
                       (imap pair (searchResults input)) in
    let* embeddings := embedMany (map doc_text documents) in
    let* _ := vectorStore_upsert
                (UpsertVectors embeddings
                               (map stored_metadata documents)) in
    ret {| message :=
             "Successfully stored " +:+ pretty (length documents)
             +:+ " web search results in knowledge base";
           storedCount := length documents;
           documentIds := map doc_id documents |}.

(** [storeWebResultsTool.execute] *)
Definition execute `{Runtime} (input : Input) (pgVector : bool)
  : M unit Output :=
  try_catch (execute_try input pgVector)
    (λ errorMessage,
       ret {| message := "Failed to store web search results: "
                         +:+ errorMessage;
              storedCount := 0;
              documentIds := [] |}).

End StoreWebResults.

(** ** A scripted run-time system

    Used to run the tools on concrete inputs.  The world counts the calls
    made; an embedding holds the length of the embedded text, so that the
    store can tell the queries apart. *)

Module Script.

Definition embed (value : string) : Embedding :=
  [inject_Z (Js.len value)].

Definition runtime
    (answer : option Embedding → Q → option (list Candidate))
    (tools : list (Tool nat)) : Runtime :=
  {| World := nat;
     regexp_other := λ _ _, Throw "Invalid regular expression";
     rt_embedMany := λ values w, (Ok (map embed values), S w);
     rt_query := λ queryVector topK w, (Ok (answer queryVector topK), S w);
     rt_upsert := λ _ w, (Ok tt, S w);
     rt_getTools := λ w, (Ok tools, S w);
     rt_now := λ w, (pretty w, S w);
     rt_random := λ w, ("0." +:+ pretty w, S w);
     rt_isoString := λ w, ("2024-01-01T00:00:00.000Z", S w) |}.

Definition start (rt : Runtime) (w : @World rt) : @Sys rt := mkSys w [].

Definition candidate (id : string) (score : Q) (text : string) : Candidate :=
  mkCandidate id (Some score) (<[ "text" := VStr text ]> ∅).

Fixpoint repeat_string (n : nat) (s : string) : string :=
  match n with
  | O => EmptyString
  | S n' => s +:+ repeat_string n' s
  end.

(** A tool registry with one search tool that finds one page. *)
Definition page : WebResult :=
  mkWebResult (Some "Riverdale Heights has 2,500 residents") None None
              (Some "Riverdale") None (Some "https://example.org") None.

Definition exa : Tool nat :=
  mkTool nat (Some "exa_web_search")
         (λ _ _ w, (Ok (Some [page]), S w)).

End Script.

(** ** Inputs used in the statements *)

Module Inputs.

(** Fifteen distinct candidates, each with a text of 400 code units that
    mentions the entity data. *)
Definition crowded : list Candidate :=
  map (λ i, Script.candidate (pretty i) (9 # 10)
                             (Script.repeat_string 100 "data"))
      (seq 0 15).

(** A chunk that mentions node and js, but not the name Node.js. *)
Definition node_chunk : Candidate :=
  Script.candidate "c1" (5 # 10) "We run node js daily".

Definition town : string :=
  "The population of the town is approximately 2,500 residents today.".

Definition context : ToolContext :=
  mkToolContext "population of riverdale" 10 2 true.

(** A store that answers the query of the tool ([topK] 10) with one
    strong hit, and every entity query with the same other chunk. *)
Definition two_paths : Runtime :=
  Script.runtime
    (λ _ topK,
       if Qeq_bool topK 10
       then Some [Script.candidate "c1" (9 # 10) town]
       else Some [Script.candidate "c2" (8 # 10) town])
    [].

(** A store with one weak hit, and a registry with a search tool. *)
Definition weak_store : Runtime :=
  Script.runtime (λ _ _, Some [Script.candidate "c1" (5 # 10) town])
                 [Script.exa].

(** The same, where the query repeated after the web search ([topK] 15)
    finds a second chunk. *)
Definition grown_store : Runtime :=
  Script.runtime
    (λ _ topK,
       if Qeq_bool topK 15
       then Some [Script.candidate "c1" (5 # 10) town;
                  Script.candidate "w1" (4 # 10) town]
       else Some [Script.candidate "c1" (5 # 10) town])
    [Script.exa].

(** A store without documents and a registry without tools. *)
Definition empty_store : Runtime := Script.runtime (λ _ _, Some []) [].

End Inputs.

(** ** Vocabulary of the statements *)


(** A piece that does not open the string: white space comes before it. *)
Definition later_token (s w : string) : Prop :=
  ∃ pre post : string,
    s = pre +:+ w +:+ post ∧
    Js.no_space w = true ∧
    Js.ends_with_space pre = true ∧
    (post = EmptyString ∨ Js.starts_with_space post = true).

Fixpoint no_upper (s : string) : bool :=
  match s with
  | EmptyString => true
  | String c s' => negb (Js.is_upper c) && no_upper s'
  end.

(** Every code unit is one of a..z. *)
Fixpoint all_lower (w : string) : bool :=
  match w with
  | EmptyString => true
  | String c w' => Js.is_lower c && all_lower w'
  end.

(** What the loop keeps true of its variables. *)
Definition assembly_inv (a : Assembly) : Prop :=
  (0 ≤ currentLength a ≤ maxContextLength)%Z ∧
  addedCount a ≤ maxResults ∧
  length (pieces a) = addedCount a ∧
  (relevantTexts a = EmptyString ∨
   (Js.len (relevantTexts a) + 2 ≤
    currentLength a + 2 * Z.of_nat (addedCount a))%Z).

(** [spec m P]: from any local variables [l] and any system state, [m]
    ends with a result [r], local variables [l'] and a record of calls
    extended by [new], where [P l r l' new]. *)
Definition spec `{Runtime} {L A : Type} (m : M L A)
    (P : L → Res A → L → list Event → Prop) : Prop :=
  ∀ l s, ∃ r l' s' new,
    m l s = (r, l', s') ∧ calls s' = calls s ++ new ∧ P l r l' new.

(** The outcome of [m] followed by [k]. *)
Definition seq_post {L A B : Type}
    (P : L → Res A → L → list Event → Prop)
    (Q : A → L → Res B → L → list Event → Prop)
    (l : L) (r : Res B) (l'' : L) (new : list Event) : Prop :=
  (∃ message, r = Throw message ∧ P l (Throw message) l'' new) ∨
  (∃ a l' n1 n2, P l (Ok a) l' n1 ∧ Q a l' r l'' n2 ∧ new = n1 ++ n2).

(** The outcome of [m] guarded by a handler. *)
Definition catch_post {L A : Type}
    (P : L → Res A → L → list Event → Prop)
    (Q : string → L → Res A → L → list Event → Prop)
    (l : L) (r : Res A) (l'' : L) (new : list Event) : Prop :=
  (∃ a, r = Ok a ∧ P l (Ok a) l'' new) ∨
  (∃ message l' n1 n2,
     P l (Throw message) l' n1 ∧ Q message l' r l'' n2 ∧ new = n1 ++ n2).

(** The calls that entity expansion may make for the entities [ents]: an
    embedding of one of them alone, or a query with
    [topK = Math.min(5, depth * 2)]. *)
Definition expansion_event (ents : list string) (depth : Q) (e : Event)
  : Prop :=
  match e with
  | EvEmbed values _ => ∃ entity, entity ∈ ents ∧ values = [entity]
  | EvQuery _ topK _ => topK = Qmin 5 (depth * 2)
  | _ => False
  end.

Fixpoint query_count (events : list Event) : nat :=
  match events with
  | [] => 0
  | EvQuery _ _ _ :: events' => S (query_count events')
  | _ :: events' => query_count events'
  end.

(** [c] is what [performEntitySearch] pushes for the hit [hit]. *)
Definition kept (initialResults : list Candidate) (entity : string)
    (hit c : Candidate) : Prop :=
  c = related entity hit ∧
  found_in initialResults hit = false ∧
  score_gt (r_score hit) (7 # 10) = true.

(** [c] comes from a hit of the query made for one of [ents] in the calls
    [new]: its id is not among the initial results, the raw score of the hit
    exceeds 0.7, the score of [c] is the raw score times 0.7, and its
    metadata names the entity. *)
Definition expanded_from (initialResults : list Candidate) (depth : Q)
    (ents : list string) (new : list Event) (c : Candidate) : Prop :=
  ∃ entity embeddings hits hit raw before after,
    entity ∈ ents ∧
    new = before ++
          [EvEmbed [entity] (Ok embeddings);
           EvQuery (head embeddings) (Qmin 5 (depth * 2)) (Ok (Some hits))]
          ++ after ∧
    hit ∈ hits ∧
    r_id c = r_id hit ∧
    (r_id c ∉ map r_id initialResults) ∧
    r_score hit = Some raw ∧ (7 # 10 < raw)%Q ∧
    r_score c = Some (raw * (7 # 10))%Q ∧
    r_metadata c !! "entitySearch" = Some (VBool true) ∧
    r_metadata c !! "entity" = Some (VStr entity).

(** The outcome of one round of the loop of [performEntitySearch]. *)
Definition entity_post (initialResults : list Candidate) (depth : Q)
    (entity : string) (l : list Candidate) (l' : list Candidate)
    (new : list Event) : Prop :=
  ∃ added, l' = l ++ added ∧
    Forall (expansion_event [entity] depth) new ∧
    query_count new ≤ 1 ∧
    ∀ c, c ∈ added → expanded_from initialResults depth [entity] new c.

(** The outcome of [performEntitySearch]: it returns, leaves the variables
    of the caller alone, calls the embedder and the store for the first
    three entities only, at most three times each, and every candidate it
    returns comes from one of these queries. *)
Definition search_post {L : Type} (entities : list string)
    (initialResults : list Candidate) (depth : Q)
    (l : L) (r : Res (list Candidate)) (l' : L) (new : list Event) : Prop :=
  l' = l ∧
  ∃ out, r = Ok out ∧
    Forall (expansion_event (take 3 entities) depth) new ∧
    query_count new ≤ 3 ∧
    ∀ c, c ∈ out →
         expanded_from initialResults depth (take 3 entities) new c.

(** [m] ends from every state, with the record of calls extended. *)
Definition runs `{Runtime} {L A : Type} (m : M L A) : Prop :=
  spec m (λ _ _ _ _, True).

Definition no_upsert (new : list Event) : Prop :=
  ∀ request reply, EvUpsert request reply ∉ new.

(** The result [res] that [respond context l] builds: the response for an
    empty knowledge base when [initialResults] is missing or empty, and
    otherwise the entities extracted from the query and the initial
    results, the sources formatted from the reranked list of the initial
    results followed by some entity-search results, and the context
    assembled from the deduplicated reranked list. *)
Definition response_of `{Runtime} (context : ToolContext) (l : Locals)
    (res : RetrievalResult) : Prop :=
  webSearchUsed res = l_webSearchUsed l ∧
  webSearchResults res = reported_results l ∧
  match l_initialResults l with
  | None | Some [] => res = empty_result (query context) l
  | Some initialResults =>
      ∃ entityResults rerankedResults,
        rerankByEntityOverlap (initialResults ++ entityResults)
                              (extractEntities (query context) initialResults)
        = Ok rerankedResults ∧
        entities res = extractEntities (query context) initialResults ∧
        entityPath res = map pathEntry entityResults ∧
        sources res =
          imap (formatSource (length initialResults)) rerankedResults ∧
        relevantContext res =
          or_notice (relevantTexts (assemble (uniqueResults rerankedResults)
                                             (entities res)))
                    (query context)
  end.

(** The calls of a run of [execute] hold an upsert only after a first query
    whose reply failed the sufficiency gate. *)
Definition upsert_only_if_insufficient (context : ToolContext)
    (new : list Event) : Prop :=
  ∀ request reply, EvUpsert request reply ∈ new →
    ∃ values embeddings queryVector first rest,
      new = EvEmbed values embeddings
            :: EvQuery queryVector (topK context) (Ok first) :: rest ∧
      hasSufficientLocalResults first = false.

(** The response of the outer [catch]: one source with id error, no entity
    path, no entities, no web search. *)
Definition is_error_response (res : RetrievalResult) : Prop :=
  (∃ src, sources res = [src] ∧ s_id src = "error") ∧
  entityPath res = [] ∧
  entities res = [] ∧
  webSearchUsed res = false ∧
  webSearchResults res = None.

(** The outcome of the [try] block of [execute]. *)
Definition try_post `{Runtime} (context : ToolContext) (pgVector : bool)
    (l : Locals) (r : Res RetrievalResult) (l' : Locals)
    (new : list Event) : Prop :=
  upsert_only_if_insufficient context new ∧
  (∀ res, r = Ok res → response_of context l' res) ∧
  (pgVector = false → (∃ message, r = Throw message) ∧ new = [] ∧ l' = l).

(** The outcome of [execute]. *)
Definition execute_post `{Runtime} (context : ToolContext) (pgVector : bool)
    (l : Locals) (r : Res RetrievalResult) (l' : Locals)
    (new : list Event) : Prop :=
  upsert_only_if_insufficient context new ∧
  ∃ res, r = Ok res ∧
    (response_of context l' res ∨ is_error_response res) ∧
    (pgVector = false → is_error_response res ∧ new = [] ∧ l' = l).

(** *** Whole-word occurrences, as the specification words them *)

(** [rest] starts with [entity], case ignored. *)
Fixpoint ci_prefix (entity rest : string) : bool :=
  match entity, rest with
  | EmptyString, _ => true
  | String a entity', String c rest' =>
      bool_decide (Js.lower_char a = Js.lower_char c) && ci_prefix entity' rest'
  | String _ _, EmptyString => false
  end.

(** The code unit of [rest] at index [n], if any. *)
Fixpoint char_after (n : nat) (rest : string) : option ascii :=
  match n, rest with
  | O, _ => RegExp.head_char rest
  | S n', String _ rest' => char_after n' rest'
  | S _, EmptyString => None
  end.

(** [entity] occurs at the head of [rest] as a whole word: case ignored,
    and with no word character just before ([prev]) or just after. *)
Definition whole_word_at (entity : string) (prev : option ascii)
    (rest : string) : bool :=
  negb (RegExp.word_char prev) && ci_prefix entity rest &&
  negb (RegExp.word_char (char_after (String.length entity) rest)).

Fixpoint occurrences_from (entity : string) (prev : option ascii)
    (rest : string) : nat :=
  (if whole_word_at entity prev rest then 1 else 0) +
  match rest with
  | EmptyString => 0
  | String c rest' => occurrences_from entity (Some c) rest'
  end.

(** The number of whole-word, case-insensitive occurrences of [entity] in
    [text]. *)
Definition whole_word_occurrences (entity text : string) : nat :=
  occurrences_from entity None text.

(** The sum of the occurrences of all entities. *)
Definition total_occurrences (entities : list string) (text : string) : nat :=
  foldr (λ entity n, whole_word_occurrences entity text + n) 0 entities.

Fixpoint all_word (s : string) : bool :=
  match s with
  | EmptyString => true
  | String c s' => Js.is_word c && all_word s'
  end.

(** An entity made of letters, digits and underscores, as both extractors
    of the repository produce them. *)
Definition plain_word (entity : string) : Prop :=
  entity ≠ EmptyString ∧ all_word entity = true.

(** The first [n] code units of [rest] exist and are word characters. *)
Fixpoint word_prefix (n : nat) (rest : string) : Prop :=
  match n, rest with
  | O, _ => True
  | S n', String c rest' => Js.is_word c = true ∧ word_prefix n' rest'
  | S _, EmptyString => False
  end.

Fixpoint literals (entity : string) : list RegExp.Item :=
  match entity with
  | EmptyString => []
  | String c entity' => RegExp.Lit c :: literals entity'
  end.

(** The candidate that the specification asks for: the score raised by a
    tenth of the number of occurrences, both numbers kept in the
    metadata. *)
Definition boosted (entities : list string) (result : Candidate) : Candidate :=
  let entityScore := total_occurrences entities (lower_text result) in
  let boostedScore := boost_score (r_score result) entityScore in
  {| r_id := r_id result;
     r_score := boostedScore;
     r_metadata :=
       <[ "boostedScore" := num_value boostedScore ]>
         (<[ "entityScore" := VNum (inject_Z (Z.of_nat entityScore)) ]>
            (r_metadata result)) |}.

(** The candidates of [l] whose key equals [k], in the order of [l]. *)
Definition with_key (k : Q) (l : list Candidate) : list Candidate :=
  List.filter (λ c, Qeq_bool (sort_key c) k) l.

(** [a] may stand before [b] in a list sorted by descending score. *)
Definition not_below (a b : Candidate) : Prop :=
  (sort_key b <= sort_key a)%Q.

(** The strings of a list put end to end. *)
Definition concat_str (l : list string) : string :=
  foldr String.append EmptyString l.

(** [piece] is what the loop appends for the candidate [c]: its text, after
    a separator unless it comes first, or a prefix of its text between a
    separator and an ellipsis. *)
Definition piece_of (c : Candidate) (piece : string) : Prop :=
  ∃ text, truthy_text c = Some text ∧
    (piece = text ∨ piece = nl2 +:+ text ∨
     ∃ n, piece = nl2 +:+ Js.take_str n text +:+ "...").

(** ** Vocabulary of the further properties *)

(** The candidates whose text the assembly loop accepts: a text of at
    least 50 code units that mentions one of the entities. *)
Definition accepted (entities : list string) (c : Candidate) : bool :=
  match truthy_text c with
  | Some text =>
      bool_decide (50 ≤ Js.len text)%Z && hasRelevantContent entities text
  | None => false
  end.

(** The text of a candidate, empty when it has none. *)
Definition text_or_empty (c : Candidate) : string :=
  match truthy_text c with
  | Some text => text
  | None => EmptyString
  end.

(** The strings of a list joined by blank lines. *)
Definition join_blank (texts : list string) : string :=
  match texts with
  | [] => EmptyString
  | text :: texts' => text +:+ concat_str (map (String.append nl2) texts')
  end.

(** The sum of the lengths of the strings of a list. *)
Definition total_len (texts : list string) : Z :=
  foldr (λ text n, (Js.len text + n)%Z) 0%Z texts.

(** The texts that the assembly loop accepts, in the order of the list. *)
Definition accepted_texts (entities : list string) (l : list Candidate)
  : list string :=
  map text_or_empty (List.filter (accepted entities) l).

(** The collaborator that a recorded call went to. *)
Inductive Kind : Type := KEmbed | KQuery | KUpsert | KTools | KSearch.

Definition kind_of (e : Event) : Kind :=
  match e with
  | EvEmbed _ _ => KEmbed
  | EvQuery _ _ _ => KQuery
  | EvUpsert _ _ => KUpsert
  | EvGetTools => KTools
  | EvSearch _ _ _ => KSearch
  end.

Definition kind_eqb (a b : Kind) : bool :=
  match a, b with
  | KEmbed, KEmbed | KQuery, KQuery | KUpsert, KUpsert
  | KTools, KTools | KSearch, KSearch => true
  | _, _ => false
  end.

(** The number of calls of kind [k] in a record of calls. *)
Definition calls_of (k : Kind) (events : list Event) : nat :=
  length (List.filter (λ e, kind_eqb (kind_of e) k) events).

(** [entity] is one that [performEntitySearch] skips. *)
Definition skipped (entity : string) : bool :=
  Js.includes commonWords (Js.toLowerCase entity).

(** The entities of the first three that [performEntitySearch] does not
    skip as common words. *)
Definition searchable (entities : list string) : list string :=
  filter (λ e, skipped e = false) (take 3 entities).

(** A hit that [performEntitySearch] keeps: its id is not the id of an
    initial result and its score exceeds 0.7. *)
Definition qualifies (initialResults : list Candidate) (hit : Candidate)
  : bool :=
  negb (found_in initialResults hit) && score_gt (r_score hit) (7 # 10).

(** A reply of the store without a list of hits: the query threw, or its
    result is [undefined]. *)
Definition no_hits (reply : Res (option (list Candidate))) : Prop :=
  match reply with
  | Ok (Some _) => False
  | _ => True
  end.

(** The calls [new] and the result [out] of the loop of
    [performEntitySearch] over [ents], read off the replies: a common word
    is passed over; every other entity is embedded alone and then queried
    with [topK = Math.min(5, depth * 2)]; the hits of a reply that qualify
    go to the result, dampened and tagged, in the order of the reply; and
    the first embedding or query that does not give a list of hits ends
    the loop. *)
Fixpoint search_run (initialResults : list Candidate) (depth : Q)
    (ents : list string) (new : list Event) (out : list Candidate) : Prop :=
  match ents with
  | [] => new = [] ∧ out = []
  | entity :: ents' =>
      if skipped entity then search_run initialResults depth ents' new out
      else
        (∃ message,
           new = [EvEmbed [entity] (Throw message)] ∧ out = []) ∨
        (∃ embeddings reply,
           no_hits reply ∧
           new = [EvEmbed [entity] (Ok embeddings);
                  EvQuery (head embeddings) (Qmin 5 (depth * 2)) reply] ∧
           out = []) ∨
        (∃ embeddings hits new' out',
           new = EvEmbed [entity] (Ok embeddings)
                 :: EvQuery (head embeddings) (Qmin 5 (depth * 2))
                            (Ok (Some hits))
                 :: new' ∧
           out = map (related entity)
                     (List.filter (qualifies initialResults) hits)
                 ++ out' ∧
           search_run initialResults depth ents' new' out')
  end.

(** A call that returned what the loop needs to go on. *)
Definition answered (e : Event) : Prop :=
  match e with
  | EvEmbed _ (Throw _) => False
  | EvQuery _ _ reply => ¬ no_hits reply
  | _ => True
  end.

(** The entities embedded in a record of calls, in order. *)
Definition embedded (new : list Event) : list string :=
  omap (λ e, match e with
             | EvEmbed [entity] _ => Some entity
             | _ => None
             end) new.

(** The outcome of the loop of [performEntitySearch] over [ents]: the
    candidates [added] and the calls [new] it made. *)
Definition loop_post (initialResults : list Candidate) (depth : Q)
    (ents : list string) (added : list Candidate) (new : list Event) : Prop :=
  Forall (expansion_event (filter (λ e, skipped e = false) ents) depth) new ∧
  calls_of KQuery new ≤ calls_of KEmbed new ∧
  calls_of KEmbed new ≤ length (filter (λ e, skipped e = false) ents) ∧
  ∀ c, c ∈ added →
       expanded_from initialResults depth
                     (filter (λ e, skipped e = false) ents) new c.

(** [doc] has the content and the metadata of the document that the
    web-search block builds from [result]. *)
Definition web_doc (query : string) (result : WebResult) (doc : WebDocument)
  : Prop :=
  d_content doc
  = or_else (w_content result)
      (or_else (w_snippet result)
         (or_else (w_description result) EmptyString)) ∧
  d_metadata doc !! "source" = Some (VStr "web_search") ∧
  d_metadata doc !! "originalQuery" = Some (VStr query) ∧
  d_metadata doc !! "title"
  = Some (VStr (or_else (w_title result)
                  (or_else (w_name result) "Web Search Result"))) ∧
  d_metadata doc !! "url"
  = Some (VStr (or_else (w_url result) (or_else (w_link result) "#"))).

(** What the web-search block does once a search found [results]: it
    embeds the contents of the documents, upserts the documents with their
    vectors and repeats the query with five more results; a failure ends
    it.  [initial] and [initial'] are [initialResults] before and after. *)
Definition storing (docs : list WebDocument)
    (queryEmbedding : option Embedding) (topK : Q)
    (initial initial' : option (list Candidate)) (rest : list Event) : Prop :=
  (∃ message,
     rest = [EvEmbed (map d_content docs) (Throw message)] ∧
     initial' = initial) ∨
  (∃ embeddings message,
     rest = [EvEmbed (map d_content docs) (Ok embeddings);
             EvUpsert (UpsertDocuments (imap (with_vector embeddings) docs))
                      (Throw message)] ∧
     initial' = initial) ∨
  (∃ embeddings reply,
     rest = [EvEmbed (map d_content docs) (Ok embeddings);
             EvUpsert (UpsertDocuments (imap (with_vector embeddings) docs))
                      (Ok tt);
             EvQuery queryEmbedding (topK + 5) reply] ∧
     initial' = match reply with
                | Ok (Some (u :: us)) => Some (u :: us)
                | _ => initial
                end).

(** The outcome of the web-search block: either nothing was found and the
    variables are as before, or a search found [results], which are
    reported and stored. *)
Definition web_post (query : string) (topK : Q)
    (queryEmbedding : option Embedding) (l l' : Locals) (new : list Event)
  : Prop :=
  (l' = l ∧
   (new = [EvGetTools] ∨ ∃ tool, new = [EvGetTools; EvSearch tool query 5])) ∨
  (∃ tool results docs rest,
     results ≠ [] ∧ Forall2 (web_doc query) results docs ∧
     new = EvGetTools :: EvSearch tool query 5 :: rest ∧
     l_webSearchUsed l' = true ∧ l_webSearchResults l' = results ∧
     storing docs queryEmbedding topK (l_initialResults l)
             (l_initialResults l') rest).

(** What [respond context l0] returns and which calls [new] it makes. *)
Definition respond_post `{Runtime} (context : ToolContext) (l0 : Locals)
    (r : Res RetrievalResult) (new : list Event) : Prop :=
  match l_initialResults l0 with
  | None | Some [] => new = [] ∧ r = Ok (empty_result (query context) l0)
  | Some initialResults =>
      let ents := extractEntities (query context) initialResults in
      ∃ entityResults,
        (if useEntityEnhancement context && bool_decide (0 < length ents)
         then loop_post initialResults (entityDepth context) (take 3 ents)
                        entityResults new
         else new = [] ∧ entityResults = []) ∧
        match rerankByEntityOverlap (initialResults ++ entityResults) ents with
        | Throw message => r = Throw message
        | Ok rerankedResults =>
            ∃ res, r = Ok res ∧
              entities res = ents ∧
              entityPath res = map pathEntry entityResults ∧
              sources res
              = imap (formatSource (length initialResults)) rerankedResults ∧
              relevantContext res
              = or_notice (relevantTexts
                             (assemble (uniqueResults rerankedResults) ents))
                          (query context) ∧
              webSearchUsed res = l_webSearchUsed l0 ∧
              webSearchResults res = reported_results l0
        end
  end.

(** A run of the [try] block of [execute]: without a store it throws at
    once; with one it embeds the query, queries the store, goes to the web
    when the reply fails the sufficiency gate, and responds. *)
Definition try_run `{Runtime} (context : ToolContext) (pgVector : bool)
    (l : Locals) (r : Res RetrievalResult) (l' : Locals) (new : list Event)
  : Prop :=
  if pgVector then
    (∃ message,
       r = Throw message ∧ l' = l ∧
       new = [EvEmbed [query context] (Throw message)]) ∨
    (∃ embeddings message,
       r = Throw message ∧ l' = l ∧
       new = [EvEmbed [query context] (Ok embeddings);
              EvQuery (head embeddings) (topK context) (Throw message)]) ∨
    (∃ embeddings first web rest,
       new = EvEmbed [query context] (Ok embeddings)
             :: EvQuery (head embeddings) (topK context) (Ok first)
             :: web ++ rest ∧
       (if hasSufficientLocalResults first
        then web = [] ∧
             l' = mkLocals first (l_webSearchUsed l) (l_webSearchResults l)
        else web_post (query context) (topK context) (head embeddings)
                      (mkLocals first (l_webSearchUsed l)
                                (l_webSearchResults l))
                      l' web) ∧
       respond_post context l' r rest)
  else
    (∃ message, r = Throw message) ∧ l' = l ∧ new = [].

(** A run of [execute]: the run of its [try] block, with a thrown message
    turned into the error response. *)
Definition execute_run `{Runtime} (context : ToolContext) (pgVector : bool)
    (l : Locals) (r : Res RetrievalResult) (l' : Locals) (new : list Event)
  : Prop :=
  ∃ r0, try_run context pgVector l r0 l' new ∧
        r = Ok match r0 with
               | Ok res => res
               | Throw message => error_result (query context) message
               end.

(** The value of the key retrievalMethod in the metadata of a source. *)
Definition retrievalMethod (src : Source) : option JsValue :=
  s_metadata src !! "retrievalMethod".

(** [c] occurs in [s]. *)
Fixpoint has_char (c : ascii) (s : string) : bool :=
  match s with
  | EmptyString => false
  | String c' s' => Ascii.eqb c c' || has_char c s'
  end.

(** [doc] is a document that the storing tool builds from the search
    result [result] at position [index]. *)
Definition built_from (originalQuery : string)
    (indexed : nat * StoreWebResults.SearchResult)
    (doc : StoreWebResults.Document) : Prop :=
  (∃ now, StoreWebResults.doc_id doc
          = "web_" +:+ now +:+ "_" +:+ pretty indexed.1) ∧
  StoreWebResults.doc_text doc
  = or_else (StoreWebResults.content indexed.2)
            (or_else (Some (StoreWebResults.snippet indexed.2)) EmptyString) ∧
  StoreWebResults.doc_metadata doc !! "source" = Some (VStr "web_search") ∧
  StoreWebResults.doc_metadata doc !! "originalQuery"
  = Some (VStr originalQuery) ∧
  StoreWebResults.doc_metadata doc !! "userRequested" = Some (VBool true) ∧
  StoreWebResults.doc_metadata doc !! "text" = None.

(** A run of the [try] block of the storing tool. *)
Definition store_run (input : StoreWebResults.Input) (pgVector : bool)
    (r : Res StoreWebResults.Output) (new : list Event) : Prop :=
  if negb (StoreWebResults.userRequested input) then
    new = [] ∧
    ∃ out, r = Ok out ∧ StoreWebResults.storedCount out = 0 ∧
           StoreWebResults.documentIds out = []
  else if negb pgVector then new = [] ∧ ∃ message, r = Throw message
  else
    ∃ documents,
      Forall2 (built_from (StoreWebResults.originalQuery input))
              (imap pair (StoreWebResults.searchResults input)) documents ∧
      ((∃ message,
          r = Throw message ∧
          new = [EvEmbed (map StoreWebResults.doc_text documents)
                         (Throw message)]) ∨
       (∃ embeddings message,
          r = Throw message ∧
          new = [EvEmbed (map StoreWebResults.doc_text documents)
                         (Ok embeddings);
                 EvUpsert (UpsertVectors embeddings
                             (map StoreWebResults.stored_metadata documents))
                          (Throw message)]) ∨
       (∃ embeddings out,
          r = Ok out ∧
          StoreWebResults.storedCount out = length documents ∧
          StoreWebResults.documentIds out
          = map StoreWebResults.doc_id documents ∧
          new = [EvEmbed (map StoreWebResults.doc_text documents)
                         (Ok embeddings);
                 EvUpsert (UpsertVectors embeddings
                             (map StoreWebResults.stored_metadata documents))
                          (Ok tt)])).

(** ** The ingestion tools

    The file-upload tool and the steps of the workflow talk to the file
    system, the chunker and the index of the store, besides the embedder
    and the store.  Their collaborator calls are kept, with the replies, in
    a log that the model threads as the one local variable of the tool. *)

Inductive ContentType : Type := CtAuto | CtText | CtMarkdown | CtJson.

Class Ingestion `{Runtime} : Type := {
  (** [fs.existsSync(filePath)] *)
  fs_existsSync : string → World → bool * World;
  (** [fs.readFileSync(filePath, 'utf-8')] *)
  fs_readFileSync : string → World → Res string * World;
  (** [path.extname(filePath)] *)
  path_extname : string → string;
  (** [MDocument.fromText], [fromMarkdown] or [fromJSON] of a content,
      followed by [doc.chunk({ strategy: "recursive", size, overlap,
      separator })]: the texts of the chunks *)
  rt_chunk : ContentType → string → Q → Q → World
             → Res (list string) * World;
  (** [vectorStore.createIndex({ indexName, dimension })] *)
  rt_createIndex : World → Res unit * World
}.

Inductive Step : Type :=
  | StExists (filePath : string) (reply : bool)
  | StRead (filePath : string) (reply : Res string)
  | StChunk (kind : ContentType) (content : string) (size overlap : Q)
            (reply : Res (list string))
  | StEmbed (values : list string) (reply : Res (list Embedding))
  | StCreateIndex (reply : Res unit)
  | StUpsert (request : UpsertRequest) (reply : Res unit).

(** A collaborator call, logged with its reply. *)
Definition step `{Runtime} {A : Type} (f : World → Res A * World)
    (record : Res A → Step) : M (list Step) A :=
  λ log s,
    let '(r, w) := f (world s) in
    (r, log ++ [record r], mkSys w (calls s)).

(** The same for a call that cannot fail. *)
Definition step_total `{Runtime} {A : Type} (f : World → A * World)
    (record : A → Step) : M (list Step) A :=
  λ log s,
    let '(a, w) := f (world s) in
    (Ok a, log ++ [record a], mkSys w (calls s)).

Module FileUploadTool.

Record Input : Type := mkInput {
  filePath : string;
  chunkSize : option Q;
  overlap : option Q;
  contentType : option ContentType
}.

Record Output : Type := mkOutput {
  success : bool;
  chunksCreated : nat;
  embeddingsGenerated : nat;
  entitiesExtracted : nat;
  message : string
}.

Definition type_name (contentType : ContentType) : string :=
  match contentType with
  | CtAuto => "auto"
  | CtText => "text"
  | CtMarkdown => "markdown"
  | CtJson => "json"
  end.

(** [detectedContentType], from the requested type and the lower-cased
    extension of the file. *)
Definition detect (contentType : ContentType) (fileExtension : string)
  : ContentType :=
  match contentType with
  | CtAuto =>
      if String.eqb fileExtension ".md"
         || String.eqb fileExtension ".markdown"
      then CtMarkdown
      else if String.eqb fileExtension ".json" then CtJson
      else CtText
  | _ => contentType
  end.

(** The [switch] that picks the constructor of the document. *)
Definition document_kind (detected : ContentType) : ContentType :=
  match detected with
  | CtMarkdown => CtMarkdown
  | CtJson => CtJson
  | _ => CtText
  end.

(** The set [allEntities], in insertion order. *)
Definition allEntities (chunks : list string) : list string :=
  foldl (λ entities chunk,
           foldl set_add entities (FileUpload.extractSimpleEntities chunk))
        [] chunks.

(** The metadata stored with a chunk. *)
Definition chunk_metadata (filePath : string) (detected : ContentType)
    (chunkSize overlap : Q) (text : string) : gmap string JsValue :=
  <[ "text" := VStr text ]>
    (<[ "entities" := VStrs (FileUpload.extractSimpleEntities text) ]>
       (<[ "source" := VStr filePath ]>
          (<[ "contentType" := VStr (type_name detected) ]>
             (<[ "chunkSize" := VNum chunkSize ]>
                (<[ "overlap" := VNum overlap ]> ∅))))).

(** The body of the [try] block; [pgVector] tells whether
    [mastra?.getVector("pgVector")] gave a store. *)
Definition execute_try `{Ingestion} (input : Input) (pgVector : bool)
  : M (list Step) Output :=
  let size := default 512%Q (chunkSize input) in
  let lap := default 50%Q (overlap input) in
  let requested := default CtAuto (contentType input) in
  let* present := step_total (fs_existsSync (filePath input))
                             (StExists (filePath input)) in
  if negb present then
    ret {| success := false;
           chunksCreated := 0;
           embeddingsGenerated := 0;
           entitiesExtracted := 0;
           message := "File not found: " +:+ filePath input |}
  else
    let* fileContent := step (fs_readFileSync (filePath input))
                             (StRead (filePath input)) in
    let fileExtension := Js.toLowerCase (path_extname (filePath input)) in
    let detected := detect requested fileExtension in
    let* chunks := step (rt_chunk (document_kind detected) fileContent
                                  size lap)
                        (StChunk (document_kind detected) fileContent
                                 size lap) in
    let* embeddings := step (rt_embedMany chunks) (StEmbed chunks) in
    let entities := allEntities chunks in
    if negb pgVector then
      ret {| success := false;
             chunksCreated := length chunks;
             embeddingsGenerated := length embeddings;
             entitiesExtracted := length entities;
             message := "Vector store not found" |}
    else
      let* _ := try_catch (step rt_createIndex StCreateIndex)
                          (λ _, ret tt) in
      let request :=
        UpsertVectors embeddings
          (map (chunk_metadata (filePath input) detected size lap) chunks) in
      let* _ := step (rt_upsert request) (StUpsert request) in
      ret {| success := true;
             chunksCreated := length chunks;
             embeddingsGenerated := length embeddings;
             entitiesExtracted := length entities;
             message := "Successfully uploaded " +:+ filePath input
                        +:+ " to knowledge base" |}.

(** [fileUploadTool.execute] *)
Definition execute `{Ingestion} (input : Input) (pgVector : bool)
  : M (list Step) Output :=
  try_catch (execute_try input pgVector)
    (λ errorMessage,
       ret {| success := false;
              chunksCreated := 0;
              embeddingsGenerated := 0;
              entitiesExtracted := 0;
              message := "Upload failed: " +:+ errorMessage |}).

End FileUploadTool.

Module Workflow.

(** The loop of [processDocumentsStep]; a chunk is its text. *)
Fixpoint process_loop `{Ingestion} (documents : list string)
    (size lap : Q) (allChunks : list string) : M (list Step) (list string) :=
  match documents with
  | [] => ret allChunks
  | docText :: documents' =>
      let* chunks := step (rt_chunk CtText docText size lap)
                          (StChunk CtText docText size lap) in
      process_loop documents' size lap (allChunks ++ chunks)
  end.

(** [processDocumentsStep.execute] *)
Definition processDocuments `{Ingestion} (documents : list string)
    (chunkSize overlap : option Q) : M (list Step) (list string) :=
  process_loop documents (default 512%Q chunkSize) (default 50%Q overlap) [].

(** [storeEmbeddingsStep.execute], the value of [success]; [vectorStore]
    tells whether the input carries a store. *)
Definition storeEmbeddings `{Ingestion} (embeddings : list Embedding)
    (chunks : list string) (vectorStore : bool) : M (list Step) bool :=
  try_catch
    (if negb vectorStore then throw "vectorStore is undefined"
     else
       let* _ := step rt_createIndex StCreateIndex in
       let request :=
         UpsertVectors embeddings
           (map (λ text, <[ "text" := VStr text ]> ∅) chunks) in
       let* _ := step (rt_upsert request) (StUpsert request) in
       ret true)
    (λ _, ret false).

End Workflow.

(** ** The MCP client of the module *)

Module Mcp.

(** A client is told apart by its [serial]: the number of clients that
    were constructed before it. *)
Record Client : Type := mkClient {
  client_id : string;
  serial : nat
}.

(** The variable [mcpClient] of the module and the number of clients
    constructed so far. *)
Record State : Type := mkState {
  mcpClient : option Client;
  constructed : nat
}.

Definition start : State := mkState None 0.

(** [buildMcp()]: it has no [await], so a call runs to its end before
    another starts. *)
Definition buildMcp (st : State) : Client * State :=
  match mcpClient st with
  | Some client => (client, st)
  | None =>
      let client := mkClient "self-learning-rag-mcp" (constructed st) in
      (client, mkState (Some client) (S (constructed st)))
  end.

(** [n] calls in a row. *)
Fixpoint build_many (n : nat) (st : State) : list Client * State :=
  match n with
  | O => ([], st)
  | S n' =>
      let '(client, st') := buildMcp st in
      let '(clients, st'') := build_many n' st' in
      (client :: clients, st'')
  end.

End Mcp.

(** ** Vocabulary of the ingestion properties *)

(** The steps of the file-upload tool up to the chunks. *)
Definition chunked_steps (input : FileUploadTool.Input) (kind : ContentType)
    (content : string) (chunks : list string) : list Step :=
  [StExists (FileUploadTool.filePath input) true;
   StRead (FileUploadTool.filePath input) (Ok content);
   StChunk kind content (default 512%Q (FileUploadTool.chunkSize input))
           (default 50%Q (FileUploadTool.overlap input)) (Ok chunks)].

(** The report of the outer [catch] of the file-upload tool. *)
Definition upload_failed (errorMessage : string) : FileUploadTool.Output :=
  FileUploadTool.mkOutput false 0 0 0 ("Upload failed: " +:+ errorMessage).

(** The request of the upsert of the file-upload tool. *)
Definition upload_request (input : FileUploadTool.Input)
    (kind : ContentType) (chunks : list string)
    (embeddings : list Embedding) : UpsertRequest :=
  UpsertVectors embeddings
    (map (FileUploadTool.chunk_metadata
            (FileUploadTool.filePath input) kind
            (default 512%Q (FileUploadTool.chunkSize input))
            (default 50%Q (FileUploadTool.overlap input)))
         chunks).

(** The kind of document that the file-upload tool makes of a file. *)
Definition upload_kind `{Ingestion} (input : FileUploadTool.Input)
  : ContentType :=
  FileUploadTool.detect
    (default CtAuto (FileUploadTool.contentType input))
    (Js.toLowerCase (path_extname (FileUploadTool.filePath input))).

(** The runs of the file-upload tool: its report and its steps. *)
Definition upload_run `{Ingestion} (input : FileUploadTool.Input)
    (pgVector : bool) (out : FileUploadTool.Output) (steps : list Step)
  : Prop :=
  let path := FileUploadTool.filePath input in
  let kind := upload_kind input in
  (steps = [StExists path false] ∧
   out = FileUploadTool.mkOutput false 0 0 0 ("File not found: " +:+ path)) ∨
  (∃ m, steps = [StExists path true; StRead path (Throw m)] ∧
        out = upload_failed m) ∨
  (∃ content m,
     steps = [StExists path true; StRead path (Ok content);
              StChunk kind content
                      (default 512%Q (FileUploadTool.chunkSize input))
                      (default 50%Q (FileUploadTool.overlap input))
                      (Throw m)] ∧
     out = upload_failed m) ∨
  (∃ content chunks,
     (∃ m, steps = chunked_steps input kind content chunks
                   ++ [StEmbed chunks (Throw m)] ∧
           out = upload_failed m) ∨
     (∃ embeddings,
        pgVector = false ∧
        steps = chunked_steps input kind content chunks
                ++ [StEmbed chunks (Ok embeddings)] ∧
        out = FileUploadTool.mkOutput false (length chunks)
                (length embeddings)
                (length (FileUploadTool.allEntities chunks))
                "Vector store not found") ∨
     (∃ embeddings index m,
        pgVector = true ∧
        steps = chunked_steps input kind content chunks
                ++ [StEmbed chunks (Ok embeddings); StCreateIndex index;
                    StUpsert (upload_request input kind chunks embeddings)
                             (Throw m)] ∧
        out = upload_failed m) ∨
     (∃ embeddings index,
        pgVector = true ∧
        steps = chunked_steps input kind content chunks
                ++ [StEmbed chunks (Ok embeddings); StCreateIndex index;
                    StUpsert (upload_request input kind chunks embeddings)
                             (Ok tt)] ∧
        out = FileUploadTool.mkOutput true (length chunks)
                (length embeddings)
                (length (FileUploadTool.allEntities chunks))
                ("Successfully uploaded " +:+ path
                 +:+ " to knowledge base"))).

(** A step that threw [m], the creation of the index apart. *)
Definition threw (m : string) (st : Step) : Prop :=
  match st with
  | StRead _ reply => reply = Throw m
  | StChunk _ _ _ _ reply => reply = Throw m
  | StEmbed _ reply => reply = Throw m
  | StUpsert _ reply => reply = Throw m
  | _ => False
  end.

(** A file system with the one file notes.MD, a chunker that makes one
    chunk of a content, and a store whose index exists already, so that
    creating it fails. *)
Definition existing_index : @Ingestion Inputs.empty_store :=
  {| fs_existsSync := λ path (w : @World Inputs.empty_store),
       (String.eqb path "notes.MD", w);
     fs_readFileSync := λ path (w : @World Inputs.empty_store),
       (Ok "Riverdale Heights population", w);
     path_extname := λ _, ".MD";
     rt_chunk := λ _ content _ _ (w : @World Inputs.empty_store),
       (Ok [content], w);
     rt_createIndex := λ (w : @World Inputs.empty_store),
       (Throw "relation already exists", w) |}.

(** * Properties *)

(** ** Numbers *)

Lemma Qgtb_lt (a b : Q) : Qgtb a b = true ↔ (b < a)%Q.
Proof.
  unfold Qgtb. rewrite negb_true_iff. split.
  - intros Hle. apply Qnot_le_lt. intros Hab.
    apply Qle_bool_iff in Hab. congruence.
  - intros Hlt. destruct (Qle_bool a b) eqn:E; [|done].
    apply Qle_bool_iff in E. exfalso. by apply (Qlt_not_le b a).
Qed.

Lemma Qgtb_le (a b : Q) : Qgtb a b = false ↔ (a <= b)%Q.
Proof.
  unfold Qgtb. rewrite negb_false_iff. apply Qle_bool_iff.
Qed.

(** ** Sufficiency gate *)

(** C2. The gate answers true exactly when the list is not empty and some
    candidate has a score above 0.7, a missing score counting as 0; it is
    false on the empty list and on an absent list, true on one candidate of
    score 0.71, false on scores 0.5 and 0.69. *)
Theorem sufficiency_gate_policy :
  (∀ l : list Candidate,
     hasSufficientLocalResults (Some l) = true ↔
     l ≠ [] ∧ ∃ c, c ∈ l ∧ (7 # 10 < default 0 (r_score c))%Q) ∧
  hasSufficientLocalResults (Some []) = false ∧
  hasSufficientLocalResults None = false ∧
  (∀ i m, hasSufficientLocalResults (Some [mkCandidate i None m]) = false) ∧
  (∀ i m, hasSufficientLocalResults
            (Some [mkCandidate i (Some (71 # 100)) m]) = true) ∧
  (∀ i m j n, hasSufficientLocalResults
                (Some [mkCandidate i (Some (5 # 10)) m;
                       mkCandidate j (Some (69 # 100)) n]) = false).
Proof.
  split; [|by repeat split].
  intros l. unfold hasSufficientLocalResults.
  rewrite andb_true_iff, bool_decide_eq_true, existsb_exists. split.
  - intros [Hlen (c & Hin & Hc)]. split.
    + intros ->. simpl in Hlen. lia.
    + exists c. split; [by apply list_elem_of_In|]. by apply Qgtb_lt.
  - intros [Hne (c & Hin & Hc)]. split.
    + destruct l; [done | simpl; lia].
    + exists c. split; [by apply list_elem_of_In|]. by apply Qgtb_lt.
Qed.

(** ** Deduplication *)

Lemma dedupe_from_ids (seen : gset string) (l : list Candidate) (c : Candidate) :
  c ∈ dedupe_from seen l → (r_id c ∉ seen) ∧ c ∈ l.
Proof.
  revert seen. induction l as [|x l IH]; intros seen; simpl.
  - by intros ?%elem_of_nil.
  - case_bool_decide as Hx.
    + intros [? ?]%IH. split; [done | by right].
    + intros [->|Hc]%elem_of_cons; [split; [done | by left]|].
      apply IH in Hc as [Hc ?]. split; [set_solver | by right].
Qed.

Lemma dedupe_from_NoDup (seen : gset string) (l : list Candidate) :
  NoDup (map r_id (dedupe_from seen l)).
Proof.
  revert seen. induction l as [|x l IH]; intros seen; simpl.
  - constructor.
  - case_bool_decide as Hx; [apply IH|].
    simpl. constructor; [|apply IH].
    intros (c & Hid & Hc)%list_elem_of_fmap_1.
    apply dedupe_from_ids in Hc as [Hc _]. set_solver.
Qed.




(** ** Strings *)

Lemma str_app_cons (c : ascii) (s t : string) :
  String c s +:+ t = String c (s +:+ t).
Proof. reflexivity. Qed.

Lemma str_app_nil_l (s : string) : EmptyString +:+ s = s.
Proof. reflexivity. Qed.

Lemma str_app_nil_r (s : string) : s +:+ EmptyString = s.
Proof. induction s as [|c s IH]; [done|]. by rewrite str_app_cons, IH. Qed.

Lemma str_app_assoc (s t u : string) : (s +:+ t) +:+ u = s +:+ (t +:+ u).
Proof. induction s as [|c s IH]; [done|]. by rewrite !str_app_cons, IH. Qed.

Lemma str_length_app (s t : string) :
  String.length (s +:+ t) = String.length s + String.length t.
Proof. induction s as [|c s IH]; [done|]. rewrite str_app_cons. simpl. lia. Qed.

Lemma len_app (s t : string) : Js.len (s +:+ t) = (Js.len s + Js.len t)%Z.
Proof. unfold Js.len. rewrite str_length_app. lia. Qed.

Lemma ends_with_space_cons (c : ascii) (pre : string) :
  (pre = EmptyString → Js.is_space c = true) →
  (pre ≠ EmptyString → Js.ends_with_space pre = true) →
  Js.ends_with_space (String c pre) = true.
Proof. destruct pre; simpl; intros H1 H2; [by apply H1 | by apply H2]. Qed.

Lemma later_token_is_token (s w : string) : later_token s w → Js.is_token s w.
Proof. intros (pre & post & ? & ? & ? & ?). exists pre, post. auto. Qed.

Lemma token_after_space (c : ascii) (s w : string) :
  Js.is_space c = true → Js.is_token s w → later_token (String c s) w.
Proof.
  intros Hc (pre & post & -> & Hw & Hpre & Hpost).
  exists (String c pre), post. repeat split; [done| |done].
  apply ends_with_space_cons; [done|]. intros Hne. by destruct Hpre.
Qed.

Lemma later_token_cons (c : ascii) (s w : string) :
  later_token s w → later_token (String c s) w.
Proof.
  intros (pre & post & -> & Hw & Hpre & Hpost).
  exists (String c pre), post. repeat split; [done| |done].
  apply ends_with_space_cons; [|done]. intros ->. done.
Qed.

Lemma split_aux_tokens (s : string) :
  (∃ t ts post,
     Js.split_aux false s = t :: ts ∧ s = t +:+ post ∧
     Js.no_space t = true ∧
     (post = EmptyString ∨ Js.starts_with_space post = true) ∧
     ∀ w, w ∈ ts → later_token s w) ∧
  (∀ w, w ∈ Js.split_aux true s → Js.is_token s w).
Proof.
  induction s as [|c s [(t & ts & post & Hsplit & Hs & Ht & Hpost & Hts) IHb]].
  - split.
    + exists EmptyString, [], EmptyString. repeat split; auto.
      by intros w ?%elem_of_nil.
    + simpl. intros w ->%list_elem_of_singleton.
      exists EmptyString, EmptyString. repeat split; auto.
  - simpl. destruct (Js.is_space c) eqn:Hc.
    + split.
      * exists EmptyString, (Js.split_aux true s), (String c s).
        repeat split; [by right|].
        intros w Hw. apply token_after_space; auto.
      * intros w Hw. apply later_token_is_token, token_after_space; auto.
    + rewrite Hsplit.
      assert (Js.is_token (String c s) (String c t)) as Hhead.
      { exists EmptyString, post. rewrite str_app_nil_l, str_app_cons, <-Hs.
        repeat split; [|by left|done]. simpl. by rewrite Hc, Ht. }
      split.
      * exists (String c t), ts, post. rewrite str_app_cons, <-Hs.
        repeat split; [|done|].
        -- simpl. by rewrite Hc, Ht.
        -- intros w Hw. by apply later_token_cons, Hts.
      * intros w [->|Hw]%elem_of_cons; [done|].
        by apply later_token_is_token, later_token_cons, Hts.
Qed.

Lemma split_ws_tokens (s w : string) : w ∈ Js.split_ws s → Js.is_token s w.
Proof.
  unfold Js.split_ws.
  destruct (split_aux_tokens s)
    as [(t & ts & post & Hsplit & Hs & Ht & Hpost & Hts) _].
  rewrite Hsplit. intros [->|Hw]%elem_of_cons.
  - exists EmptyString, post. rewrite str_app_nil_l. auto.
  - by apply later_token_is_token, Hts.
Qed.

(** ** Entity extraction *)

Lemma lower_char_not_upper (c : ascii) : Js.is_upper (Js.lower_char c) = false.
Proof. by destruct c as [[] [] [] [] [] [] [] []]. Qed.

Lemma toLowerCase_no_upper (s : string) : no_upper (Js.toLowerCase s) = true.
Proof.
  induction s as [|c s IH]; [done|]. simpl.
  by rewrite lower_char_not_upper, IH.
Qed.

Lemma no_upper_app (s t : string) :
  no_upper (s +:+ t) = no_upper s && no_upper t.
Proof.
  induction s as [|c s IH]; [done|]. rewrite str_app_cons. simpl.
  rewrite IH. by rewrite andb_assoc.
Qed.

Lemma letters_no_upper_lower (w : string) :
  Js.all_letters w = true → no_upper w = true → all_lower w = true.
Proof.
  induction w as [|c w IH]; [done|]. simpl.
  rewrite !andb_true_iff. intros [Hc Hw] [Hu Hn]. split; [|auto].
  unfold Js.is_letter in Hc. destruct (Js.is_upper c); [done|]. done.
Qed.

Lemma test_letters_all (w : string) :
  Js.test_letters w = true → Js.all_letters w = true.
Proof. by destruct w. Qed.

Lemma potentialEntities_spec (text e : string) :
  e ∈ potentialEntities text →
  Js.is_token (Js.toLowerCase text) e ∧ 3 < String.length e ∧
  all_lower e = true.
Proof.
  unfold potentialEntities. rewrite list_elem_of_filter.
  intros [[Hlen Hletters]%andb_true_iff Hin].
  apply split_ws_tokens in Hin. split; [done|].
  split; [by apply Nat.ltb_lt|].
  apply letters_no_upper_lower; [by apply test_letters_all|].
  destruct Hin as (pre & post & Heq & _).
  pose proof (toLowerCase_no_upper text) as Hno.
  rewrite Heq, !no_upper_app, !andb_true_iff in Hno. tauto.
Qed.

Lemma foldl_set_add (acc l : list string) (e : string) :
  e ∈ foldl set_add acc l ↔ e ∈ acc ∨ e ∈ l.
Proof.
  revert acc. induction l as [|x l IH]; intros acc; simpl.
  - rewrite elem_of_nil. tauto.
  - rewrite IH, elem_of_cons. unfold set_add.
    case_bool_decide as Hx.
    + split; [tauto|]. intros [?|[->|?]]; auto.
    + rewrite elem_of_app, list_elem_of_singleton. tauto.
Qed.

Lemma extractEntities_spec (query : string) (results : list Candidate)
    (e : string) :
  e ∈ extractEntities query results ↔
  e ∈ potentialEntities query ∨ ∃ r, r ∈ results ∧ e ∈ entities_of r.
Proof.
  unfold extractEntities.
  assert (∀ acc,
    e ∈ foldl (λ entities result, foldl set_add entities (entities_of result))
              acc results ↔
    e ∈ acc ∨ ∃ r, r ∈ results ∧ e ∈ entities_of r) as Hfold.
  { induction results as [|x l IH]; intros acc; simpl.
    - split; [tauto|]. intros [?|(r & ?%elem_of_nil & _)]; done.
    - rewrite IH, foldl_set_add. split.
      + intros [[?|?]|(r & ? & ?)]; [by left | right | right].
        * exists x. split; [by left | done].
        * exists r. split; [by right | done].
      + intros [?|(r & Hr & ?)]; [by left; left|].
        apply elem_of_cons in Hr as [->|?]; [by left; right|].
        right. by exists r. }
  rewrite Hfold, foldl_set_add, elem_of_nil. tauto.
Qed.

Lemma foldl_push_entity (acc : list string) (l : list string) (e : string) :
  e ∈ foldl FileUpload.push_entity acc l →
  e ∈ acc ∨ (e ∈ l ∧ e ∉ FileUpload.commonWords).
Proof.
  revert acc. induction l as [|x l IH]; intros acc; simpl; [by left|].
  intros [Hacc|[Hl Hc]]%IH.
  - unfold FileUpload.push_entity in Hacc.
    destruct (negb (Js.includes FileUpload.commonWords x)) eqn:Hx;
      simpl in Hacc; [|by left].
    destruct (negb (Js.includes acc x)); simpl in Hacc; [|by left].
    apply elem_of_app in Hacc as [?|He]; [by left|].
    apply list_elem_of_singleton in He as ->.
    right. split; [by left|].
    apply negb_true_iff in Hx. unfold Js.includes in Hx.
    by apply bool_decide_eq_false in Hx.
  - right. split; [by right | done].
Qed.

Lemma extractSimpleEntities_spec (text e : string) :
  e ∈ FileUpload.extractSimpleEntities text →
  e ∈ potentialEntities text ∧ e ∉ FileUpload.commonWords.
Proof.
  unfold FileUpload.extractSimpleEntities.
  intros Hin. eapply elem_of_sublist in Hin; [|apply sublist_take].
  apply foldl_push_entity in Hin as [?%elem_of_nil|?]; done.
Qed.

(** C8 (as the code has it). Every entity that either extractor derives from
    the text is a piece of the lower-cased text between runs of white space,
    longer than 3 and made of the letters a..z only.  At ingestion time it
    is, moreover, outside the stop-word list of the upload tool.  The
    query-time extractor has no stop-word list: the stop words of the
    retrieval tool are skipped later, by the entity-expansion search. *)
Theorem extracted_entities_are_filtered_tokens (text e : string) :
  (e ∈ extractEntities text [] →
     Js.is_token (Js.toLowerCase text) e ∧ 3 < String.length e ∧
     all_lower e = true) ∧
  (e ∈ FileUpload.extractSimpleEntities text →
     Js.is_token (Js.toLowerCase text) e ∧ 3 < String.length e ∧
     all_lower e = true ∧ e ∉ FileUpload.commonWords).
Proof.
  split.
  - intros [Hin|(r & ?%elem_of_nil & _)]%extractEntities_spec; [|done].
    by apply potentialEntities_spec.
  - intros [Hin Hstop]%extractSimpleEntities_spec.
    apply potentialEntities_spec in Hin. tauto.
Qed.

Lemma extracted_entities_witness :
  Js.is_token (Js.toLowerCase "Deal with Riverdale") "riverdale" ∧
  3 < String.length "riverdale" ∧ all_lower "riverdale" = true ∧
  "riverdale" ∉ FileUpload.commonWords.
Proof.
  apply (extracted_entities_are_filtered_tokens
           "Deal with Riverdale" "riverdale").
  vm_compute. set_solver.
Defined.

(** C8, as stated, fails at query time: the word with comes out of the
    query-time extractor although it is a stop word of the retrieval tool. *)
Lemma query_extractor_keeps_stop_word :
  "with" ∈ extractEntities "deal with it" [] ∧ "with" ∈ commonWords.
Proof. split; [vm_compute|unfold commonWords]; set_solver. Qed.

(** ** Context assembly *)

Lemma length_take_str (n : nat) (s : string) :
  String.length (Js.take_str n s) ≤ n.
Proof.
  revert s. induction n as [|n IH]; intros [|c s]; simpl; try lia.
  specialize (IH s). lia.
Qed.

Lemma len_nonneg (s : string) : (0 ≤ Js.len s)%Z.
Proof. unfold Js.len. lia. Qed.

Lemma len_empty : Js.len EmptyString = 0%Z.
Proof. reflexivity. Qed.

Lemma len_nl2 : Js.len nl2 = 2%Z.
Proof. reflexivity. Qed.

Lemma len_dots : Js.len "..." = 3%Z.
Proof. reflexivity. Qed.

Lemma len_take_str (n : nat) (s : string) :
  (Js.len (Js.take_str n s) ≤ Z.of_nat n)%Z.
Proof. unfold Js.len. pose proof (length_take_str n s). lia. Qed.

Lemma assembly_inv_bounds (a : Assembly) :
  assembly_inv a →
  (Js.len (relevantTexts a) ≤
   maxContextLength + 2 * (Z.of_nat maxResults - 1))%Z ∧
  length (pieces a) ≤ maxResults.
Proof.
  unfold assembly_inv, maxContextLength, maxResults.
  intros (Hcl & Hac & Hp & [->|Hlen]); (split; [|lia]).
  - rewrite len_empty. lia.
  - lia.
Qed.

Lemma assemble_loop_bounds (entities : list string)
    (results : list Candidate) (a : Assembly) :
  assembly_inv a →
  (Js.len (relevantTexts (assemble_loop entities a results)) ≤
   maxContextLength + 2 * (Z.of_nat maxResults - 1))%Z ∧
  length (pieces (assemble_loop entities a results)) ≤ maxResults.
Proof.
  revert a. induction results as [|result rest IH]; intros a Ha; simpl.
  - by apply assembly_inv_bounds.
  - case_bool_decide as Hfull; [by apply assembly_inv_bounds|].
    destruct (truthy_text result) as [text|]; [|by apply IH].
    case_bool_decide as Hshort; [by apply IH|].
    destruct (hasRelevantContent entities text); simpl; [|by apply IH].
    destruct Ha as (Hcl & Hac & Hp & Hlen).
    pose proof (len_nonneg text) as Htext.
    pose proof (len_nonneg (relevantTexts a)) as Hold.
    case_bool_decide as Hover.
    + case_bool_decide as Hroom; [|by apply assembly_inv_bounds].
      unfold append_piece; simpl. rewrite length_app. simpl.
      split; [|lia].
      rewrite !len_app, len_nl2, len_dots.
      pose proof (len_take_str
        (Z.to_nat (maxContextLength - currentLength a - 200)) text) as Htake.
      unfold maxContextLength, maxResults in *.
      destruct Hlen as [Hlen|Hlen]; [rewrite Hlen, len_empty|]; lia.
    + apply IH. unfold assembly_inv, append_piece; simpl.
      rewrite length_app. simpl.
      unfold maxContextLength, maxResults in *.
      repeat split; try lia.
      right. rewrite !len_app.
      destruct (relevantTexts a) eqn:Htexts.
      * rewrite !len_empty. lia.
      * rewrite len_nl2. destruct Hlen as [Hlen|Hlen]; [done | lia].
Qed.

(** What holds of every input: the context never exceeds [maxContextLength]
    by more than the separators between [maxResults] pieces, and at most
    [maxResults] pieces go into it. *)
Lemma assemble_bounds (unique : list Candidate) (entities : list string) :
  (Js.len (relevantTexts (assemble unique entities)) ≤ 6028)%Z ∧
  length (pieces (assemble unique entities)) ≤ 15.
Proof.
  apply (assemble_loop_bounds entities unique assembly_start).
  unfold assembly_inv, assembly_start, maxContextLength, maxResults; simpl.
  repeat split; try lia. by left.
Qed.

Lemma concat_str_app (l1 l2 : list string) :
  concat_str (l1 ++ l2) = concat_str l1 +:+ concat_str l2.
Proof.
  induction l1 as [|x l1 IH]; [done|]. simpl.
  by rewrite IH, str_app_assoc.
Qed.

Lemma assemble_loop_pieces (entities : list string)
    (results : list Candidate) (a : Assembly) :
  relevantTexts a = concat_str (pieces a) →
  ∃ used added,
    used `sublist_of` results ∧
    Forall2 piece_of used added ∧
    pieces (assemble_loop entities a results) = pieces a ++ added ∧
    relevantTexts (assemble_loop entities a results)
    = concat_str (pieces (assemble_loop entities a results)).
Proof.
  revert a. induction results as [|result rest IH]; intros a Ha; simpl.
  { exists [], []. by rewrite app_nil_r. }
  assert (∃ used added,
            used `sublist_of` result :: rest ∧ Forall2 piece_of used added ∧
            pieces (assemble_loop entities a rest) = pieces a ++ added ∧
            relevantTexts (assemble_loop entities a rest)
            = concat_str (pieces (assemble_loop entities a rest))) as Hskip.
  { destruct (IH a Ha) as (used & added & Hsub & Hall & Hp & Ht).
    exists used, added. split; [by apply sublist_cons | done]. }
  case_bool_decide as Hfull.
  { exists [], []. rewrite app_nil_r.
    repeat split; [apply sublist_nil_l | constructor | done]. }
  destruct (truthy_text result) as [text|] eqn:Htext; [|exact Hskip].
  case_bool_decide as Hshort; [exact Hskip|].
  destruct (hasRelevantContent entities text); simpl; [|exact Hskip].
  case_bool_decide as Hover.
  - case_bool_decide as Hroom.
    + exists [result],
             [nl2 +:+ Js.take_str
                (Z.to_nat (maxContextLength - currentLength a - 200)) text
              +:+ "..."]. simpl.
      split; [apply sublist_skip, sublist_nil_l|].
      split; [|split; [done|]].
      * constructor; [|constructor]. exists text. split; [done|].
        right. right. by eexists.
      * rewrite concat_str_app, <-Ha. simpl. by rewrite str_app_nil_r.
    + exists [], []. rewrite app_nil_r.
      repeat split; [apply sublist_nil_l | constructor | done].
  - destruct (IH (append_piece a
               ((match relevantTexts a with
                 | EmptyString => EmptyString
                 | _ => nl2
                 end) +:+ text) (Js.len text) 1))
      as (used & added & Hsub & Hall & Hp & Ht).
    { simpl. rewrite concat_str_app, <-Ha. simpl. by rewrite str_app_nil_r. }
    exists (result :: used),
           (((match relevantTexts a with
              | EmptyString => EmptyString
              | _ => nl2
              end) +:+ text) :: added).
    split; [by apply sublist_skip|]. split; [|split; [|done]].
    + constructor; [|done]. exists text. split; [done|].
      destruct (relevantTexts a); [by left | by right; left].
    + rewrite Hp. simpl. by rewrite <-app_assoc.
Qed.

(** The context is the pieces put end to end, and each piece comes from one
    candidate of the list, in the order of the list. *)
Lemma assemble_pieces (unique : list Candidate) (entities : list string) :
  ∃ used,
    used `sublist_of` unique ∧
    Forall2 piece_of used (pieces (assemble unique entities)) ∧
    relevantTexts (assemble unique entities)
    = concat_str (pieces (assemble unique entities)).
Proof.
  destruct (assemble_loop_pieces entities unique assembly_start eq_refl)
    as (used & added & Hsub & Hall & Hp & Ht).
  exists used. unfold assemble. rewrite Ht, Hp. done.
Qed.

(** C1, at a failing input. Fifteen distinct candidates of equal score carry
    400 code units of text each; the loop accepts all of them, counts 6000
    code units, and returns a context of 6028 code units: the fourteen
    separators are not counted against [maxContextLength]. *)
Theorem context_exceeds_maxContextLength :
  uniqueResults Inputs.crowded = Inputs.crowded ∧
  currentLength (assemble Inputs.crowded ["data"]) = 6000%Z ∧
  addedCount (assemble Inputs.crowded ["data"]) = 15 ∧
  Js.len (relevantTexts (assemble Inputs.crowded ["data"])) = 6028%Z ∧
  (Js.len (relevantTexts (assemble Inputs.crowded ["data"]))
   > maxContextLength)%Z.
Proof. by vm_compute. Qed.

(** ** Reasoning about the tools *)

Section Rules.
Context `{Runtime}.
Context {L : Type}.

Lemma spec_weaken {A} (m : M L A) (P P' : L → Res A → L → list Event → Prop) :
  spec m P → (∀ l r l' new, P l r l' new → P' l r l' new) → spec m P'.
Proof.
  intros Hm Himp l s. destruct (Hm l s) as (r & l' & s' & new & ? & ? & ?).
  exists r, l', s', new. auto.
Qed.

Lemma spec_ret {A} (a : A) :
  spec (ret a : M L A) (λ l r l' new, r = Ok a ∧ l' = l ∧ new = []).
Proof. intros l s. exists (Ok a), l, s, []. by rewrite app_nil_r. Qed.

Lemma spec_throw {A} (message : string) :
  spec (throw message : M L A)
       (λ l r l' new, r = Throw message ∧ l' = l ∧ new = []).
Proof. intros l s. exists (Throw message), l, s, []. by rewrite app_nil_r. Qed.

Lemma spec_lift_res {A} (res : Res A) :
  spec (lift_res res : M L A) (λ l r l' new, r = res ∧ l' = l ∧ new = []).
Proof. intros l s. exists res, l, s, []. by rewrite app_nil_r. Qed.

Lemma spec_get :
  spec (get : M L L) (λ l r l' new, r = Ok l ∧ l' = l ∧ new = []).
Proof. intros l s. exists (Ok l), l, s, []. by rewrite app_nil_r. Qed.

Lemma spec_modify (f : L → L) :
  spec (modify f) (λ l r l' new, r = Ok tt ∧ l' = f l ∧ new = []).
Proof. intros l s. exists (Ok tt), (f l), s, []. by rewrite app_nil_r. Qed.

Lemma spec_external {A} (f : World → Res A * World) (event : Res A → Event) :
  spec (external f event : M L A) (λ l r l' new, l' = l ∧ new = [event r]).
Proof.
  intros l s. unfold external. destruct (f (world s)) as [r w].
  exists r, l, (mkSys w (calls s ++ [event r])), [event r]. done.
Qed.

Lemma spec_ambient {A} (f : World → A * World) :
  spec (ambient f : M L A)
       (λ l r l' new, (∃ a, r = Ok a) ∧ l' = l ∧ new = []).
Proof.
  intros l s. unfold ambient. destruct (f (world s)) as [a w].
  exists (Ok a), l, (mkSys w (calls s)), []. simpl.
  rewrite app_nil_r. split; [done|]. split; [done|]. eauto.
Qed.

Lemma spec_bind {A B} (m : M L A) (k : A → M L B) P Q :
  spec m P → (∀ a, spec (k a) (Q a)) → spec (bind m k) (seq_post P Q).
Proof.
  intros Hm Hk l s. unfold bind.
  destruct (Hm l s) as (r & l' & s' & n1 & -> & Hcalls & HP).
  destruct r as [a|message].
  - destruct (Hk a l' s') as (r & l'' & s'' & n2 & -> & Hcalls' & HQ).
    exists r, l'', s'', (n1 ++ n2). split; [done|]. split.
    + by rewrite Hcalls', Hcalls, app_assoc.
    + right. by exists a, l', n1, n2.
  - exists (Throw message), l', s', n1. split; [done|]. split; [done|].
    left. by exists message.
Qed.

Lemma spec_try_catch {A} (m : M L A) (handler : string → M L A) P Q :
  spec m P → (∀ message, spec (handler message) (Q message)) →
  spec (try_catch m handler) (catch_post P Q).
Proof.
  intros Hm Hh l s. unfold try_catch.
  destruct (Hm l s) as (r & l' & s' & n1 & -> & Hcalls & HP).
  destruct r as [a|message].
  - exists (Ok a), l', s', n1. split; [done|]. split; [done|].
    left. by exists a.
  - destruct (Hh message l' s') as (r & l'' & s'' & n2 & -> & Hcalls' & HQ).
    exists r, l'', s'', (n1 ++ n2). split; [done|]. split.
    + by rewrite Hcalls', Hcalls, app_assoc.
    + right. by exists message, l', n1, n2.
Qed.

Lemma spec_call {F A} (frame : F) (m : M F A) P :
  spec m P →
  spec (call frame m : M L A)
       (λ l r l' new, l' = l ∧ ∃ frame', P frame r frame' new).
Proof.
  intros Hm l s. unfold call.
  destruct (Hm frame s) as (r & frame' & s' & new & -> & Hcalls & HP).
  exists r, l, s', new. eauto.
Qed.

(** A loop keeps [I] as long as its body does; [I] relates the items
    gone through, the local variables at the start, those reached and the
    calls made so far. *)
Lemma spec_for_each {A} (items : list A) (body : A → M L unit)
    (I : list A → L → L → list Event → Prop) :
  (∀ l, I [] l l []) →
  (∀ past x, past ++ [x] `prefix_of` items →
     spec (body x) (λ l r l' new,
       ∀ l0 n0, I past l0 l n0 → I (past ++ [x]) l0 l' (n0 ++ new))) →
  spec (for_each items body)
       (λ l r l' new, ∃ past, past `prefix_of` items ∧ I past l l' new ∧
                              (r = Ok tt → past = items)).
Proof.
  intros Hstart Hbody.
  assert (∀ rest past, past ++ rest = items →
    spec (for_each rest body)
         (λ l r l' new, ∀ l0 n0, I past l0 l n0 →
            ∃ past', past' `prefix_of` items ∧ I past' l0 l' (n0 ++ new) ∧
                     (r = Ok tt → past' = items))) as Hloop.
  { induction rest as [|x rest IH]; intros past Hitems; simpl.
    - eapply spec_weaken; [apply spec_ret|].
      intros l r l' new (Hr & Hl & Hnew) l0 n0 HI. subst r l' new.
      rewrite app_nil_r in Hitems. subst items.
      exists past. rewrite app_nil_r. done.
    - eapply spec_weaken.
      + apply spec_bind; [apply (Hbody past x)|].
        * exists rest. by rewrite <-app_assoc.
        * intros u. apply (IH (past ++ [x])). by rewrite <-app_assoc.
      + simpl. intros l r l'' new [(message & -> & HP)|Hok] l0 n0 HI.
        * exists (past ++ [x]). split; [|split; [by apply HP | done]].
          exists rest. by rewrite <-app_assoc.
        * destruct Hok as (a & l' & n1 & n2 & HP & HQ & ->).
          rewrite app_assoc. apply HQ. by apply HP. }
  eapply spec_weaken; [apply (Hloop items []); done|].
  simpl. intros l r l' new HQ. apply (HQ l []). apply Hstart.
Qed.

End Rules.

(** ** Entity-expansion search *)

Lemma query_count_app (n1 n2 : list Event) :
  query_count (n1 ++ n2) = query_count n1 + query_count n2.
Proof.
  induction n1 as [|e n1 IH]; [done|]. destruct e; simpl; rewrite IH; lia.
Qed.

Lemma expansion_event_mono (ents ents' : list string) (depth : Q) (e : Event) :
  ents ⊆ ents' → expansion_event ents depth e → expansion_event ents' depth e.
Proof.
  intros Hsub. destruct e; simpl; try done.
  intros (entity & Hin & ->). exists entity. split; [by apply Hsub | done].
Qed.

Lemma expanded_from_mono (initialResults : list Candidate) (depth : Q)
    (ents ents' : list string) (n0 new n1 : list Event) (c : Candidate) :
  ents ⊆ ents' →
  expanded_from initialResults depth ents new c →
  expanded_from initialResults depth ents' (n0 ++ new ++ n1) c.
Proof.
  intros Hsub (entity & embeddings & hits & hit & raw & before & after &
               Hin & -> & Hrest).
  exists entity, embeddings, hits, hit, raw, (n0 ++ before), (after ++ n1).
  split; [by apply Hsub|]. split; [|done].
  by rewrite <-!app_assoc.
Qed.

Lemma found_in_false (initialResults : list Candidate) (hit : Candidate) :
  found_in initialResults hit = false → (r_id hit ∉ map r_id initialResults).
Proof.
  unfold found_in. intros Hnot (x & Hid & Hx)%list_elem_of_fmap_1.
  assert (existsb (λ initial, bool_decide (r_id initial = r_id hit))
                  initialResults = true) as Hex; [|congruence].
  apply existsb_exists. exists x. split; [by apply list_elem_of_In|].
  by apply bool_decide_eq_true.
Qed.

Lemma kept_expanded (initialResults : list Candidate) (depth : Q)
    (entity : string) (embeddings : list Embedding)
    (hits : list Candidate) (hit c : Candidate) :
  hit ∈ hits → kept initialResults entity hit c →
  expanded_from initialResults depth [entity]
    [EvEmbed [entity] (Ok embeddings);
     EvQuery (head embeddings) (Qmin 5 (depth * 2)) (Ok (Some hits))] c.
Proof.
  intros Hhit (-> & Hnew & Hscore).
  destruct (r_score hit) as [raw|] eqn:Hraw; [|done].
  exists entity, embeddings, hits, hit, raw, [], [].
  split; [by apply list_elem_of_singleton|]. split; [done|].
  split; [done|]. split; [done|].
  split; [by apply found_in_false|]. split; [done|].
  split; [by apply Qgtb_lt|]. simpl. rewrite Hraw. split; [done|].
  split; [|by apply lookup_insert_eq].
  rewrite lookup_insert_ne by done. by apply lookup_insert_eq.
Qed.

Section EntitySearch.
Context `{Runtime}.

Lemma spec_add_related (initialResults : list Candidate) (entity : string)
    (hits : list Candidate) :
  spec (for_each hits (add_related initialResults entity))
       (λ l r l' new,
          new = [] ∧ ∃ added, l' = l ++ added ∧
          ∀ c, c ∈ added → ∃ hit, hit ∈ hits ∧ kept initialResults entity hit c).
Proof.
  eapply spec_weaken.
  - apply (spec_for_each hits (add_related initialResults entity)
      (λ past l0 l n, n = [] ∧ ∃ added, l = l0 ++ added ∧
         ∀ c, c ∈ added →
              ∃ hit, hit ∈ past ∧ kept initialResults entity hit c)).
    + intros l. split; [done|]. exists []. rewrite app_nil_r.
      split; [done|]. by intros c ?%elem_of_nil.
    + intros past hit _. unfold add_related.
      destruct (negb (found_in initialResults hit) &&
                score_gt (r_score hit) (7 # 10)) eqn:Hkeep.
      * eapply spec_weaken; [apply spec_modify|]. simpl.
        intros l r l' new (-> & -> & ->) l0 n0 (-> & added & -> & Hadded).
        split; [done|]. exists (added ++ [related entity hit]).
        split; [by rewrite app_assoc|].
        intros c [Hc|Hc]%elem_of_app.
        -- destruct (Hadded c Hc) as (h & Hh & Hk). exists h.
           split; [apply elem_of_app; by left | done].
        -- apply list_elem_of_singleton in Hc as ->. exists hit.
           split; [apply elem_of_app; right; by apply list_elem_of_singleton|].
           apply andb_true_iff in Hkeep as [Hf Hs].
           apply negb_true_iff in Hf. done.
      * eapply spec_weaken; [apply spec_ret|]. simpl.
        intros l r l' new (-> & -> & ->) l0 n0 (-> & added & -> & Hadded).
        split; [done|]. exists added. split; [done|].
        intros c Hc. destruct (Hadded c Hc) as (h & Hh & Hk). exists h.
        split; [apply elem_of_app; by left | done].
  - simpl. intros l r l' new (past & Hpre & (-> & added & -> & Hadded) & _).
    split; [done|]. exists added. split; [done|].
    intros c Hc. destruct (Hadded c Hc) as (h & Hh & Hk). exists h.
    split; [|done]. destruct Hpre as [rest ->]. apply elem_of_app. by left.
Qed.

Lemma spec_search_entity (initialResults : list Candidate) (depth : Q)
    (entity : string) :
  spec (search_entity initialResults depth entity)
       (λ l r l' new, entity_post initialResults depth entity l l' new).
Proof.
  unfold search_entity.
  destruct (Js.includes commonWords (Js.toLowerCase entity)).
  { eapply spec_weaken; [apply spec_ret|]. simpl.
    intros l r l' new (-> & -> & ->). exists []. rewrite app_nil_r.
    repeat split; [constructor | simpl; lia |]. by intros c ?%elem_of_nil. }
  eapply spec_weaken.
  - apply spec_bind; [apply spec_external|]. intros embeddings.
    apply spec_bind; [apply spec_external|]. intros entityResults.
    apply (spec_weaken _ (λ l r l' new,
      new = [] ∧ ∃ added, l' = l ++ added ∧
      ∀ c, c ∈ added →
           ∃ hits hit, entityResults = Some hits ∧ hit ∈ hits ∧
                       kept initialResults entity hit c)
      (λ l r l' new,
      new = [] ∧ ∃ added, l' = l ++ added ∧
      ∀ c, c ∈ added →
           ∃ hits hit, entityResults = Some hits ∧ hit ∈ hits ∧
                       kept initialResults entity hit c)); [|done].
    destruct entityResults as [hits|].
    + eapply spec_weaken; [apply spec_add_related|]. simpl.
      intros l r l' new (-> & added & -> & Hadded). split; [done|].
      exists added. split; [done|]. intros c Hc.
      destruct (Hadded c Hc) as (hit & ? & ?). by exists hits, hit.
    + eapply spec_weaken; [apply spec_throw|]. simpl.
      intros l r l' new (-> & -> & ->). split; [done|].
      exists []. rewrite app_nil_r. split; [done|].
      by intros c ?%elem_of_nil.
  - simpl. unfold seq_post, entity_post.
    intros l r l' new [(message & -> & -> & ->)|Hok].
    { exists []. rewrite app_nil_r. repeat split.
      - constructor; [|constructor]. exists entity.
        split; [by apply list_elem_of_singleton | done].
      - simpl. lia.
      - by intros c ?%elem_of_nil. }
    destruct Hok as (embeddings & l1 & n1 & n2 & (-> & ->) & Hrest & ->).
    destruct Hrest as [(message & -> & -> & ->)|Hok].
    { exists []. rewrite app_nil_r. repeat split.
      - constructor; [|constructor; [done | constructor]]. exists entity.
        split; [by apply list_elem_of_singleton | done].
      - simpl. lia.
      - by intros c ?%elem_of_nil. }
    destruct Hok as (er & l2 & n3 & n4 & (-> & ->) & Hloop & ->).
    destruct Hloop as (-> & added & -> & Hadded).
    exists added. repeat split.
    + constructor; [|constructor; [done | constructor]]. exists entity.
      split; [by apply list_elem_of_singleton | done].
    + simpl. lia.
    + intros c Hc. destruct (Hadded c Hc) as (hits & hit & -> & Hhit & Hk).
      by apply (kept_expanded _ _ _ _ hits hit).
Qed.

Lemma spec_search_loop (initialResults : list Candidate) (depth : Q)
    (ents : list string) :
  spec (for_each ents (search_entity initialResults depth))
       (λ l r l' new, ∃ added, l' = l ++ added ∧
          Forall (expansion_event ents depth) new ∧
          query_count new ≤ length ents ∧
          ∀ c, c ∈ added → expanded_from initialResults depth ents new c).
Proof.
  eapply spec_weaken.
  - apply (spec_for_each ents (search_entity initialResults depth)
      (λ past l0 l n, ∃ added, l = l0 ++ added ∧
         Forall (expansion_event past depth) n ∧
         query_count n ≤ length past ∧
         ∀ c, c ∈ added → expanded_from initialResults depth past n c)).
    + intros l. exists []. rewrite app_nil_r.
      repeat split; [constructor | simpl; lia |]. by intros c ?%elem_of_nil.
    + intros past entity _.
      eapply spec_weaken; [apply spec_search_entity|]. simpl.
      intros l r l' new (added & -> & Hev & Hq & Hadded) l0 n0
             (added0 & -> & Hev0 & Hq0 & Hadded0).
      exists (added0 ++ added). split; [by rewrite app_assoc|].
      split; [|split].
      * apply Forall_app. split.
        -- eapply Forall_impl; [exact Hev0|]. intros e.
           apply expansion_event_mono. set_solver.
        -- eapply Forall_impl; [exact Hev|]. intros e.
           apply expansion_event_mono. set_solver.
      * rewrite query_count_app, length_app. simpl. lia.
      * intros c [Hc|Hc]%elem_of_app.
        -- apply (expanded_from_mono _ _ past _ [] n0 new); [set_solver|].
           by apply Hadded0.
        -- rewrite <-(app_nil_r new).
           apply (expanded_from_mono _ _ [entity] _ n0 new []);
             [set_solver|].
           by apply Hadded.
  - simpl. intros l r l' new (past & [rest ->] & Hinv & _).
    destruct Hinv as (added & -> & Hev & Hq & Hadded).
    exists added. split; [done|]. split; [|split].
    + eapply Forall_impl; [exact Hev|]. intros e.
      apply expansion_event_mono. set_solver.
    + rewrite length_app. lia.
    + intros c Hc. rewrite <-(app_nil_r new).
      apply (expanded_from_mono _ _ past _ [] new []); [set_solver|].
      by apply Hadded.
Qed.

Lemma spec_performEntitySearch {L : Type} (entities : list string)
    (initialResults : list Candidate) (depth : Q) :
  spec (performEntitySearch entities initialResults depth
          : M L (list Candidate))
       (search_post entities initialResults depth).
Proof.
  unfold performEntitySearch.
  eapply spec_weaken.
  - apply spec_call. apply spec_bind.
    + apply spec_try_catch; [apply spec_search_loop|].
      intros message. apply spec_ret.
    + intros u. apply spec_get.
  - simpl. unfold search_post, seq_post, catch_post.
    intros l r l' new (-> & frame & Hrun). split; [done|].
    destruct Hrun as [(message & -> & Hcatch)|Hok].
    { destruct Hcatch as [(a & ? & _)|Hthrown]; [done|].
      by destruct Hthrown as (? & ? & ? & ? & _ & (? & _) & _). }
    destruct Hok as (u & l1 & n1 & n2 & Hcatch & (-> & -> & ->) & ->).
    rewrite app_nil_r. exists l1. split; [done|].
    assert (∃ added, l1 = [] ++ added ∧
              Forall (expansion_event (take 3 entities) depth) n1 ∧
              query_count n1 ≤ length (take 3 entities) ∧
              ∀ c, c ∈ added →
                expanded_from initialResults depth (take 3 entities) n1 c)
      as (added & -> & Hev & Hq & Hadded).
    { destruct Hcatch as [(a & _ & Hloop)|Hthrown]; [done|].
      destruct Hthrown as (message & l2 & n3 & n4 & Hloop & (_ & -> & ->) & ->).
      by rewrite app_nil_r. }
    split; [done|]. split; [|done].
    rewrite length_take in Hq. lia.
Qed.

Lemma spec_add_related_exact (initialResults : list Candidate)
    (entity : string) (hits : list Candidate) :
  spec (for_each hits (add_related initialResults entity))
       (λ l r l' new,
          r = Ok tt ∧ new = [] ∧
          l' = l ++ map (related entity)
                        (List.filter (qualifies initialResults) hits)).
Proof.
  induction hits as [|hit hits IH]; simpl.
  - eapply spec_weaken; [apply spec_ret|]. simpl.
    intros l r l' new (-> & -> & ->). by rewrite app_nil_r.
  - eapply spec_weaken.
    + apply spec_bind; [|intros u; apply IH].
      apply (spec_weaken _
        (λ l r l' new, r = Ok tt ∧ new = [] ∧
           l' = l ++ (if qualifies initialResults hit
                      then [related entity hit] else []))
        (λ l r l' new, r = Ok tt ∧ new = [] ∧
           l' = l ++ (if qualifies initialResults hit
                      then [related entity hit] else []))); [|done].
      unfold add_related, qualifies.
      destruct (negb (found_in initialResults hit) &&
                score_gt (r_score hit) (7 # 10)).
      * eapply spec_weaken; [apply spec_modify|]. simpl.
        by intros l r l' new (-> & -> & ->).
      * eapply spec_weaken; [apply spec_ret|]. simpl.
        intros l r l' new (-> & -> & ->). by rewrite app_nil_r.
    + simpl. unfold seq_post.
      intros l r l' new [(message & -> & ? & _)|Hok]; [done|].
      destruct Hok as (u & l1 & n1 & n2 & (_ & -> & ->) & (-> & -> & ->) & ->).
      split; [done|]. split; [done|].
      destruct (qualifies initialResults hit); simpl;
        by rewrite <- ?app_assoc, ?app_nil_r.
Qed.

Lemma spec_search_entity_exact (initialResults : list Candidate) (depth : Q)
    (entity : string) :
  spec (search_entity initialResults depth entity)
       (λ l r l' new,
          if skipped entity then r = Ok tt ∧ new = [] ∧ l' = l
          else
            (∃ message,
               r = Throw message ∧ l' = l ∧
               new = [EvEmbed [entity] (Throw message)]) ∨
            (∃ embeddings reply message,
               r = Throw message ∧ l' = l ∧ no_hits reply ∧
               new = [EvEmbed [entity] (Ok embeddings);
                      EvQuery (head embeddings) (Qmin 5 (depth * 2)) reply]) ∨
            (∃ embeddings hits,
               r = Ok tt ∧
               l' = l ++ map (related entity)
                             (List.filter (qualifies initialResults) hits) ∧
               new = [EvEmbed [entity] (Ok embeddings);
                      EvQuery (head embeddings) (Qmin 5 (depth * 2))
                              (Ok (Some hits))])).
Proof.
  unfold search_entity, skipped.
  destruct (Js.includes commonWords (Js.toLowerCase entity)).
  { eapply spec_weaken; [apply spec_ret|]. simpl.
    by intros l r l' new (-> & -> & ->). }
  eapply spec_weaken.
  - apply spec_bind; [apply spec_external|]. intros embeddings.
    apply spec_bind; [apply spec_external|]. intros entityResults.
    apply (spec_weaken _
      (λ l r l' new, new = [] ∧
         match entityResults with
         | Some hits =>
             r = Ok tt ∧
             l' = l ++ map (related entity)
                           (List.filter (qualifies initialResults) hits)
         | None => (∃ message, r = Throw message) ∧ l' = l
         end)
      (λ l r l' new, new = [] ∧
         match entityResults with
         | Some hits =>
             r = Ok tt ∧
             l' = l ++ map (related entity)
                           (List.filter (qualifies initialResults) hits)
         | None => (∃ message, r = Throw message) ∧ l' = l
         end)); [|done].
    destruct entityResults as [hits|].
    + eapply spec_weaken; [apply spec_add_related_exact|]. simpl.
      by intros l r l' new (-> & -> & ->).
    + eapply spec_weaken; [apply spec_throw|]. simpl.
      intros l r l' new (-> & -> & ->). eauto.
  - simpl. unfold seq_post.
    intros l r l' new [(message & -> & -> & ->)|Hok].
    { left. by exists message. }
    destruct Hok as (embeddings & l1 & n1 & n2 & (-> & ->) & Hrest & ->).
    destruct Hrest as [(message & -> & -> & ->)|Hok].
    { right. left. by exists embeddings, (Throw message), message. }
    destruct Hok as (er & l2 & n3 & n4 & (-> & ->) & (-> & Hloop) & ->).
    destruct er as [hits|].
    + destruct Hloop as (-> & ->). right. right. by exists embeddings, hits.
    + destruct Hloop as ((message & ->) & ->). right. left.
      by exists embeddings, (Ok None), message.
Qed.

Lemma spec_search_loop_exact (initialResults : list Candidate) (depth : Q)
    (ents : list string) :
  spec (for_each ents (search_entity initialResults depth))
       (λ l r l' new,
          ∃ added, l' = l ++ added ∧
                   search_run initialResults depth ents new added).
Proof.
  induction ents as [|entity ents IH]; simpl.
  - eapply spec_weaken; [apply spec_ret|]. simpl.
    intros l r l' new (-> & -> & ->). exists []. by rewrite app_nil_r.
  - eapply spec_weaken.
    + apply spec_bind; [apply spec_search_entity_exact|].
      intros u. apply IH.
    + simpl. unfold seq_post.
      intros l r l' new [(message & -> & Hfirst)|Hok].
      * destruct (skipped entity); [by destruct Hfirst|].
        exists []. rewrite app_nil_r.
        destruct Hfirst as [(m & _ & -> & ->)
                           |[(e & reply & m & _ & -> & Hno & ->)
                            |(e & hits & ? & _)]]; [| |done].
        -- split; [done|]. left. by exists m.
        -- split; [done|]. right. left. by exists e, reply.
      * destruct Hok as (u & l1 & n1 & n2 & Hfirst & (added & -> & Hrest) & ->).
        destruct (skipped entity).
        { destruct Hfirst as (_ & -> & ->). by exists added. }
        destruct Hfirst as [(m & ? & _)|[(e & reply & m & ? & _)
                           |(e & hits & _ & -> & ->)]]; [done..|].
        exists (map (related entity)
                    (List.filter (qualifies initialResults) hits) ++ added).
        split; [by rewrite app_assoc|].
        right. right. by exists e, hits, n2, added.
Qed.

Lemma spec_performEntitySearch_exact {L : Type} (entities : list string)
    (initialResults : list Candidate) (depth : Q) :
  spec (performEntitySearch entities initialResults depth
          : M L (list Candidate))
       (λ l r l' new,
          l' = l ∧ ∃ out, r = Ok out ∧
            search_run initialResults depth (take 3 entities) new out).
Proof.
  unfold performEntitySearch.
  eapply spec_weaken.
  - apply spec_call. apply spec_bind.
    + apply spec_try_catch; [apply spec_search_loop_exact|].
      intros message. apply spec_ret.
    + intros u. apply spec_get.
  - simpl. unfold seq_post, catch_post.
    intros l r l' new (-> & frame & Hrun). split; [done|].
    destruct Hrun as [(message & -> & Hcatch)|Hok].
    { destruct Hcatch as [(a & ? & _)|Hthrown]; [done|].
      by destruct Hthrown as (? & ? & ? & ? & _ & (? & _) & _). }
    destruct Hok as (u & l1 & n1 & n2 & Hcatch & (-> & -> & ->) & ->).
    rewrite app_nil_r. exists l1. split; [done|].
    destruct Hcatch as [(a & _ & added & -> & Hloop)|Hthrown]; [done|].
    destruct Hthrown as (message & l2 & n3 & n4 & (added & -> & Hloop)
                         & (_ & -> & ->) & ->).
    by rewrite app_nil_r.
Qed.

Lemma search_run_hits (initialResults : list Candidate) (depth : Q)
    (ents : list string) (new : list Event) (out : list Candidate)
    (entity : string) (embeddings : list Embedding)
    (queryVector : option Embedding) (topK : Q)
    (hits : list Candidate) (hit : Candidate) (before after : list Event) :
  search_run initialResults depth ents new out →
  new = before ++ [EvEmbed [entity] (Ok embeddings);
                   EvQuery queryVector topK (Ok (Some hits))] ++ after →
  hit ∈ hits → qualifies initialResults hit = true →
  related entity hit ∈ out.
Proof.
  intros Hrun Hnew Hhit Hq. revert new out before Hrun Hnew.
  induction ents as [|e ents IH]; intros new out before; simpl.
  - intros (-> & _) Hnew. by destruct before.
  - destruct (skipped e); [apply IH|].
    intros [(m & -> & _)|[(emb & reply & Hno & -> & _)
           |(emb & hs & new' & out' & -> & -> & Hrest)]] Hnew.
    + apply (f_equal length) in Hnew. rewrite !length_app in Hnew.
      simpl in Hnew. lia.
    + destruct before as [|b1 before].
      * simpl in Hnew. by simplify_eq.
      * apply (f_equal length) in Hnew. rewrite !length_app in Hnew.
        simpl in Hnew. lia.
    + destruct before as [|b1 [|b2 before]].
      * simpl in Hnew. simplify_eq.
        apply elem_of_app. left. apply list_elem_of_fmap.
        exists hit. split; [done|].
        apply list_elem_of_In, filter_In. split; [|done].
        by apply list_elem_of_In.
      * simpl in Hnew. by simplify_eq.
      * simpl in Hnew. injection Hnew as _ _ Hnew.
        apply elem_of_app. right. by apply (IH new' out' before).
Qed.

Lemma search_run_embedded (initialResults : list Candidate) (depth : Q)
    (ents : list string) (new : list Event) (out : list Candidate) :
  search_run initialResults depth ents new out →
  embedded new `prefix_of` filter (λ e, skipped e = false) ents ∧
  (Forall answered new →
   embedded new = filter (λ e, skipped e = false) ents).
Proof.
  revert new out. induction ents as [|e ents IH]; intros new out; simpl.
  - intros (-> & _). done.
  - destruct (skipped e) eqn:Hskip.
    + rewrite filter_cons_False by (by rewrite Hskip). apply IH.
    + rewrite filter_cons_True by done.
      intros [(m & -> & _)|[(emb & reply & Hno & -> & _)
             |(emb & hs & new' & out' & -> & -> & Hrest)]].
      * split; [by eexists|]. intros Hall.
        by apply Forall_cons in Hall as [? _].
      * split; [by eexists|]. intros Hall.
        apply Forall_cons in Hall as [_ Hall].
        by apply Forall_cons in Hall as [? _].
      * destruct (IH _ _ Hrest) as [Hpre Heq]. simpl. split.
        -- by apply prefix_cons.
        -- intros Hall. apply Forall_cons in Hall as [_ Hall].
           apply Forall_cons in Hall as [_ Hall]. by rewrite Heq.
Qed.

Lemma qualifies_iff (initialResults : list Candidate) (hit : Candidate) :
  qualifies initialResults hit = true ↔
  (r_id hit ∉ map r_id initialResults) ∧
  ∃ raw, r_score hit = Some raw ∧ (7 # 10 < raw)%Q.
Proof.
  unfold qualifies. rewrite andb_true_iff, negb_true_iff. split.
  - intros [Hnew Hscore]. split; [by apply found_in_false|].
    destruct (r_score hit) as [raw|]; [|done].
    exists raw. split; [done|]. by apply Qgtb_lt.
  - intros [Hnew (raw & Hraw & Hlt)]. split.
    + unfold found_in. destruct (existsb _ initialResults) eqn:Hex; [|done].
      apply existsb_exists in Hex as (x & Hx & Hid).
      apply bool_decide_eq_true in Hid. exfalso. apply Hnew.
      rewrite <- Hid. apply list_elem_of_fmap. exists x.
      split; [done|]. by apply list_elem_of_In.
    + rewrite Hraw. simpl. by apply Qgtb_lt.
Qed.

(** C3. From every state and for every behaviour of the embedder and of the
    store, the entity-expansion search returns a list and leaves the
    variables of its caller alone.  The calls it makes are embeddings of
    one entity among the first three and queries with [topK] equal to the
    minimum of 5 and twice the depth, at most three queries in all.  Every
    candidate returned comes from a hit of such a query: its id is the id
    of the hit and is not among the initial results, the raw score of the
    hit exceeds 0.7, its score is that raw score times 0.7, and its
    metadata has [entitySearch] true and [entity] the entity searched
    for.  Conversely the search does all of this: its calls and its result
    are the ones [search_run] reads off the replies; the entities it embeds
    are, in order, those of the first three that are no common words, all
    of them unless a call fails; and every hit of a reply whose id is not
    among the initial results and whose score exceeds 0.7 is returned,
    with its id, its score times 0.7 and the two marks. *)
Theorem performEntitySearch_spec {L : Type} (entities : list string)
    (initialResults : list Candidate) (depth : Q) (l : L) (s : Sys) :
  ∃ out s' new,
    performEntitySearch entities initialResults depth l s = (Ok out, l, s') ∧
    calls s' = calls s ++ new ∧
    (∀ e, e ∈ new →
       match e with
       | EvEmbed values _ =>
           ∃ entity, entity ∈ take 3 entities ∧ values = [entity]
       | EvQuery _ topK _ => topK = Qmin 5 (depth * 2)
       | _ => False
       end) ∧
    query_count new ≤ 3 ∧
    (∀ c, c ∈ out →
      ∃ entity embeddings hits hit raw before after,
        entity ∈ take 3 entities ∧
        new = before ++
              [EvEmbed [entity] (Ok embeddings);
               EvQuery (head embeddings) (Qmin 5 (depth * 2))
                       (Ok (Some hits))]
              ++ after ∧
        hit ∈ hits ∧
        r_id c = r_id hit ∧
        (r_id c ∉ map r_id initialResults) ∧
        r_score hit = Some raw ∧ (7 # 10 < raw)%Q ∧
        r_score c = Some (raw * (7 # 10))%Q ∧
        r_metadata c !! "entitySearch" = Some (VBool true) ∧
        r_metadata c !! "entity" = Some (VStr entity)) ∧
    search_run initialResults depth (take 3 entities) new out ∧
    embedded new `prefix_of` searchable entities ∧
    (Forall answered new → embedded new = searchable entities) ∧
    ∀ entity embeddings hits hit raw before after,
      new = before ++
            [EvEmbed [entity] (Ok embeddings);
             EvQuery (head embeddings) (Qmin 5 (depth * 2))
                     (Ok (Some hits))]
            ++ after →
      hit ∈ hits →
      (r_id hit ∉ map r_id initialResults) →
      r_score hit = Some raw → (7 # 10 < raw)%Q →
      ∃ c, c ∈ out ∧
           r_id c = r_id hit ∧
           r_score c = Some (raw * (7 # 10))%Q ∧
           r_metadata c !! "entitySearch" = Some (VBool true) ∧
           r_metadata c !! "entity" = Some (VStr entity) ∧
           ∀ key, key ≠ "entitySearch" → key ≠ "entity" →
                  r_metadata c !! key = r_metadata hit !! key.
Proof.
  destruct (spec_performEntitySearch entities initialResults depth l s)
    as (r & l' & s' & new & Hrun & Hcalls & Hpost).
  destruct Hpost as (-> & out & -> & Hevents & Hcount & Hout).
  destruct (spec_performEntitySearch_exact entities initialResults depth l s)
    as (r2 & l2 & s2 & new2 & Hrun2 & Hcalls2 & Hpost2).
  rewrite Hrun in Hrun2. injection Hrun2 as <- <- <-.
  rewrite Hcalls in Hcalls2. apply app_inv_head in Hcalls2 as <-.
  destruct Hpost2 as (_ & out2 & [= <-] & Hexact).
  exists out, s', new. split; [exact Hrun|]. split; [exact Hcalls|].
  split.
  { intros e He. rewrite Forall_forall in Hevents.
    specialize (Hevents e He). by destruct e. }
  split; [exact Hcount|]. split; [exact Hout|]. split; [exact Hexact|].
  destruct (search_run_embedded _ _ _ _ _ Hexact) as [Hpre Hall].
  split; [exact Hpre|]. split; [exact Hall|].
  intros entity embeddings hits hit raw before after Hnew Hhit Hfresh Hraw Hlt.
  exists (related entity hit). split.
  - eapply search_run_hits; [exact Hexact | exact Hnew | exact Hhit |].
    apply qualifies_iff. split; [done|]. by exists raw.
  - simpl. rewrite Hraw. simpl. split; [done|]. split; [done|].
    split; [|split].
    + rewrite lookup_insert_ne by done. by apply lookup_insert_eq.
    + by apply lookup_insert_eq.
    + intros key Hk1 Hk2. by rewrite !lookup_insert_ne by done.
Qed.

End EntitySearch.

Lemma performEntitySearch_spec_witness :
  ∃ out,
    (@performEntitySearch Inputs.two_paths unit ["population"]
       [Script.candidate "c1" (9 # 10) Inputs.town] 2 tt
       (Script.start Inputs.two_paths 0)).1.1 = Ok out ∧
    ∃ c, c ∈ out ∧ r_id c = "c2" ∧
         r_score c = Some ((8 # 10) * (7 # 10))%Q ∧
         r_metadata c !! "entity" = Some (VStr "population").
Proof.
  destruct (@performEntitySearch_spec Inputs.two_paths unit
              ["population"] [Script.candidate "c1" (9 # 10) Inputs.town]
              2 tt (Script.start Inputs.two_paths 0))
    as (out & s' & new & Hrun & Hcalls & _ & _ & _ & _ & _ & _ & Hhits).
  exists out. rewrite Hrun. split; [reflexivity|].
  vm_compute in Hrun. injection Hrun as _ Hs'. subst s'.
  simpl in Hcalls. subst new.
  destruct (Hhits "population" [Script.embed "population"]
              [Script.candidate "c2" (8 # 10) Inputs.town]
              (Script.candidate "c2" (8 # 10) Inputs.town) (8 # 10) [] [])
    as (c & Hc & Hid & Hscore & _ & Hentity & _).
  - vm_compute. reflexivity.
  - by left.
  - intros Hin. apply list_elem_of_singleton in Hin. discriminate Hin.
  - reflexivity.
  - reflexivity.
  - exists c. split; [exact Hc|]. split; [exact Hid|].
    split; [exact Hscore | exact Hentity].
Defined.

(** ** The retrieval tool *)

Section Runs.
Context `{Runtime}.
Context {L : Type}.

Lemma runs_of_spec {A} (m : M L A) P : spec m P → runs m.
Proof. intros Hm. by eapply spec_weaken. Qed.

Lemma runs_bind {A B} (m : M L A) (k : A → M L B) :
  runs m → (∀ a, runs (k a)) → runs (bind m k).
Proof.
  intros Hm Hk. eapply runs_of_spec. apply spec_bind; [exact Hm|].
  intros a. apply Hk.
Qed.

Lemma runs_try_catch {A} (m : M L A) (handler : string → M L A) :
  runs m → (∀ message, runs (handler message)) → runs (try_catch m handler).
Proof.
  intros Hm Hh. eapply runs_of_spec. apply spec_try_catch; [exact Hm|].
  intros message. apply Hh.
Qed.

Lemma runs_ret {A} (a : A) : runs (ret a : M L A).
Proof. eapply runs_of_spec, spec_ret. Qed.

Lemma runs_throw {A} (message : string) : runs (throw message : M L A).
Proof. eapply runs_of_spec, spec_throw. Qed.

Lemma runs_modify (f : L → L) : runs (modify f).
Proof. eapply runs_of_spec, spec_modify. Qed.

Lemma runs_external {A} (f : World → Res A * World) (event : Res A → Event) :
  runs (external f event : M L A).
Proof. eapply runs_of_spec, spec_external. Qed.

Lemma runs_ambient {A} (f : World → A * World) : runs (ambient f : M L A).
Proof. eapply runs_of_spec, spec_ambient. Qed.

Lemma runs_map_m {A B} (f : A → M L B) (items : list A) :
  (∀ x, runs (f x)) → runs (map_m f items).
Proof.
  intros Hf. induction items as [|x items IH]; simpl; [apply runs_ret|].
  apply runs_bind; [apply Hf|]. intros y.
  apply runs_bind; [apply IH|]. intros ys. apply runs_ret.
Qed.

End Runs.

Section Retrieval.
Context `{Runtime}.

Lemma runs_webDocument {L : Type} (query : string) (result : WebResult) :
  runs (webDocument query result : M L WebDocument).
Proof.
  unfold webDocument.
  repeat (apply runs_bind; [apply runs_ambient|]; intros ?).
  apply runs_ret.
Qed.

Lemma runs_webSearch (query : string) (topK : Q)
    (queryEmbedding : option Embedding) :
  runs (webSearch query topK queryEmbedding).
Proof.
  unfold webSearch. apply runs_try_catch; [|intros ?; apply runs_ret].
  apply runs_bind; [apply runs_external|]. intros tools.
  destruct (List.find is_search_tool tools) as [tool|]; [|apply runs_throw].
  apply runs_bind; [apply runs_external|]. intros searchResult.
  destruct searchResult as [[|r rs]|]; try apply runs_ret.
  apply runs_bind; [apply runs_modify|]. intros _.
  apply runs_bind; [apply runs_map_m; intros ?; apply runs_webDocument|].
  intros documents.
  apply runs_bind; [apply runs_external|]. intros embeddings.
  apply runs_bind; [apply runs_external|]. intros _.
  apply runs_bind; [apply runs_external|]. intros updatedResults.
  destruct updatedResults as [[|u us]|]; try apply runs_ret.
  apply runs_modify.
Qed.

Lemma expansion_no_upsert (ents : list string) (depth : Q)
    (new : list Event) :
  Forall (expansion_event ents depth) new → no_upsert new.
Proof.
  intros Hall request reply Hin.
  rewrite Forall_forall in Hall. by apply Hall in Hin.
Qed.

Lemma spec_respond (context : ToolContext) (l0 : Locals) :
  spec (respond context l0)
       (λ l r l' new, l' = l ∧ no_upsert new ∧
                      ∀ res, r = Ok res → response_of context l0 res).
Proof.
  unfold respond, response_of.
  assert (no_upsert []) as Hnil by (by intros ? ? ?%elem_of_nil).
  destruct (l_initialResults l0) as [[|c initialResults]|] eqn:Hinit.
  1, 3: eapply spec_weaken; [apply spec_ret|]; simpl;
        intros l r l' new (-> & -> & ->);
        (split; [done|]); (split; [done|]);
        intros res [= <-]; done.
  set (initial := c :: initialResults).
  set (ents := extractEntities (query context) initial).
  eapply spec_weaken.
  - apply spec_bind.
    + apply (spec_weaken _
        (search_post ents initial (entityDepth context))
        (λ l r l' new, l' = l ∧ no_upsert new ∧ ∃ out, r = Ok out)).
      * destruct (useEntityEnhancement context &&
                  bool_decide (0 < length ents)).
        -- apply spec_performEntitySearch.
        -- eapply spec_weaken; [apply spec_ret|]. simpl.
           intros l r l' new (-> & -> & ->). split; [done|].
           exists []. split; [done|]. split; [constructor|].
           split; [simpl; lia|]. by intros ? ?%elem_of_nil.
      * intros l r l' new (-> & out & -> & Hev & _). split; [done|].
        split; [by eapply expansion_no_upsert | by exists out].
    + intros entityResults. apply spec_bind; [apply spec_lift_res|].
      intros rerankedResults. apply spec_ret.
  - simpl. unfold seq_post.
    intros l r l' new [(message & -> & -> & Hno & out & ?)|Hok]; [done|].
    destruct Hok as (entityResults & l1 & n1 & n2 & (-> & Hno & _) & Hrest & ->).
    destruct Hrest as [(message & -> & Hres & -> & ->)|Hok].
    { rewrite app_nil_r. done. }
    destruct Hok as (reranked & l2 & n3 & n4 & (Hres & -> & ->) & Hret & ->).
    destruct Hret as (-> & -> & ->). rewrite !app_nil_r.
    split; [done|]. split; [done|]. intros res [= <-]. simpl.
    split; [done|]. split; [done|].
    exists entityResults, reranked. split; [|done].
    rewrite Hres. by destruct entityResults; rewrite ?app_nil_r.
Qed.

Lemma error_result_is_error (query message : string) :
  is_error_response (error_result query message).
Proof. unfold is_error_response. simpl. eauto 10. Qed.

Lemma spec_execute_try (context : ToolContext) (pgVector : bool) :
  spec (execute_try context pgVector) (try_post context pgVector).
Proof.
  unfold execute_try, try_post. destruct pgVector; simpl.
  2: { eapply spec_weaken; [apply spec_throw|]. simpl.
       intros l r l' new (-> & -> & ->).
       split; [by intros ? ? ?%elem_of_nil|]. split; [done|]. eauto. }
  eapply spec_weaken.
  - apply spec_bind; [apply spec_external|]. intros embeddings.
    apply spec_bind; [apply spec_external|]. intros first.
    apply spec_bind; [apply spec_modify|]. intros u.
    apply (spec_bind _ _
      (λ l r l' new,
         hasSufficientLocalResults first = true → no_upsert new)).
    + destruct (hasSufficientLocalResults first) eqn:Hgate.
      * eapply spec_weaken; [apply spec_ret|]. simpl.
        intros l r l' new (_ & _ & ->) _. by intros ? ? ?%elem_of_nil.
      * eapply spec_weaken; [apply runs_webSearch|]. done.
    + intros u'. apply spec_bind; [apply spec_get|]. intros l0.
      apply spec_respond.
  - simpl. unfold seq_post.
    intros l r l' new Hrun. split; [|split; [|done]].
    + (* calls *)
      intros request reply Hin.
      destruct Hrun as [(message & -> & -> & ->)|Hok].
      { by apply list_elem_of_singleton in Hin. }
      destruct Hok as (embeddings & l1 & n1 & n2 & (-> & ->) & Hrun & ->).
      destruct Hrun as [(message & -> & -> & ->)|Hok].
      { simpl in Hin. apply elem_of_cons in Hin as [?|Hin]; [done|].
        by apply list_elem_of_singleton in Hin. }
      destruct Hok as (first & l2 & n3 & n4 & (-> & ->) & Hrun & ->).
      simpl. exists [query context], (Ok embeddings), (head embeddings),
                    first, n4.
      split; [done|].
      destruct (hasSufficientLocalResults first) eqn:Hgate; [|done].
      exfalso. simpl in Hin.
      apply elem_of_cons in Hin as [?|Hin]; [done|].
      apply elem_of_cons in Hin as [?|Hin]; [done|].
      destruct Hrun as [(? & ? & ? & ? & ?)|Hok]; [done|].
      destruct Hok as (u & l3 & n5 & n6 & (_ & -> & ->) & Hrun & ->).
      destruct Hrun as [(message & -> & Hweb)|Hok].
      { by apply (Hweb eq_refl) in Hin. }
      destruct Hok as (u' & l4 & n7 & n8 & Hweb & Hrun & ->).
      simpl in Hin. apply elem_of_app in Hin as [Hin|Hin].
      { by apply (Hweb eq_refl) in Hin. }
      destruct Hrun as [(? & ? & ? & ? & ?)|Hok]; [done|].
      destruct Hok as (l0 & l5 & n9 & n10 & (_ & -> & ->) & Hresp & ->).
      simpl in Hin. destruct Hresp as (_ & Hno & _). by apply Hno in Hin.
    + (* result *)
      intros res ->.
      destruct Hrun as [(? & ? & _)|Hok]; [done|].
      destruct Hok as (embeddings & l1 & n1 & n2 & _ & Hrun & _).
      destruct Hrun as [(? & ? & _)|Hok]; [done|].
      destruct Hok as (first & l2 & n3 & n4 & _ & Hrun & _).
      destruct Hrun as [(? & ? & _)|Hok]; [done|].
      destruct Hok as (u & l3 & n5 & n6 & _ & Hrun & _).
      destruct Hrun as [(? & ? & _)|Hok]; [done|].
      destruct Hok as (u' & l4 & n7 & n8 & _ & Hrun & _).
      destruct Hrun as [(? & ? & _)|Hok]; [done|].
      destruct Hok as (l0 & l5 & n9 & n10 & ([= <-] & -> & ->) & Hresp & _).
      destruct Hresp as (-> & _ & Hres). by apply Hres.
Qed.

Lemma spec_execute (context : ToolContext) (pgVector : bool) :
  spec (execute context pgVector) (execute_post context pgVector).
Proof.
  unfold execute. eapply spec_weaken.
  - apply spec_try_catch; [apply spec_execute_try|].
    intros message. apply spec_ret.
  - simpl. unfold catch_post, try_post, execute_post.
    intros l r l' new [(res & -> & Hups & Hres & Habsent)|Hthrown].
    + split; [done|]. exists res. split; [done|]. split.
      * left. by apply Hres.
      * intros ->. by destruct (Habsent eq_refl) as [[? ?] _].
    + destruct Hthrown as (message & l1 & n1 & n2 & (Hups & _ & Habsent)
                           & (-> & -> & ->) & ->).
      rewrite app_nil_r. split; [done|].
      exists (error_result (query context) message). split; [done|].
      split; [right; apply error_result_is_error|].
      intros ->. destruct (Habsent eq_refl) as (_ & -> & ->).
      split; [apply error_result_is_error | done].
Qed.

End Retrieval.

(** C5. [execute] returns a result from every state and never throws.  When
    the [try] block throws, and in particular when the vector store is
    absent, the result has exactly one source, with id error, no entity
    path, no entities, and [webSearchUsed] false. *)
Theorem execute_never_throws `{Runtime} (context : ToolContext)
    (pgVector : bool) (l : Locals) (s : Sys) :
  ∃ res l' s',
    execute context pgVector l s = (Ok res, l', s') ∧
    (∀ message l1 s1,
       execute_try context pgVector l s = (Throw message, l1, s1) →
       is_error_response res) ∧
    (pgVector = false → is_error_response res).
Proof.
  unfold execute, try_catch.
  destruct (execute_try context pgVector l s) as [[[res|message] l1] s1] eqn:E.
  - exists res, l1, s1. split; [done|]. split; [done|].
    intros ->. unfold execute_try in E. simpl in E. by inversion E.
  - exists (error_result (query context) message), l1, s1.
    split; [done|]. split; intros; apply error_result_is_error.
Qed.

Lemma execute_never_throws_witness :
  ∃ res l' s',
    @execute Inputs.empty_store Inputs.context false locals_start
             (Script.start Inputs.empty_store 0) = (Ok res, l', s') ∧
    is_error_response res.
Proof.
  destruct (@execute_never_throws Inputs.empty_store Inputs.context false
              locals_start (Script.start Inputs.empty_store 0))
    as (res & l' & s' & Hrun & _ & Habsent).
  exists res, l', s'. split; [exact Hrun | apply Habsent; reflexivity].
Defined.

Lemma reported_results_iff (l : Locals) :
  is_Some (reported_results l) ↔ l_webSearchUsed l = true.
Proof.
  unfold reported_results. destruct (l_webSearchUsed l); split; try done.
Qed.

(** C10. In the result that [execute] returns, on every path,
    [webSearchResults] is defined exactly when [webSearchUsed] is true. *)
Theorem webSearchResults_iff_webSearchUsed `{Runtime} (context : ToolContext)
    (pgVector : bool) (l : Locals) (s : Sys) :
  ∃ res l' s',
    execute context pgVector l s = (Ok res, l', s') ∧
    (is_Some (webSearchResults res) ↔ webSearchUsed res = true).
Proof.
  destruct (spec_execute context pgVector l s)
    as (r & l' & s' & new & Hrun & _ & _ & res & -> & Hres & _).
  exists res, l', s'. split; [done|].
  destruct Hres as [(-> & -> & _)|(_ & _ & _ & -> & ->)].
  - apply reported_results_iff.
  - split; [by intros [? ?] | done].
Qed.

(** ** Storage of web results *)

(** C7. With [userRequested] false the storage tool returns a count of 0 and
    no document ids, and leaves the system as it was: it calls neither the
    embedder nor the store.  In a run of the retrieval tool an upsert only
    follows a first query whose reply failed the sufficiency gate. *)
Theorem web_results_stored_only_when_due `{Runtime} :
  (∀ results originalQuery pgVector l s,
     ∃ out,
       StoreWebResults.execute
         (StoreWebResults.mkInput results originalQuery false) pgVector l s
       = (Ok out, l, s) ∧
       StoreWebResults.storedCount out = 0 ∧
       StoreWebResults.documentIds out = []) ∧
  (∀ context pgVector l s,
     ∃ r l' s' new,
       execute context pgVector l s = (r, l', s') ∧
       calls s' = calls s ++ new ∧
       upsert_only_if_insufficient context new).
Proof.
  split.
  - intros results originalQuery pgVector l s. by eexists.
  - intros context pgVector l s.
    destruct (spec_execute context pgVector l s)
      as (r & l' & s' & new & Hrun & Hcalls & Hups & _).
    by exists r, l', s', new.
Qed.

Lemma web_results_stored_witness :
  ∃ values embeddings queryVector first rest,
    calls (@execute Inputs.weak_store Inputs.context true locals_start
                    (Script.start Inputs.weak_store 0)).2
    = EvEmbed values embeddings
      :: EvQuery queryVector (topK Inputs.context) (Ok first) :: rest ∧
    hasSufficientLocalResults first = false.
Proof.
  destruct (@web_results_stored_only_when_due Inputs.weak_store) as [_ Hrun].
  destruct (Hrun Inputs.context true locals_start
                 (Script.start Inputs.weak_store 0))
    as (r & l' & s' & new & Heq & Hcalls & Hups).
  assert (calls (@execute Inputs.weak_store Inputs.context true locals_start
                   (Script.start Inputs.weak_store 0)).2 = new) as Hnew.
  { rewrite Heq. simpl. by rewrite Hcalls. }
  rewrite Hnew. vm_compute in Hnew. subst new.
  eapply Hups.
  do 5 apply list_elem_of_further. apply list_elem_of_here.
Defined.

(** ** Sources *)

(** C9 (as the code has it). When the tool answers from a non-empty list of
    initial results, the sources are built from the full reranked list, as
    it is before deduplication, one entry per candidate in that order; the
    deduplicated list only feeds the context.  The entry at index [i] names
    the id of the candidate and has [retrievalMethod] vector_similarity
    when [i] is below the size of [initialResults], the initial list as the
    web-search block left it, and entity_search otherwise. *)
Theorem sources_follow_reranked_list `{Runtime} (context : ToolContext)
    (pgVector : bool) (l l' : Locals) (s s' : Sys) (res : RetrievalResult)
    (initialResults : list Candidate) :
  execute context pgVector l s = (Ok res, l', s') →
  ¬ is_error_response res →
  l_initialResults l' = Some initialResults →
  initialResults ≠ [] →
  ∃ entityResults rerankedResults,
    rerankByEntityOverlap (initialResults ++ entityResults) (entities res)
    = Ok rerankedResults ∧
    relevantContext res =
      or_notice (relevantTexts (assemble (uniqueResults rerankedResults)
                                         (entities res)))
                (query context) ∧
    length (sources res) = length rerankedResults ∧
    ∀ i c, rerankedResults !! i = Some c →
      ∃ src, sources res !! i = Some src ∧
        s_id src = "result-" +:+ pretty i ∧
        s_metadata src !! "id" = Some (VStr (r_id c)) ∧
        s_metadata src !! "retrievalMethod" =
          Some (VStr (if bool_decide (i < length initialResults)
                      then "vector_similarity" else "entity_search")).
Proof.
  intros Hrun Hnot Hinit Hne.
  destruct (spec_execute context pgVector l s)
    as (r & l1 & s1 & new & Hrun' & _ & _ & res' & -> & Hres & _).
  rewrite Hrun in Hrun'. injection Hrun' as <- <- <-.
  destruct Hres as [(_ & _ & Hres)|?]; [|done].
  rewrite Hinit in Hres. destruct initialResults as [|c0 rest]; [done|].
  destruct Hres as (entityResults & reranked & Hrank & Hents & _ & Hsrc & Hctx).
  exists entityResults, reranked. rewrite Hents. split; [done|].
  split; [by rewrite Hctx, Hents|].
  rewrite Hsrc. split; [by rewrite length_imap|].
  intros i c Hc. exists (formatSource (length (c0 :: rest)) i c).
  split; [by rewrite list_lookup_imap, Hc|]. split; [done|]. simpl.
  split; [|by apply lookup_insert_eq].
  rewrite lookup_insert_ne by done. by apply lookup_insert_eq.
Qed.

Lemma sources_follow_reranked_witness :
  ∃ (res : RetrievalResult) (initialResults rerankedResults : list Candidate),
    (@execute Inputs.two_paths Inputs.context true locals_start
              (Script.start Inputs.two_paths 0)).1.1 = Ok res ∧
    length initialResults = 1 ∧
    length (sources res) = length rerankedResults ∧
    ∀ i c, rerankedResults !! i = Some c →
      ∃ src, sources res !! i = Some src ∧
        s_id src = "result-" +:+ pretty i ∧
        s_metadata src !! "id" = Some (VStr (r_id c)) ∧
        s_metadata src !! "retrievalMethod" =
          Some (VStr (if bool_decide (i < length initialResults)
                      then "vector_similarity" else "entity_search")).
Proof.
  destruct (@execute Inputs.two_paths Inputs.context true locals_start
              (Script.start Inputs.two_paths 0)) as [[r l'] s'] eqn:Hrun.
  vm_compute in Hrun.
  injection Hrun as Hr Hl Hs. symmetry in Hr, Hl, Hs.
  destruct r as [res|message]; [|discriminate Hr].
  destruct (@sources_follow_reranked_list Inputs.two_paths Inputs.context
              true locals_start l' (Script.start Inputs.two_paths 0) s' res
              [Script.candidate "c1" (9 # 10) Inputs.town])
    as (entityResults & reranked & _ & _ & Hlen & Hsrc).
  - rewrite Hr, Hl, Hs. vm_compute. reflexivity.
  - injection Hr as ->. intros ((src & Hsources & Hid) & _).
    simpl in Hsources. discriminate Hsources.
  - rewrite Hl. vm_compute. reflexivity.
  - done.
  - exists res, [Script.candidate "c1" (9 # 10) Inputs.town], reranked.
    split; [done|]. split; [done|]. split; [exact Hlen | exact Hsrc].
Defined.

(** C9, as stated, fails.  Two entity queries return the same chunk: it
    appears twice in the sources, and once only in a deduplicated list.
    And after a web search the index is compared with the size of the list
    the repeated query returned, not with that of the first answer: the
    first query found one chunk, and the source at index 1 is tagged
    vector_similarity. *)
Lemma sources_not_from_deduplicated_list :
  (∃ res,
     (@execute Inputs.two_paths Inputs.context true locals_start
               (Script.start Inputs.two_paths 0)).1.1 = Ok res ∧
     map (λ src, s_metadata src !! "id") (sources res)
     = [Some (VStr "c1"); Some (VStr "c2"); Some (VStr "c2")] ∧
     ¬ NoDup (map (λ src, s_metadata src !! "id") (sources res))) ∧
  (∃ res embeddings queryVector first rest,
     (@execute Inputs.grown_store Inputs.context true locals_start
               (Script.start Inputs.grown_store 0)).1.1 = Ok res ∧
     calls (@execute Inputs.grown_store Inputs.context true locals_start
                     (Script.start Inputs.grown_store 0)).2
     = EvEmbed [query Inputs.context] embeddings
       :: EvQuery queryVector 10 (Ok (Some first)) :: rest ∧
     length first = 1 ∧
     map (λ src, s_metadata src !! "retrievalMethod") (sources res)
     = [Some (VStr "vector_similarity"); Some (VStr "vector_similarity")]).
Proof.
  split.
  - eexists. split; [vm_compute; reflexivity|].
    split; [vm_compute; reflexivity|].
    intros Hnodup. vm_compute in Hnodup.
    apply NoDup_cons in Hnodup as [_ Hnodup].
    apply NoDup_cons in Hnodup as [Hin _].
    apply Hin. apply list_elem_of_here.
  - eexists _, _, _, _, _.
    split; [vm_compute; reflexivity|].
    split; [vm_compute; reflexivity|].
    split; vm_compute; reflexivity.
Qed.

(** ** Sorting by descending score *)

Lemma insert_desc_perm (x : Candidate) (l : list Candidate) :
  insert_desc x l ≡ₚ x :: l.
Proof.
  induction l as [|y l IH]; simpl; [done|].
  destruct (Qgtb (sort_key y) (sort_key x)); [|done].
  rewrite IH. apply Permutation_swap.
Qed.

Lemma sort_desc_perm (l : list Candidate) : sort_desc l ≡ₚ l.
Proof.
  induction l as [|x l IH]; simpl; [done|].
  by rewrite insert_desc_perm, IH.
Qed.

Lemma insert_desc_sorted (x : Candidate) (l : list Candidate) :
  StronglySorted not_below l → StronglySorted not_below (insert_desc x l).
Proof.
  induction l as [|y l IH]; simpl; intros Hsorted.
  - repeat constructor.
  - apply StronglySorted_inv in Hsorted as [Hl Hy].
    destruct (Qgtb (sort_key y) (sort_key x)) eqn:Hcmp.
    + constructor; [by apply IH|].
      rewrite insert_desc_perm. constructor; [|done].
      apply Qgtb_lt in Hcmp. by apply Qlt_le_weak.
    + apply Qgtb_le in Hcmp. constructor; [by constructor|].
      constructor; [done|].
      eapply Forall_impl; [exact Hy|]. intros z Hz. unfold not_below in *.
      by apply (Qle_trans _ (sort_key y)).
Qed.

Lemma sort_desc_sorted (l : list Candidate) :
  StronglySorted not_below (sort_desc l).
Proof.
  induction l as [|x l IH]; simpl; [constructor|].
  by apply insert_desc_sorted.
Qed.

Lemma with_key_insert (k : Q) (x : Candidate) (l : list Candidate) :
  with_key k (insert_desc x l) = with_key k (x :: l).
Proof.
  unfold with_key. induction l as [|y l IH]; [done|]. simpl.
  destruct (Qgtb (sort_key y) (sort_key x)) eqn:Hcmp; [|done].
  simpl. rewrite IH. simpl.
  destruct (Qeq_bool (sort_key y) k) eqn:Hy; [|done].
  destruct (Qeq_bool (sort_key x) k) eqn:Hx; [|done].
  apply Qeq_bool_iff in Hx, Hy. apply Qgtb_lt in Hcmp.
  rewrite Hx, Hy in Hcmp. by apply Qlt_irrefl in Hcmp.
Qed.

Lemma sort_desc_stable (k : Q) (l : list Candidate) :
  with_key k (sort_desc l) = with_key k l.
Proof.
  induction l as [|x l IH]; [done|]. simpl.
  rewrite with_key_insert. unfold with_key in *. simpl. by rewrite IH.
Qed.

(** ** Patterns built from plain words *)

Lemma is_word_lower (c : ascii) : Js.is_word (Js.lower_char c) = Js.is_word c.
Proof. by destruct c as [[] [] [] [] [] [] [] []]. Qed.

Lemma word_is_literal (c : ascii) :
  Js.is_word c = true →
  bool_decide (c ∈ RegExp.syntax_characters) = false ∧
  bool_decide (c = "."%char) = false.
Proof. destruct c as [[] [] [] [] [] [] [] []]; by vm_compute. Qed.

Lemma parse_plain (entity : string) :
  all_word entity = true → RegExp.parse entity = Some (literals entity).
Proof.
  induction entity as [|c entity IH]; [done|]. simpl.
  intros [Hc Hrest]%andb_true_iff.
  destruct (word_is_literal c Hc) as [-> ->]. by rewrite IH.
Qed.

Lemma item_matches_word (a c : ascii) :
  Js.is_word a = true → RegExp.item_matches (RegExp.Lit a) c = true →
  Js.is_word c = true.
Proof.
  simpl. intros Ha Heq%bool_decide_eq_true.
  by rewrite <-is_word_lower, <-Heq, is_word_lower.
Qed.

Lemma match_items_plain (entity : string) (prev : option ascii)
    (rest : string) :
  all_word entity = true → RegExp.word_char prev = true →
  RegExp.match_items (literals entity) prev rest =
  ci_prefix entity rest &&
  negb (RegExp.word_char (char_after (String.length entity) rest)).
Proof.
  revert prev rest. induction entity as [|a entity IH]; intros prev rest.
  - intros _ Hprev. simpl. unfold RegExp.at_boundary. by rewrite Hprev.
  - intros [Ha Hentity]%andb_true_iff _. simpl.
    destruct rest as [|c rest]; [done|]. simpl.
    destruct (bool_decide (Js.lower_char a = Js.lower_char c)) eqn:Hac;
      [|done].
    simpl. apply IH; [done|]. simpl. by apply (item_matches_word a).
Qed.

Lemma ci_prefix_word_prefix (entity rest : string) :
  all_word entity = true → ci_prefix entity rest = true →
  word_prefix (String.length entity) rest.
Proof.
  revert rest. induction entity as [|a entity IH]; intros rest; [done|].
  intros [Ha Hentity]%andb_true_iff. simpl.
  destruct rest as [|c rest]; [done|].
  intros [Hac Hrest]%andb_true_iff. split; [|by apply IH].
  by apply (item_matches_word a).
Qed.

Lemma match_here_plain (entity : string) (prev : option ascii)
    (rest : string) :
  plain_word entity →
  RegExp.match_here (literals entity) prev rest =
  whole_word_at entity prev rest.
Proof.
  intros [Hne Hword]. unfold RegExp.match_here, whole_word_at.
  destruct entity as [|a entity]; [done|].
  apply andb_true_iff in Hword as [Ha Hentity].
  destruct rest as [|c rest]; simpl.
  { by rewrite !andb_false_r. }
  destruct (bool_decide (Js.lower_char a = Js.lower_char c)) eqn:Hac; simpl.
  2: { by rewrite !andb_false_r. }
  assert (Js.is_word c = true) as Hc by (by apply (item_matches_word a)).
  unfold RegExp.at_boundary. simpl. rewrite Hc, xorb_true_r.
  rewrite <-andb_assoc. f_equal. by apply match_items_plain.
Qed.

Lemma scan_plain (entity : string) (rest : string) (prev : option ascii)
    (skip : nat) :
  plain_word entity →
  (skip ≠ 0 → RegExp.word_char prev = true ∧ word_prefix skip rest) →
  RegExp.scan (literals entity) prev rest skip =
  occurrences_from entity prev rest.
Proof.
  intros Hplain. revert prev skip.
  assert (length (literals entity) = String.length entity) as Hlen.
  { clear. induction entity; simpl; auto. }
  induction rest as [|c rest IH]; intros prev skip Hskip.
  - simpl. destruct skip as [|skip].
    + by rewrite match_here_plain.
    + destruct (Hskip ltac:(done)) as [_ []].
  - simpl. destruct skip as [|skip].
    + rewrite match_here_plain by done.
      destruct (whole_word_at entity prev (String c rest)) eqn:Hhere.
      * f_equal. apply IH. rewrite Hlen. intros Hn.
        unfold whole_word_at in Hhere.
        apply andb_true_iff in Hhere as [[_ Hpre]%andb_true_iff _].
        apply ci_prefix_word_prefix in Hpre; [|apply Hplain].
        destruct (String.length entity) as [|n]; [done|]. simpl in *.
        destruct Hpre as [Hc Hpre]. done.
      * f_equal. apply IH. done.
    + destruct (Hskip ltac:(done)) as [Hprev [Hc Hrest]].
      unfold whole_word_at. rewrite Hprev. simpl.
      apply IH. intros Hn. simpl. split; [done|]. done.
Qed.

Lemma match_count_plain `{Runtime} (entity text : string) :
  plain_word entity →
  match_count entity text = Ok (whole_word_occurrences entity text).
Proof.
  intros Hplain. unfold match_count.
  rewrite parse_plain by apply Hplain.
  unfold RegExp.count_matches, whole_word_occurrences.
  by rewrite scan_plain.
Qed.

Lemma count_entities_plain `{Runtime} (n : nat) (text : string)
    (entities : list string) :
  Forall plain_word entities →
  count_entities n text entities = Ok (n + total_occurrences entities text).
Proof.
  revert n. induction entities as [|entity entities IH]; intros n Hall.
  - simpl. f_equal. lia.
  - apply Forall_cons in Hall as [Hentity Hall]. simpl.
    rewrite match_count_plain by done. simpl. rewrite IH by done.
    f_equal. lia.
Qed.

Lemma boost_plain `{Runtime} (entities : list string) (result : Candidate) :
  Forall plain_word entities →
  boost entities result = Ok (boosted entities result).
Proof.
  intros Hall. unfold boost. by rewrite count_entities_plain.
Qed.

Lemma res_map_ok {A B : Type} (f : A → Res B) (g : A → B) (l : list A) :
  (∀ x, f x = Ok (g x)) → res_map f l = Ok (map g l).
Proof.
  intros Hf. induction l as [|x l IH]; [done|]. simpl.
  by rewrite Hf, IH.
Qed.

(** What holds of every input made of plain words: with no entity the input
    comes back unchanged; otherwise every candidate has its score raised by
    a tenth of the number of whole-word, case-insensitive occurrences of
    the entities in its text, with both numbers in its metadata, and the
    list is sorted by descending score, candidates of equal score keeping
    their order. *)
Lemma rerank_plain_entities `{Runtime} (results : list Candidate)
    (entities : list string) :
  rerankByEntityOverlap results [] = Ok results ∧
  (entities ≠ [] → Forall plain_word entities →
   ∃ reranked,
     rerankByEntityOverlap results entities = Ok reranked ∧
     reranked ≡ₚ map (boosted entities) results ∧
     StronglySorted not_below reranked ∧
     ∀ k, with_key k reranked = with_key k (map (boosted entities) results)).
Proof.
  split; [done|]. intros Hne Hall.
  exists (sort_desc (map (boosted entities) results)).
  split; [|split; [apply sort_desc_perm|split;
                   [apply sort_desc_sorted | intros k; apply sort_desc_stable]]].
  unfold rerankByEntityOverlap. destruct entities as [|e entities]; [done|].
  rewrite (res_map_ok _ (boosted (e :: entities))); [done|].
  intros x. by apply boost_plain.
Qed.

(** C4, at a failing input. The entity Node.js does not occur in the text
    of the chunk, so the score should stay 0.5; the pattern built from the
    entity is not escaped, its dot matches the blank between node and js,
    and the candidate comes back with [entityScore] 1 and score
    0.5 + 1 * 0.1. *)
Theorem rerank_counts_pattern_matches `{Runtime} :
  whole_word_occurrences "Node.js" (lower_text Inputs.node_chunk) = 0 ∧
  ∃ c,
    rerankByEntityOverlap [Inputs.node_chunk] ["Node.js"] = Ok [c] ∧
    r_id c = "c1" ∧
    r_score c = Some ((5 # 10) + inject_Z 1 * (1 # 10))%Q ∧
    r_metadata c !! "entityScore" = Some (VNum (inject_Z 1)).
Proof.
  split; [by vm_compute|].
  eexists. split; [reflexivity|]. split; [reflexivity|].
  split; [reflexivity|]. by vm_compute.
Qed.

(** ** The model on concrete inputs *)

Example split_ws_blanks :
  Js.split_ws " a  b " = [EmptyString; "a"; "b"; EmptyString].
Proof. reflexivity. Qed.

Example potentialEntities_question :
  potentialEntities "What is the population of Riverdale Heights?"
  = ["what"; "population"; "riverdale"].
Proof. reflexivity. Qed.

Example whole_words_counted :
  RegExp.parse "FOO" = Some (literals "FOO") ∧
  RegExp.count_matches (literals "FOO") "foo Foo foofoo foo_foo foo-foo" = 4.
Proof. split; reflexivity. Qed.

Example empty_pattern_counts_boundaries :
  RegExp.parse EmptyString = Some [] ∧ RegExp.count_matches [] "a b" = 4.
Proof. split; reflexivity. Qed.

Example stable_sort_by_score :
  map r_id (sort_desc [mkCandidate "a" (Some (1 # 2)) ∅;
                       mkCandidate "b" (Some (9 # 10)) ∅;
                       mkCandidate "c" None ∅;
                       mkCandidate "d" (Some (1 # 2)) ∅;
                       mkCandidate "e" (Some 0%Q) ∅])
  = ["b"; "a"; "d"; "c"; "e"].
Proof. reflexivity. Qed.

(** An empty knowledge base without a search tool: the tool reports that
    nothing was found. *)
Example empty_knowledge_base :
  ∃ res,
    (@execute Inputs.empty_store Inputs.context true locals_start
              (Script.start Inputs.empty_store 0)).1.1 = Ok res ∧
    Js.prefix_of "No relevant information found" (relevantContext res) = true ∧
    sources res = [] ∧ entities res = [] ∧ webSearchUsed res = false ∧
    webSearchResults res = None.
Proof. eexists. split; [vm_compute; reflexivity|]. by vm_compute. Qed.

(** Weak local results and a search tool: the page found is stored before
    the query is repeated. *)
Example web_search_fallback :
  ∃ res request,
    (@execute Inputs.weak_store Inputs.context true locals_start
              (Script.start Inputs.weak_store 0)).1.1 = Ok res ∧
    webSearchUsed res = true ∧
    webSearchResults res = Some [Script.page] ∧
    map (λ e, match e with
              | EvEmbed _ _ => "embed"
              | EvQuery _ _ _ => "query"
              | EvUpsert _ _ => "upsert"
              | EvGetTools => "tools"
              | EvSearch _ _ _ => "search"
              end)
        (take 7 (calls (@execute Inputs.weak_store Inputs.context true
                          locals_start (Script.start Inputs.weak_store 0)).2))
    = ["embed"; "query"; "tools"; "search"; "embed"; "upsert"; "query"] ∧
    (calls (@execute Inputs.weak_store Inputs.context true locals_start
              (Script.start Inputs.weak_store 0)).2) !! 5
    = Some (EvUpsert request (Ok tt)).
Proof.
  eexists _, _. split; [vm_compute; reflexivity|].
  split; [by vm_compute|]. split; [by vm_compute|].
  split; [by vm_compute|]. vm_compute. reflexivity.
Qed.

(** * Further properties *)

(** ** Entity extraction *)

Lemma set_add_NoDup (acc : list string) (e : string) :
  NoDup acc → NoDup (set_add acc e).
Proof.
  intros Hacc. unfold set_add. case_bool_decide as He; [done|].
  apply NoDup_app. split; [done|]. split; [|apply NoDup_singleton].
  intros x Hx ->%list_elem_of_singleton. done.
Qed.

Lemma foldl_set_add_NoDup (acc l : list string) :
  NoDup acc → NoDup (foldl set_add acc l).
Proof.
  revert acc. induction l as [|x l IH]; intros acc Hacc; simpl; [done|].
  by apply IH, set_add_NoDup.
Qed.

Lemma foldl_set_add_prefix (acc l : list string) :
  acc `prefix_of` foldl set_add acc l.
Proof.
  revert acc. induction l as [|x l IH]; intros acc; simpl; [done|].
  etrans; [|apply IH]. unfold set_add. case_bool_decide; [done|].
  by apply prefix_app_r.
Qed.

Lemma foldl_results_NoDup (acc : list string) (results : list Candidate) :
  NoDup acc →
  NoDup (foldl (λ entities result, foldl set_add entities (entities_of result))
               acc results).
Proof.
  revert acc. induction results as [|r results IH]; intros acc Hacc; [done|].
  simpl. by apply IH, foldl_set_add_NoDup.
Qed.

Lemma foldl_results_prefix (acc : list string) (results : list Candidate) :
  acc `prefix_of`
    foldl (λ entities result, foldl set_add entities (entities_of result))
          acc results.
Proof.
  revert acc. induction results as [|r results IH]; intros acc; [done|].
  simpl. etrans; [apply foldl_set_add_prefix | apply IH].
Qed.

(** X1. For results whose [metadata.entities] is an array or missing, the
    entities that the retrieval tool extracts hold no duplicate; they are
    exactly the words kept from the query and the entities declared in the
    metadata of the results; and the words of the query come first, in the
    order of the query, whatever the results are. *)
Theorem extractEntities_is_ordered_set (query : string)
    (results : list Candidate) :
  Forall array_entities results →
  NoDup (extractEntities query results) ∧
  (∀ e, e ∈ extractEntities query results ↔
        e ∈ potentialEntities query ∨ ∃ r, r ∈ results ∧ e ∈ entities_of r) ∧
  extractEntities query [] `prefix_of` extractEntities query results ∧
  extractEntities query [] `sublist_of` potentialEntities query.
Proof.
  intros _. split; [|split; [|split]].
  - unfold extractEntities. apply foldl_results_NoDup, foldl_set_add_NoDup.
    constructor.
  - intros e. apply extractEntities_spec.
  - unfold extractEntities at 1. simpl. apply foldl_results_prefix.
  - unfold extractEntities. simpl.
    assert (∀ l acc : list string,
              ∃ k, foldl set_add acc l = acc ++ k ∧ k `sublist_of` l) as Hsub.
    { induction l as [|x l IH]; intros acc; simpl.
      - exists []. by rewrite app_nil_r.
      - destruct (IH (set_add acc x)) as (k & -> & Hk). unfold set_add.
        case_bool_decide.
        + exists k. split; [done | by apply sublist_cons].
        + exists (x :: k). rewrite <-app_assoc. split; [done|].
          by apply sublist_skip. }
    destruct (Hsub (potentialEntities query) []) as (k & -> & Hk). done.
Qed.

Lemma extractEntities_ordered_witness :
  Forall array_entities
    [mkCandidate "c1" (Some (9 # 10))
       (<[ "entities" := VStrs ["riverdale"; "population"] ]> ∅);
     mkCandidate "c2" None ∅] ∧
  extractEntities "What population"
    [mkCandidate "c1" (Some (9 # 10))
       (<[ "entities" := VStrs ["riverdale"; "population"] ]> ∅);
     mkCandidate "c2" None ∅]
  = ["what"; "population"; "riverdale"] ∧
  NoDup (extractEntities "What population"
           [mkCandidate "c1" (Some (9 # 10))
              (<[ "entities" := VStrs ["riverdale"; "population"] ]> ∅);
            mkCandidate "c2" None ∅]).
Proof.
  assert (Forall array_entities
            [mkCandidate "c1" (Some (9 # 10))
               (<[ "entities" := VStrs ["riverdale"; "population"] ]> ∅);
             mkCandidate "c2" None ∅]) as Htyped.
  { repeat (apply List.Forall_cons; [vm_compute; exact I|]).
    apply List.Forall_nil. }
  split; [exact Htyped|]. split; [by vm_compute|].
  apply (extractEntities_is_ordered_set "What population" _ Htyped).
Defined.





(** ** Deduplication *)

Lemma dedupe_from_fresh (seen : gset string) (l : list Candidate) :
  NoDup (map r_id l) → (∀ c, c ∈ l → r_id c ∉ seen) →
  dedupe_from seen l = l.
Proof.
  revert seen. induction l as [|x l IH]; intros seen Hnd Hfresh; [done|].
  simpl in *. apply NoDup_cons in Hnd as [Hx Hnd].
  rewrite bool_decide_eq_false_2 by (apply Hfresh; by left).
  f_equal. apply IH; [done|]. intros c Hc.
  assert (r_id c ≠ r_id x) as Hne.
  { intros Heq. apply Hx. rewrite <-Heq. by apply list_elem_of_fmap_2. }
  assert (r_id c ∉ seen) by (apply Hfresh; by right). set_solver.
Qed.

(** X3. Deduplication changes nothing in a list whose ids are pairwise
    distinct, and so deduplicating twice is deduplicating once. *)
Theorem uniqueResults_idempotent (l : list Candidate) :
  (NoDup (map r_id l) → uniqueResults l = l) ∧
  uniqueResults (uniqueResults l) = uniqueResults l.
Proof.
  assert (∀ k, NoDup (map r_id k) → uniqueResults k = k) as Hid.
  { intros k Hk. apply dedupe_from_fresh; [done|]. set_solver. }
  split; [apply Hid|]. apply Hid, dedupe_from_NoDup.
Qed.

Lemma uniqueResults_idempotent_witness :
  uniqueResults Inputs.crowded = Inputs.crowded.
Proof.
  apply (proj1 (uniqueResults_idempotent Inputs.crowded)).
  apply (bool_decide_unpack _). by vm_compute.
Defined.

(** ** Context assembly *)

Lemma assemble_loop_accepts (entities : list string)
    (results : list Candidate) (a : Assembly) :
  ∃ used added,
    used `sublist_of` results ∧
    Forall (λ c, accepted entities c = true) used ∧
    Forall2 piece_of used added ∧
    pieces (assemble_loop entities a results) = pieces a ++ added.
Proof.
  revert a. induction results as [|result rest IH]; intros a; simpl.
  { exists [], []. by rewrite app_nil_r. }
  assert (∃ used added,
            used `sublist_of` result :: rest ∧
            Forall (λ c, accepted entities c = true) used ∧
            Forall2 piece_of used added ∧
            pieces (assemble_loop entities a rest) = pieces a ++ added)
    as Hskip.
  { destruct (IH a) as (used & added & Hsub & Hacc & Hall & Hp).
    exists used, added. split; [by apply sublist_cons | done]. }
  case_bool_decide as Hfull.
  { exists [], []. rewrite app_nil_r.
    repeat split; [apply sublist_nil_l | constructor..]. }
  destruct (truthy_text result) as [text|] eqn:Htext; [|exact Hskip].
  case_bool_decide as Hshort; [exact Hskip|].
  destruct (hasRelevantContent entities text) eqn:Hrel; simpl; [|exact Hskip].
  assert (accepted entities result = true) as Hacc.
  { unfold accepted. rewrite Htext, Hrel.
    rewrite bool_decide_eq_true_2; [done | lia]. }
  case_bool_decide as Hover.
  - case_bool_decide as Hroom.
    + exists [result],
             [nl2 +:+ Js.take_str
                (Z.to_nat (maxContextLength - currentLength a - 200)) text
              +:+ "..."]. simpl.
      split; [apply sublist_skip, sublist_nil_l|].
      split; [by repeat constructor|]. split; [|done].
      constructor; [|constructor]. exists text. split; [done|].
      right. right. by eexists.
    + exists [], []. rewrite app_nil_r.
      repeat split; [apply sublist_nil_l | constructor..].
  - destruct (IH (append_piece a
               ((match relevantTexts a with
                 | EmptyString => EmptyString
                 | _ => nl2
                 end) +:+ text) (Js.len text) 1))
      as (used & added & Hsub & Haccs & Hall & Hp).
    exists (result :: used),
           (((match relevantTexts a with
              | EmptyString => EmptyString
              | _ => nl2
              end) +:+ text) :: added).
    split; [by apply sublist_skip|]. split; [by constructor|].
    split.
    + constructor; [|done]. exists text. split; [done|].
      destruct (relevantTexts a); [by left | by right; left].
    + rewrite Hp. simpl. by rewrite <-app_assoc.
Qed.

(** X4. Whatever the candidates and the entities, the assembled context is
    at most 6028 code units long (6000 and the separators of fifteen
    pieces); it is made of at most fifteen pieces put end to end; the pieces
    come, in order, from distinct positions of the candidate list, and each
    of these candidates has a text of at least 50 code units that mentions
    an entity. *)
Theorem assemble_budget_and_provenance (unique : list Candidate)
    (entities : list string) :
  (Js.len (relevantTexts (assemble unique entities)) ≤ 6028)%Z ∧
  relevantTexts (assemble unique entities)
  = concat_str (pieces (assemble unique entities)) ∧
  ∃ used,
    length used ≤ 15 ∧
    used `sublist_of` unique ∧
    Forall (λ c, accepted entities c = true) used ∧
    Forall2 piece_of used (pieces (assemble unique entities)).
Proof.
  destruct (assemble_bounds unique entities) as [Hlen Hcount].
  destruct (assemble_pieces unique entities) as (_ & _ & _ & Hconcat).
  destruct (assemble_loop_accepts entities unique assembly_start)
    as (used & added & Hsub & Hacc & Hall & Hp).
  fold (assemble unique entities) in Hp. simpl in Hp. subst added.
  split; [done|]. split; [done|]. exists used.
  split; [|done]. apply Forall2_length in Hall. lia.
Qed.

Lemma accepted_no_entities (c : Candidate) : accepted [] c = false.
Proof.
  unfold accepted. destruct (truthy_text c); [|done].
  unfold hasRelevantContent. simpl. by rewrite andb_false_r.
Qed.

Lemma assemble_loop_rejects (entities : list string)
    (results : list Candidate) (a : Assembly) :
  Forall (λ c, accepted entities c = false) results →
  assemble_loop entities a results = a.
Proof.
  induction 1 as [|result rest Hrej _ IH]; simpl; [done|].
  case_bool_decide; [done|]. unfold accepted in Hrej.
  destruct (truthy_text result) as [text|]; [|done].
  destruct (bool_decide (Js.len text < 50)%Z) eqn:Hshort; [exact IH|].
  apply bool_decide_eq_false in Hshort.
  rewrite bool_decide_eq_true_2 in Hrej by lia. simpl in Hrej.
  by rewrite Hrej.
Qed.

(** X5. For candidates whose [metadata.text] is a string or missing: when
    none has a text of at least 50 code units that mentions an entity, and
    in particular when there is no entity at all, nothing goes into the
    context, and the response carries the notice that no text content was
    found. *)
Theorem assemble_without_match (unique : list Candidate)
    (entities : list string) (query : string) :
  Forall string_text unique →
  (Forall (λ c, accepted entities c = false) unique →
   assemble unique entities = assembly_start ∧
   or_notice (relevantTexts (assemble unique entities)) query
   = "No text content found for query: " +:+ dquote +:+ query +:+ dquote) ∧
  assemble unique [] = assembly_start.
Proof.
  intros _.
  assert (∀ ents, Forall (λ c, accepted ents c = false) unique →
                  assemble unique ents = assembly_start) as Hrej.
  { intros ents Hall. by apply assemble_loop_rejects. }
  split.
  - intros Hall. by rewrite (Hrej entities Hall).
  - apply Hrej. apply Forall_forall. intros c _. apply accepted_no_entities.
Qed.

Lemma assemble_without_match_witness :
  assemble [Script.candidate "c1" (9 # 10) "too short"] ["short"]
  = assembly_start.
Proof.
  refine (proj1 (proj1 (assemble_without_match
             [Script.candidate "c1" (9 # 10) "too short"] ["short"]
             EmptyString _) _)).
  - apply List.Forall_cons; [vm_compute; exact I | apply List.Forall_nil].
  - repeat constructor.
Defined.

Lemma total_len_nonneg (texts : list string) : (0 ≤ total_len texts)%Z.
Proof.
  induction texts as [|t texts IH]; simpl; [done|].
  pose proof (len_nonneg t). lia.
Qed.

Lemma join_blank_snoc (texts : list string) (text : string) :
  join_blank (texts ++ [text])
  = join_blank texts +:+
    (match texts with [] => EmptyString | _ => nl2 end) +:+ text.
Proof.
  destruct texts as [|t texts]; simpl.
  { by rewrite str_app_nil_r. }
  rewrite map_app, concat_str_app, str_app_assoc. simpl.
  by rewrite str_app_nil_r.
Qed.

Lemma accepted_texts_cons (entities : list string) (result : Candidate)
    (rest : list Candidate) :
  accepted_texts entities (result :: rest)
  = if accepted entities result
    then text_or_empty result :: accepted_texts entities rest
    else accepted_texts entities rest.
Proof. unfold accepted_texts. simpl. by destruct (accepted entities result). Qed.

Lemma accepted_inv (entities : list string) (result : Candidate) :
  accepted entities result = true →
  ∃ c s, truthy_text result = Some (String c s) ∧
         text_or_empty result = String c s ∧
         (50 ≤ Js.len (String c s))%Z ∧
         hasRelevantContent entities (String c s) = true.
Proof.
  unfold accepted, text_or_empty.
  destruct (truthy_text result) as [text|] eqn:Htext; [|done].
  intros [Hlen Hrel]%andb_true_iff. apply bool_decide_eq_true in Hlen.
  unfold truthy_text in Htext.
  destruct (r_metadata result !! "text") as [[[|c s]| | | |]|];
    try discriminate Htext.
  injection Htext as <-. by exists c, s.
Qed.

Lemma assemble_loop_skip (entities : list string) (result : Candidate)
    (rest : list Candidate) (a : Assembly) :
  accepted entities result = false →
  assemble_loop entities a (result :: rest)
  = if bool_decide (maxResults ≤ addedCount a) then a
    else assemble_loop entities a rest.
Proof.
  intros Hrej. simpl. case_bool_decide as Hfull; [done|].
  unfold accepted in Hrej.
  destruct (truthy_text result) as [text|]; [|done].
  destruct (bool_decide (Js.len text < 50)%Z) eqn:Hshort; [done|].
  apply bool_decide_eq_false in Hshort.
  rewrite bool_decide_eq_true_2 in Hrej by lia. simpl in Hrej.
  by rewrite Hrej.
Qed.

Lemma assemble_loop_take (entities : list string) (result : Candidate)
    (rest : list Candidate) (a : Assembly) (text : string) :
  truthy_text result = Some text → (50 ≤ Js.len text)%Z →
  hasRelevantContent entities text = true →
  addedCount a < maxResults →
  (currentLength a + Js.len text ≤ maxContextLength)%Z →
  assemble_loop entities a (result :: rest)
  = assemble_loop entities
      (append_piece a
         ((match relevantTexts a with
           | EmptyString => EmptyString
           | _ => nl2
           end) +:+ text) (Js.len text) 1) rest.
Proof.
  intros Htext Hlen Hrel Hcount Hroom. simpl.
  rewrite bool_decide_eq_false_2 by lia. rewrite Htext.
  rewrite bool_decide_eq_false_2 by lia. rewrite Hrel. simpl.
  by rewrite bool_decide_eq_false_2 by lia.
Qed.

Lemma assemble_loop_complete (entities : list string)
    (results : list Candidate) (a : Assembly) (texts0 : list string) :
  relevantTexts a = join_blank texts0 →
  (texts0 = [] ↔ relevantTexts a = EmptyString) →
  addedCount a + length (accepted_texts entities results) ≤ maxResults →
  (currentLength a + total_len (accepted_texts entities results)
   ≤ maxContextLength)%Z →
  relevantTexts (assemble_loop entities a results)
  = join_blank (texts0 ++ accepted_texts entities results) ∧
  addedCount (assemble_loop entities a results)
  = addedCount a + length (accepted_texts entities results) ∧
  currentLength (assemble_loop entities a results)
  = (currentLength a + total_len (accepted_texts entities results))%Z.
Proof.
  revert a texts0.
  induction results as [|result rest IH]; intros a texts0 Hjoin Hnil Hn Hl.
  { simpl. rewrite app_nil_r. split; [done|]. split; lia. }
  rewrite accepted_texts_cons in *.
  pose proof (total_len_nonneg (accepted_texts entities rest)) as Hpos.
  destruct (accepted entities result) eqn:Hacc.
  - destruct (accepted_inv _ _ Hacc) as (c & s & Htext & Htoe & Hlen & Hrel).
    rewrite Htoe in *.
    change (addedCount a + S (length (accepted_texts entities rest))
            ≤ maxResults) in Hn.
    change (currentLength a + (Js.len (String c s)
              + total_len (accepted_texts entities rest))
            ≤ maxContextLength)%Z in Hl.
    change (length (String c s :: accepted_texts entities rest))
      with (S (length (accepted_texts entities rest))).
    change (total_len (String c s :: accepted_texts entities rest))
      with (Js.len (String c s)
            + total_len (accepted_texts entities rest))%Z.
    rewrite (assemble_loop_take _ _ _ _ _ Htext Hlen Hrel) by lia.
    destruct (IH (append_piece a
               ((match relevantTexts a with
                 | EmptyString => EmptyString
                 | _ => nl2
                 end) +:+ String c s) (Js.len (String c s)) 1)
               (texts0 ++ [String c s]))
      as (Ht & Hc & Hcl);
      cbn [append_piece addedCount currentLength relevantTexts].
    + destruct texts0 as [|t0 texts0].
      * by rewrite join_blank_snoc, (proj1 Hnil eq_refl).
      * destruct (relevantTexts a) eqn:Hrt.
        { exfalso. assert (t0 :: texts0 = []) by (by apply Hnil). done. }
        by rewrite join_blank_snoc, <-Hjoin.
    + split; [by intros [_ ?]%app_eq_nil|].
      destruct (relevantTexts a); simpl; discriminate.
    + lia.
    + lia.
    + cbn [append_piece addedCount currentLength relevantTexts] in Hc, Hcl.
      rewrite <-app_assoc in Ht. split; [done|]. split; lia.
  - rewrite assemble_loop_skip by done.
    case_bool_decide as Hfull; [|by apply IH].
    destruct (accepted_texts entities rest); simpl in *; [|lia].
    rewrite app_nil_r. split; [done|]. split; lia.
Qed.

(** X6. For candidates whose [metadata.text] is a string or missing: when
    the accepted texts (at least 50 code units, mentioning an entity) are
    at most fifteen and their lengths add up to at most 6000, the context
    is all of them, in the order of the list, joined by blank lines;
    nothing is cut and nothing is left out. *)
Theorem assemble_complete_under_budget (unique : list Candidate)
    (entities : list string) :
  Forall string_text unique →
  length (accepted_texts entities unique) ≤ 15 →
  (total_len (accepted_texts entities unique) ≤ 6000)%Z →
  relevantTexts (assemble unique entities)
  = join_blank (accepted_texts entities unique) ∧
  addedCount (assemble unique entities)
  = length (accepted_texts entities unique) ∧
  currentLength (assemble unique entities)
  = total_len (accepted_texts entities unique).
Proof.
  intros _ Hn Hl.
  destruct (assemble_loop_complete entities unique assembly_start [])
    as (Ht & Hc & Hcl); [done | done | exact Hn | exact Hl |].
  fold (assemble unique entities) in Ht, Hc, Hcl.
  cbn [assembly_start addedCount currentLength] in Hc, Hcl.
  split; [exact Ht|]. split; [exact Hc | lia].
Qed.

Lemma assemble_complete_witness :
  relevantTexts
    (assemble [Script.candidate "c1" (9 # 10) Inputs.town;
               Script.candidate "c2" (8 # 10) "too short";
               Script.candidate "c3" (7 # 10) Inputs.town] ["population"])
  = Inputs.town +:+ nl2 +:+ Inputs.town.
Proof.
  refine (proj1 (assemble_complete_under_budget
            [Script.candidate "c1" (9 # 10) Inputs.town;
             Script.candidate "c2" (8 # 10) "too short";
             Script.candidate "c3" (7 # 10) Inputs.town] ["population"]
            _ _ _)); [|vm_compute; lia | by vm_compute].
  repeat (apply List.Forall_cons; [vm_compute; exact I|]).
  apply List.Forall_nil.
Defined.

(** ** Reranking *)

Lemma res_map_inv {A B : Type} (f : A → Res B) (l : list A) (l' : list B) :
  res_map f l = Ok l' → Forall2 (λ x y, f x = Ok y) l l'.
Proof.
  revert l'. induction l as [|x l IH]; intros l'; simpl.
  - intros [= <-]. constructor.
  - destruct (f x) as [y|] eqn:Hx; [|done]. simpl.
    destruct (res_map f l) as [ys|]; [|done]. simpl.
    intros [= <-]. constructor; [done | by apply IH].
Qed.

Lemma boost_inv `{Runtime} (entities : list string) (c0 c : Candidate) :
  boost entities c0 = Ok c →
  ∃ n, r_id c = r_id c0 ∧
       r_score c = boost_score (r_score c0) n ∧
       r_metadata c
       = <[ "boostedScore" := num_value (boost_score (r_score c0) n) ]>
           (<[ "entityScore" := VNum (inject_Z (Z.of_nat n)) ]>
              (r_metadata c0)).
Proof.
  unfold boost.
  destruct (count_entities 0 (lower_text c0) entities) as [n|]; [|done].
  simpl. intros [= <-]. by exists n.
Qed.

Lemma boost_score_not_below (score : option Q) (n : nat) :
  (score_or_0 score <= score_or_0 (boost_score score n))%Q.
Proof.
  destruct score as [q|]; simpl; [|apply Qle_refl].
  rewrite <-(Qplus_0_r q) at 1. apply Qplus_le_r.
  apply Qmult_le_0_compat; [|done].
  rewrite <-(Zle_Qle 0). lia.
Qed.

(** X7. Whatever the entities, when reranking returns it returns the same
    candidates in some order: the ids are a permutation of the ids given,
    every candidate keeps its id, its text and all its metadata but the two
    keys [entityScore] and [boostedScore], and no score is lowered.  With
    entities the result is sorted by descending score. *)
Theorem rerank_keeps_candidates `{Runtime} (results reranked : list Candidate)
    (entities : list string) :
  rerankByEntityOverlap results entities = Ok reranked →
  map r_id reranked ≡ₚ map r_id results ∧
  (entities ≠ [] → StronglySorted not_below reranked) ∧
  ∀ c, c ∈ reranked →
    ∃ c0, c0 ∈ results ∧ r_id c = r_id c0 ∧ text_of c = text_of c0 ∧
      (score_or_0 (r_score c0) <= score_or_0 (r_score c))%Q ∧
      ∀ key, key ≠ "entityScore" → key ≠ "boostedScore" →
             r_metadata c !! key = r_metadata c0 !! key.
Proof.
  unfold rerankByEntityOverlap. destruct entities as [|e entities].
  { intros [= <-]. split; [done|]. split; [done|]. intros c Hc.
    exists c. split; [done|]. split; [done|]. split; [done|].
    split; [apply Qle_refl | done]. }
  destruct (res_map (boost (e :: entities)) results) as [boosted|] eqn:Hmap;
    [|done].
  simpl. intros [= <-]. apply res_map_inv in Hmap.
  assert (∀ c, c ∈ boosted →
            ∃ c0, c0 ∈ results ∧ boost (e :: entities) c0 = Ok c) as Hsrc.
  { clear -Hmap. induction Hmap as [|c0 c l l' Hc _ IH].
    - by intros c ?%elem_of_nil.
    - intros c' [->|Hin]%elem_of_cons.
      + exists c0. split; [by left | done].
      + destruct (IH c' Hin) as (c1 & ? & ?). exists c1.
        split; [by right | done]. }
  split; [|split].
  - rewrite sort_desc_perm.
    clear -Hmap. induction Hmap as [|c0 c l l' Hc _ IH]; [done|].
    simpl. apply boost_inv in Hc as (n & -> & _). by rewrite IH.
  - intros _. apply sort_desc_sorted.
  - intros c Hc. rewrite sort_desc_perm in Hc.
    destruct (Hsrc c Hc) as (c0 & Hin & Hboost).
    apply boost_inv in Hboost as (n & Hid & Hscore & Hmeta).
    exists c0. split; [done|]. split; [done|].
    split; [|split].
    + unfold text_of. rewrite Hmeta.
      by rewrite !lookup_insert_ne by done.
    + rewrite Hscore. apply boost_score_not_below.
    + intros key Hk1 Hk2. rewrite Hmeta.
      by rewrite !lookup_insert_ne by done.
Qed.

Lemma rerank_keeps_candidates_witness :
  ∃ reranked,
    @rerankByEntityOverlap Inputs.empty_store [Inputs.node_chunk] ["Node.js"]
    = Ok reranked ∧
    map r_id reranked ≡ₚ map r_id [Inputs.node_chunk].
Proof.
  eexists. split; [reflexivity|].
  refine (proj1 (@rerank_keeps_candidates Inputs.empty_store
                   [Inputs.node_chunk] _ ["Node.js"] _)).
  reflexivity.
Defined.


Lemma lower_text_boosted (entities : list string) (c : Candidate) :
  lower_text (boosted entities c) = lower_text c.
Proof.
  unfold lower_text, text_of, boosted. simpl.
  by rewrite !lookup_insert_ne by done.
Qed.

(** X8. Reranking is not idempotent on scores: for candidates whose
    [metadata.text] is a string or missing and entities made of plain
    words, reranking the reranked list again boosts every candidate a second
    time, by the same number of occurrences, since the text is unchanged. *)
Theorem rerank_twice_boosts_twice `{Runtime} (results : list Candidate)
    (entities : list string) :
  Forall string_text results →
  entities ≠ [] → Forall plain_word entities →
  ∃ once twice,
    rerankByEntityOverlap results entities = Ok once ∧
    rerankByEntityOverlap once entities = Ok twice ∧
    twice ≡ₚ map (λ c, boosted entities (boosted entities c)) results ∧
    ∀ c, r_score (boosted entities (boosted entities c))
         = boost_score
             (boost_score (r_score c)
                          (total_occurrences entities (lower_text c)))
             (total_occurrences entities (lower_text c)).
Proof.
  intros _ Hne Hplain.
  assert (∀ l, rerankByEntityOverlap l entities
               = Ok (sort_desc (map (boosted entities) l))) as Hrun.
  { intros l. unfold rerankByEntityOverlap.
    destruct entities as [|e entities]; [done|].
    rewrite (res_map_ok _ (boosted (e :: entities))); [done|].
    intros x. by apply boost_plain. }
  exists (sort_desc (map (boosted entities) results)),
         (sort_desc (map (boosted entities)
                         (sort_desc (map (boosted entities) results)))).
  split; [apply Hrun|]. split; [apply Hrun|]. split.
  - rewrite sort_desc_perm.
    rewrite (fmap_Permutation (boosted entities) _ _ (sort_desc_perm _)).
    by rewrite <-list_fmap_compose.
  - intros c. simpl. by rewrite lower_text_boosted.
Qed.

Lemma rerank_twice_witness :
  ∃ once twice,
    @rerankByEntityOverlap Inputs.empty_store
      [Script.candidate "c2" (45 # 100) "the population grows"]
      ["population"] = Ok once ∧
    @rerankByEntityOverlap Inputs.empty_store once ["population"]
    = Ok twice ∧
    map (λ c, Qeq_bool (score_or_0 (r_score c)) (65 # 100)) twice = [true].
Proof.
  destruct (@rerank_twice_boosts_twice Inputs.empty_store
              [Script.candidate "c2" (45 # 100) "the population grows"]
              ["population"])
    as (once & twice & Hone & Htwo & _ & _).
  - apply List.Forall_cons; [vm_compute; exact I | apply List.Forall_nil].
  - done.
  - repeat constructor; done.
  - exists once, twice. split; [exact Hone|]. split; [exact Htwo|].
    vm_compute in Hone. injection Hone as <-.
    vm_compute in Htwo. injection Htwo as <-. reflexivity.
Defined.

(** ** Calls of the entity-expansion search *)

Lemma calls_of_app (k : Kind) (n1 n2 : list Event) :
  calls_of k (n1 ++ n2) = calls_of k n1 + calls_of k n2.
Proof. unfold calls_of. by rewrite List.filter_app, length_app. Qed.

Lemma calls_of_query (new : list Event) :
  calls_of KQuery new = query_count new.
Proof.
  induction new as [|e new IH]; [done|].
  destruct e; unfold calls_of in *; simpl; by rewrite ?IH.
Qed.

Lemma expansion_event_kinds (ents : list string) (depth : Q)
    (new : list Event) :
  Forall (expansion_event ents depth) new →
  calls_of KUpsert new = 0 ∧ calls_of KTools new = 0 ∧
  calls_of KSearch new = 0.
Proof.
  induction 1 as [|e new He _ IH]; [done|].
  destruct e; try done; unfold calls_of in *; simpl; done.
Qed.

Section SearchCalls.
Context `{Runtime}.

Lemma spec_search_entity_calls (initialResults : list Candidate) (depth : Q)
    (entity : string) :
  spec (search_entity initialResults depth entity)
       (λ l r l' new, ∃ added, l' = l ++ added ∧
          loop_post initialResults depth [entity] added new).
Proof.
  unfold loop_post. destruct (skipped entity) eqn:Hskip.
  - unfold search_entity. unfold skipped in Hskip. rewrite Hskip.
    eapply spec_weaken; [apply spec_ret|]. simpl.
    intros l r l' new (-> & -> & ->). exists []. rewrite app_nil_r.
    split; [done|]. split; [constructor|]. split; [done|].
    split; [unfold calls_of; simpl; lia|]. by intros c ?%elem_of_nil.
  - rewrite filter_cons_True by done. rewrite filter_nil.
    unfold search_entity. unfold skipped in Hskip. rewrite Hskip.
    eapply spec_weaken.
    + apply spec_bind; [apply spec_external|]. intros embeddings.
      apply spec_bind; [apply spec_external|]. intros entityResults.
      apply (spec_weaken _ (λ l r l' new,
        new = [] ∧ ∃ added, l' = l ++ added ∧
        ∀ c, c ∈ added →
             ∃ hits hit, entityResults = Some hits ∧ hit ∈ hits ∧
                         kept initialResults entity hit c)
        (λ l r l' new,
        new = [] ∧ ∃ added, l' = l ++ added ∧
        ∀ c, c ∈ added →
             ∃ hits hit, entityResults = Some hits ∧ hit ∈ hits ∧
                         kept initialResults entity hit c)); [|done].
      destruct entityResults as [hits|].
      * eapply spec_weaken; [apply spec_add_related|]. simpl.
        intros l r l' new (-> & added & -> & Hadded). split; [done|].
        exists added. split; [done|]. intros c Hc.
        destruct (Hadded c Hc) as (hit & ? & ?). by exists hits, hit.
      * eapply spec_weaken; [apply spec_throw|]. simpl.
        intros l r l' new (-> & -> & ->). split; [done|].
        exists []. rewrite app_nil_r. split; [done|].
        by intros c ?%elem_of_nil.
    + simpl. unfold seq_post.
      assert (∀ reply, expansion_event [entity] depth
                (EvEmbed [entity] reply)) as Hembed.
      { intros reply. exists entity.
        split; [by apply list_elem_of_singleton | done]. }
      intros l r l' new [(message & -> & -> & ->)|Hok].
      { exists []. rewrite app_nil_r. split; [done|].
        split; [repeat (constructor; [first [apply Hembed | done]|]);
                 constructor|].
        split; [unfold calls_of; simpl; lia|].
        split; [unfold calls_of; simpl; lia|]. by intros c ?%elem_of_nil. }
      destruct Hok as (embeddings & l1 & n1 & n2 & (-> & ->) & Hrest & ->).
      destruct Hrest as [(message & -> & -> & ->)|Hok].
      { exists []. rewrite app_nil_r. split; [done|].
        split; [repeat (constructor; [first [apply Hembed | done]|]);
                 constructor|].
        split; [unfold calls_of; simpl; lia|].
        split; [unfold calls_of; simpl; lia|]. by intros c ?%elem_of_nil. }
      destruct Hok as (er & l2 & n3 & n4 & (-> & ->) & Hloop & ->).
      destruct Hloop as (-> & added & -> & Hadded).
      exists added. split; [done|].
      split; [repeat (constructor; [first [apply Hembed | done]|]);
                 constructor|].
      split; [unfold calls_of; simpl; lia|].
      split; [unfold calls_of; simpl; lia|].
      intros c Hc. destruct (Hadded c Hc) as (hits & hit & -> & Hhit & Hk).
      by apply (kept_expanded _ _ _ _ hits hit).
Qed.

Lemma spec_search_loop_calls (initialResults : list Candidate) (depth : Q)
    (ents : list string) :
  spec (for_each ents (search_entity initialResults depth))
       (λ l r l' new, ∃ added, l' = l ++ added ∧
          loop_post initialResults depth ents added new).
Proof.
  eapply spec_weaken.
  - apply (spec_for_each ents (search_entity initialResults depth)
      (λ past l0 l n, ∃ added, l = l0 ++ added ∧
         loop_post initialResults depth past added n)).
    + intros l. exists []. rewrite app_nil_r. split; [done|].
      split; [constructor|]. split; [done|]. split; [done|].
      by intros c ?%elem_of_nil.
    + intros past entity _.
      eapply spec_weaken; [apply spec_search_entity_calls|]. simpl.
      intros l r l' new (added & -> & Hev & Hqe & He & Hadded) l0 n0
             (added0 & -> & Hev0 & Hqe0 & He0 & Hadded0).
      exists (added0 ++ added). split; [by rewrite app_assoc|].
      unfold loop_post. rewrite filter_app.
      split; [|split; [|split]].
      * apply Forall_app. split.
        -- eapply Forall_impl; [exact Hev0|]. intros e.
           apply expansion_event_mono. set_solver.
        -- eapply Forall_impl; [exact Hev|]. intros e.
           apply expansion_event_mono. set_solver.
      * rewrite !calls_of_app. lia.
      * rewrite calls_of_app, length_app. lia.
      * intros c [Hc|Hc]%elem_of_app.
        -- apply (expanded_from_mono _ _
                    (filter (λ e, skipped e = false) past) _ [] n0 new);
             [set_solver|].
           by apply Hadded0.
        -- rewrite <-(app_nil_r new).
           apply (expanded_from_mono _ _
                    (filter (λ e, skipped e = false) [entity]) _ n0 new []);
             [set_solver|].
           by apply Hadded.
  - simpl. intros l r l' new (past & [rest ->] & Hinv & _).
    destruct Hinv as (added & -> & Hev & Hqe & He & Hadded).
    exists added. split; [done|]. unfold loop_post. rewrite filter_app.
    split; [|split; [|split]].
    + eapply Forall_impl; [exact Hev|]. intros e.
      apply expansion_event_mono. set_solver.
    + done.
    + rewrite length_app. lia.
    + intros c Hc. rewrite <-(app_nil_r new).
      apply (expanded_from_mono _ _
               (filter (λ e, skipped e = false) past) _ [] new []);
        [set_solver|].
      by apply Hadded.
Qed.

Lemma spec_performEntitySearch_calls {L : Type} (entities : list string)
    (initialResults : list Candidate) (depth : Q) :
  spec (performEntitySearch entities initialResults depth
          : M L (list Candidate))
       (λ l r l' new, l' = l ∧ ∃ out, r = Ok out ∧
          loop_post initialResults depth (take 3 entities) out new).
Proof.
  unfold performEntitySearch.
  eapply spec_weaken.
  - apply spec_call. apply spec_bind.
    + apply spec_try_catch; [apply spec_search_loop_calls|].
      intros message. apply spec_ret.
    + intros u. apply spec_get.
  - simpl. unfold seq_post, catch_post.
    intros l r l' new (-> & frame & Hrun). split; [done|].
    destruct Hrun as [(message & -> & Hcatch)|Hok].
    { destruct Hcatch as [(a & ? & _)|Hthrown]; [done|].
      by destruct Hthrown as (? & ? & ? & ? & _ & (? & _) & _). }
    destruct Hok as (u & l1 & n1 & n2 & Hcatch & (-> & -> & ->) & ->).
    rewrite app_nil_r. exists l1. split; [done|].
    destruct Hcatch as [(a & _ & (added & -> & Hpost))|Hthrown]; [done|].
    destruct Hthrown as (message & l2 & n3 & n4 & (added & -> & Hpost)
                         & (_ & -> & ->) & ->).
    by rewrite app_nil_r.
Qed.

(** X9. The entity-expansion search calls the embedder and the store only
    for those of the first three entities that are not common words, once
    each at most and never the store without the embedder first; every
    candidate it returns names one of these entities.  When the first three
    entities are all common words it makes no call and returns nothing. *)
Theorem performEntitySearch_skips_common_words {L : Type}
    (entities : list string) (initialResults : list Candidate) (depth : Q)
    (l : L) (s : Sys) :
  ∃ out s' new,
    performEntitySearch entities initialResults depth l s = (Ok out, l, s') ∧
    calls s' = calls s ++ new ∧
    (∀ e, e ∈ new →
       match e with
       | EvEmbed values _ =>
           ∃ entity, entity ∈ searchable entities ∧ values = [entity]
       | EvQuery _ _ _ => True
       | _ => False
       end) ∧
    calls_of KQuery new ≤ calls_of KEmbed new ∧
    calls_of KEmbed new ≤ length (searchable entities) ∧
    (∀ c, c ∈ out →
       ∃ entity, entity ∈ searchable entities ∧
                 r_metadata c !! "entity" = Some (VStr entity)) ∧
    (searchable entities = [] → new = [] ∧ out = []).
Proof.
  destruct (spec_performEntitySearch_calls entities initialResults depth l s)
    as (r & l' & s' & new & Hrun & Hcalls & -> & out & -> & Hpost).
  destruct Hpost as (Hev & Hqe & He & Hout).
  change (filter (λ e, skipped e = false) (take 3 entities))
    with (searchable entities) in Hev, He, Hout.
  exists out, s', new. split; [done|]. split; [done|].
  split; [|split; [done|split; [done|split]]].
  - intros e Hin. rewrite Forall_forall in Hev. specialize (Hev e Hin).
    by destruct e.
  - intros c Hc.
    destruct (Hout c Hc) as (entity & ? & ? & ? & ? & ? & ? & Hin & Hrest).
    exists entity. split; [done|]. apply Hrest.
  - intros Hnone. rewrite Hnone in *. split.
    + destruct new as [|e new]; [done|].
      apply Forall_cons in Hev as [He' _]. destruct e; try done.
      * destruct He' as (entity & ?%elem_of_nil & _). done.
      * unfold calls_of in Hqe, He. simpl in Hqe, He. lia.
    + destruct out as [|c out]; [done|].
      destruct (Hout c) as (entity & ? & ? & ? & ? & ? & ? & Hin & _);
        [by left|].
      by apply elem_of_nil in Hin.
Qed.

End SearchCalls.

Lemma performEntitySearch_skips_witness :
  searchable ["with"; "the"; "and"; "population"] = [] ∧
  (@performEntitySearch Inputs.two_paths unit
     ["with"; "the"; "and"; "population"] [] 2 tt
     (Script.start Inputs.two_paths 0)).1.1 = Ok [].
Proof.
  split; [reflexivity|].
  destruct (@performEntitySearch_skips_common_words Inputs.two_paths unit
              ["with"; "the"; "and"; "population"] [] 2 tt
              (Script.start Inputs.two_paths 0))
    as (out & s' & new & Hrun & _ & _ & _ & _ & _ & Hnone).
  rewrite Hrun. simpl. f_equal. apply Hnone. reflexivity.
Defined.

(** ** The web-search block *)

Section WebSearch.
Context `{Runtime}.

Lemma spec_map_m {L A B : Type} (f : A → M L B) (R : A → B → Prop)
    (items : list A) :
  (∀ x, spec (f x) (λ l r l' new,
          l' = l ∧ new = [] ∧ ∃ y, r = Ok y ∧ R x y)) →
  spec (map_m f items)
       (λ l r l' new, l' = l ∧ new = [] ∧ ∃ ys, r = Ok ys ∧ Forall2 R items ys).
Proof.
  intros Hf. induction items as [|x items IH]; simpl.
  - eapply spec_weaken; [apply spec_ret|]. simpl.
    intros l r l' new (-> & -> & ->). split; [done|]. split; [done|].
    exists []. split; [done | constructor].
  - eapply spec_weaken.
    + apply spec_bind; [apply Hf|]. intros y.
      apply spec_bind; [apply IH|]. intros ys. apply spec_ret.
    + simpl. unfold seq_post.
      intros l r l' new [(message & -> & _ & _ & ? & ? & _)|Hok]; [done|].
      destruct Hok as (y & l1 & n1 & n2 & (-> & -> & y' & [= <-] & Hy)
                       & Hrest & ->).
      destruct Hrest as [(message & -> & _ & _ & ? & ? & _)|Hok]; [done|].
      destruct Hok as (ys & l2 & n3 & n4 & (-> & -> & ys' & [= <-] & Hys)
                       & (-> & -> & ->) & ->).
      split; [done|]. split; [done|]. exists (y :: ys).
      split; [done | by constructor].
Qed.

Lemma spec_webDocument {L : Type} (query : string) (result : WebResult) :
  spec (webDocument query result : M L WebDocument)
       (λ l r l' new, l' = l ∧ new = [] ∧
                      ∃ doc, r = Ok doc ∧ web_doc query result doc).
Proof.
  unfold webDocument. eapply spec_weaken.
  - apply spec_bind; [apply spec_ambient|]. intros now.
    apply spec_bind; [apply spec_ambient|]. intros random.
    apply spec_bind; [apply spec_ambient|]. intros timestamp.
    apply spec_ret.
  - simpl. unfold seq_post.
    intros l r l' new [(message & -> & (? & ?) & _)|Hok]; [done|].
    destruct Hok as (now & l1 & n1 & n2 & (_ & -> & ->) & Hrest & ->).
    destruct Hrest as [(message & -> & (? & ?) & _)|Hok]; [done|].
    destruct Hok as (random & l2 & n3 & n4 & (_ & -> & ->) & Hrest & ->).
    destruct Hrest as [(message & -> & (? & ?) & _)|Hok]; [done|].
    destruct Hok as (stamp & l3 & n5 & n6 & (_ & -> & ->) & Hret & ->).
    destruct Hret as (-> & -> & ->).
    split; [done|]. split; [done|]. eexists. split; [done|].
    unfold web_doc. simpl. repeat split; by simplify_map_eq.
Qed.

Lemma spec_webSearch (query : string) (topK : Q)
    (queryEmbedding : option Embedding) :
  spec (webSearch query topK queryEmbedding)
       (λ l r l' new, r = Ok tt ∧ web_post query topK queryEmbedding l l' new).
Proof.
  unfold webSearch. eapply spec_weaken.
  - apply spec_try_catch; [|intros message; apply spec_ret].
    apply spec_bind; [apply spec_external|]. intros tools.
    apply (spec_weaken _
      (λ l r l' new,
         (r ≠ Ok tt ∧ l' = l ∧
          (new = [] ∨ ∃ tool, new = [EvSearch tool query 5])) ∨
         (r = Ok tt ∧ l' = l ∧ ∃ tool, new = [EvSearch tool query 5]) ∨
         (∃ tool results docs rest,
            results ≠ [] ∧ Forall2 (web_doc query) results docs ∧
            new = EvSearch tool query 5 :: rest ∧
            l_webSearchUsed l' = true ∧ l_webSearchResults l' = results ∧
            storing docs queryEmbedding topK (l_initialResults l)
                    (l_initialResults l') rest))
      (λ l r l' new,
         (r ≠ Ok tt ∧ l' = l ∧
          (new = [] ∨ ∃ tool, new = [EvSearch tool query 5])) ∨
         (r = Ok tt ∧ l' = l ∧ ∃ tool, new = [EvSearch tool query 5]) ∨
         (∃ tool results docs rest,
            results ≠ [] ∧ Forall2 (web_doc query) results docs ∧
            new = EvSearch tool query 5 :: rest ∧
            l_webSearchUsed l' = true ∧ l_webSearchResults l' = results ∧
            storing docs queryEmbedding topK (l_initialResults l)
                    (l_initialResults l') rest))); [|done].
    destruct (List.find is_search_tool tools) as [tool|].
    2: { eapply spec_weaken; [apply spec_throw|]. simpl.
         intros l r l' new (-> & -> & ->). left. split; [done|]. auto. }
    eapply spec_weaken.
    + apply spec_bind; [apply spec_external|]. intros searchResult.
      apply (spec_weaken _
        (λ l r l' new,
           (r = Ok tt ∧ l' = l ∧ new = []) ∨
           (∃ results docs,
              results ≠ [] ∧ Forall2 (web_doc query) results docs ∧
              l_webSearchUsed l' = true ∧ l_webSearchResults l' = results ∧
              storing docs queryEmbedding topK (l_initialResults l)
                      (l_initialResults l') new))
        (λ l r l' new,
           (r = Ok tt ∧ l' = l ∧ new = []) ∨
           (∃ results docs,
              results ≠ [] ∧ Forall2 (web_doc query) results docs ∧
              l_webSearchUsed l' = true ∧ l_webSearchResults l' = results ∧
              storing docs queryEmbedding topK (l_initialResults l)
                      (l_initialResults l') new))); [|done].
      destruct searchResult as [[|wr wrs]|].
      1, 3: eapply spec_weaken; [apply spec_ret|]; simpl;
            intros l r l' new (-> & -> & ->); by left.
      eapply spec_weaken.
      * apply spec_bind; [apply spec_modify|]. intros u.
        apply spec_bind; [apply (spec_map_m _ (web_doc query));
                          intros x; apply spec_webDocument|].
        intros docs.
        apply spec_bind; [apply spec_external|]. intros embeddings.
        apply spec_bind; [apply spec_external|]. intros u'.
        apply spec_bind; [apply spec_external|]. intros updatedResults.
        apply (spec_weaken _
          (λ l r l' new, new = [] ∧
             l_webSearchUsed l' = l_webSearchUsed l ∧
             l_webSearchResults l' = l_webSearchResults l ∧
             l_initialResults l'
             = match updatedResults with
               | Some (u :: us) => Some (u :: us)
               | _ => l_initialResults l
               end)
          (λ l r l' new, new = [] ∧
             l_webSearchUsed l' = l_webSearchUsed l ∧
             l_webSearchResults l' = l_webSearchResults l ∧
             l_initialResults l'
             = match updatedResults with
               | Some (u :: us) => Some (u :: us)
               | _ => l_initialResults l
               end)); [|done].
        destruct updatedResults as [[|u0 us]|].
        1, 3: eapply spec_weaken; [apply spec_ret|]; simpl;
              by intros l r l' new (-> & -> & ->).
        eapply spec_weaken; [apply spec_modify|]. simpl.
        by intros l r l' new (-> & -> & ->).
      * simpl. unfold seq_post.
        intros l r l' new [(message & -> & ? & _)|Hok]; [done|].
        destruct Hok as (u & l1 & n1 & n2 & (_ & -> & ->) & Hrest & ->).
        destruct Hrest as [(message & -> & _ & _ & ? & ? & _)|Hok]; [done|].
        destruct Hok as (docs & l2 & n3 & n4 & (-> & -> & docs' & [= <-] & Hd)
                         & Hrest & ->).
        right. exists (wr :: wrs), docs. split; [done|]. split; [done|].
        destruct Hrest as [(message & -> & -> & ->)|Hok].
        { split; [done|]. split; [done|]. left. by exists message. }
        destruct Hok as (emb & l3 & n5 & n6 & (-> & ->) & Hrest & ->).
        destruct Hrest as [(message & -> & -> & ->)|Hok].
        { split; [done|]. split; [done|]. right. left.
          by exists emb, message. }
        destruct Hok as ([] & l4 & n7 & n8 & (-> & ->) & Hrest & ->).
        destruct Hrest as [(message & -> & -> & ->)|Hok].
        { split; [done|]. split; [done|]. right. right.
          by exists emb, (Throw message). }
        destruct Hok as (upd & l5 & n9 & n10 & (-> & ->) & Hlast & ->).
        destruct Hlast as (-> & Hu & Hr & Hi). simpl in *.
        split; [done|]. split; [done|]. right. right.
        exists emb, (Ok upd). split; [done|]. rewrite Hi.
        by destruct upd as [[|? ?]|].
    + simpl. unfold seq_post.
      intros l r l' new [(message & -> & -> & ->)|Hok].
      { left. split; [done|]. split; [done|]. right. by eexists. }
      destruct Hok as (sr & l1 & n1 & n2 & (-> & ->) & Hrest & ->).
      destruct Hrest as [(-> & -> & ->)|(results & docs & Hrest)].
      * right. left. split; [done|]. split; [done|]. by eexists.
      * right. right. eexists _, results, docs, n2.
        destruct Hrest as (? & ? & ? & ? & ?). done.
  - simpl. unfold catch_post, seq_post, web_post.
    assert (∀ l r l' n2 (P : Prop),
      ((r ≠ Ok tt ∧ l' = l ∧
        (n2 = [] ∨ ∃ tool, n2 = [EvSearch tool query 5])) ∨
       (r = Ok tt ∧ l' = l ∧ ∃ tool, n2 = [EvSearch tool query 5]) ∨
       (∃ tool results docs rest,
          results ≠ [] ∧ Forall2 (web_doc query) results docs ∧
          n2 = EvSearch tool query 5 :: rest ∧
          l_webSearchUsed l' = true ∧ l_webSearchResults l' = results ∧
          storing docs queryEmbedding topK (l_initialResults l)
                  (l_initialResults l') rest)) →
      web_post query topK queryEmbedding l l' (EvGetTools :: n2)) as Hshape.
    { intros l r l' n2 _ [(_ & -> & [->|[tool ->]])|[(_ & -> & [tool ->])|Hfound]].
      - left. split; [done|]. by left.
      - left. split; [done|]. right. by exists tool.
      - left. split; [done|]. right. by exists tool.
      - right. destruct Hfound as (tool & results & docs & rest & ? & ? & -> & ?).
        by exists tool, results, docs, rest. }
    intros l r l' new [(a & -> & Hbody)|Hthrown].
    + destruct a. split; [done|].
      destruct Hbody as [(? & ? & _)|Hok]; [done|].
      destruct Hok as (tools & l1 & n1 & n2 & (-> & ->) & Hrest & ->).
      by apply (Hshape _ (Ok tt) _ _ True).
    + destruct Hthrown as (message & l1 & n1 & n2 & Hbody & (-> & -> & ->) & ->).
      rewrite app_nil_r. split; [done|].
      destruct Hbody as [(m & [= <-] & -> & ->)|Hok].
      { left. split; [done|]. by left. }
      destruct Hok as (tools & l2 & n3 & n4 & (-> & ->) & Hrest & ->).
      by apply (Hshape _ (Throw message) _ _ True).
Qed.

End WebSearch.

(** ** The calls of a whole run *)

Lemma rerank_length `{Runtime} (results reranked : list Candidate)
    (entities : list string) :
  rerankByEntityOverlap results entities = Ok reranked →
  length reranked = length results.
Proof.
  unfold rerankByEntityOverlap. destruct entities as [|e entities].
  { by intros [= <-]. }
  destruct (res_map (boost (e :: entities)) results) as [boosted|] eqn:Hmap;
    [|done].
  simpl. intros [= <-]. apply res_map_inv, Forall2_length in Hmap.
  by rewrite sort_desc_perm.
Qed.

Section RunCalls.
Context `{Runtime}.

Lemma spec_respond_calls (context : ToolContext) (l0 : Locals) :
  spec (respond context l0)
       (λ l r l' new, l' = l ∧ respond_post context l0 r new).
Proof.
  unfold respond, respond_post.
  destruct (l_initialResults l0) as [[|c initialResults]|] eqn:Hinit.
  1, 3: eapply spec_weaken; [apply spec_ret|]; simpl;
        by intros l r l' new (-> & -> & ->).
  set (initial := c :: initialResults).
  set (ents := extractEntities (query context) initial).
  eapply spec_weaken.
  - apply spec_bind.
    + apply (spec_weaken _
        (λ l r l' new, l' = l ∧ ∃ out, r = Ok out ∧
           if useEntityEnhancement context && bool_decide (0 < length ents)
           then loop_post initial (entityDepth context) (take 3 ents) out new
           else new = [] ∧ out = [])
        (λ l r l' new, l' = l ∧ ∃ out, r = Ok out ∧
           if useEntityEnhancement context && bool_decide (0 < length ents)
           then loop_post initial (entityDepth context) (take 3 ents) out new
           else new = [] ∧ out = [])); [|done].
      destruct (useEntityEnhancement context &&
                bool_decide (0 < length ents)).
      * apply spec_performEntitySearch_calls.
      * eapply spec_weaken; [apply spec_ret|]. simpl.
        intros l r l' new (-> & -> & ->). split; [done|]. by exists [].
    + intros entityResults. apply spec_bind; [apply spec_lift_res|].
      intros rerankedResults. apply spec_ret.
  - simpl. unfold seq_post.
    intros l r l' new [(message & -> & -> & out & ? & _)|Hok]; [done|].
    destruct Hok as (entityResults & l1 & n1 & n2 & (-> & out & [= <-] & Hloop)
                     & Hrest & ->).
    assert (∀ x, x = rerankByEntityOverlap
                       match entityResults with
                       | [] => initial
                       | _ => initial ++ entityResults
                       end ents →
                 rerankByEntityOverlap (initial ++ entityResults) ents = x)
      as Henh.
    { intros x ->. by destruct entityResults; rewrite ?app_nil_r. }
    destruct Hrest as [(message & -> & Hres & -> & ->)|Hok].
    { rewrite app_nil_r. split; [done|]. exists entityResults.
      split; [done|]. apply Henh in Hres. subst initial ents.
      simpl in Hres |- *. by rewrite Hres. }
    destruct Hok as (reranked & l2 & n3 & n4 & (Hres & -> & ->) & Hret & ->).
    destruct Hret as (-> & -> & ->). rewrite !app_nil_r.
    split; [done|]. exists entityResults. split; [done|].
    apply Henh in Hres. subst initial ents.
    simpl in Hres |- *. rewrite Hres.
    eexists. split; [done|]. done.
Qed.

Lemma spec_execute_try_calls (context : ToolContext) (pgVector : bool) :
  spec (execute_try context pgVector) (try_run context pgVector).
Proof.
  unfold execute_try, try_run. destruct pgVector; simpl.
  2: { eapply spec_weaken; [apply spec_throw|]. simpl.
       intros l r l' new (-> & -> & ->). eauto. }
  eapply spec_weaken.
  - apply spec_bind; [apply spec_external|]. intros embeddings.
    apply spec_bind; [apply spec_external|]. intros first.
    apply spec_bind; [apply spec_modify|]. intros u.
    apply (spec_bind _ _
      (λ l r l' new, r = Ok tt ∧
         if hasSufficientLocalResults first
         then new = [] ∧ l' = l
         else web_post (query context) (topK context) (head embeddings)
                       l l' new)).
    + destruct (hasSufficientLocalResults first) eqn:Hgate.
      * eapply spec_weaken; [apply spec_ret|]. simpl.
        by intros l r l' new (-> & -> & ->).
      * apply spec_webSearch.
    + intros u'. apply spec_bind; [apply spec_get|]. intros l0.
      apply spec_respond_calls.
  - simpl. unfold seq_post.
    intros l r l' new [(message & -> & -> & ->)|Hok].
    { left. by exists message. }
    destruct Hok as (embeddings & l1 & n1 & n2 & (-> & ->) & Hrun & ->).
    destruct Hrun as [(message & -> & -> & ->)|Hok].
    { right. left. by exists embeddings, message. }
    destruct Hok as (first & l2 & n3 & n4 & (-> & ->) & Hrun & ->).
    destruct Hrun as [(? & ? & ? & ? & ?)|Hok]; [done|].
    destruct Hok as (u & l3 & n5 & n6 & (_ & -> & ->) & Hrun & ->).
    destruct Hrun as [(message & -> & ? & _)|Hok]; [done|].
    destruct Hok as (u' & l4 & n7 & n8 & (_ & Hweb) & Hrun & ->).
    destruct Hrun as [(? & ? & ? & ? & ?)|Hok]; [done|].
    destruct Hok as (l0 & l5 & n9 & n10 & ([= <-] & -> & ->) & Hresp & ->).
    destruct Hresp as (-> & Hresp). simpl.
    right. right. exists embeddings, first, n7, n10. split; [done|].
    split; [|done].
    destruct (hasSufficientLocalResults first); [|done].
    by destruct Hweb as (-> & ->).
Qed.

Lemma spec_execute_calls (context : ToolContext) (pgVector : bool) :
  spec (execute context pgVector) (execute_run context pgVector).
Proof.
  unfold execute. eapply spec_weaken.
  - apply spec_try_catch; [apply spec_execute_try_calls|].
    intros message. apply spec_ret.
  - simpl. unfold catch_post, execute_run.
    intros l r l' new [(res & -> & Hrun)|Hthrown].
    + by exists (Ok res).
    + destruct Hthrown as (message & l1 & n1 & n2 & Hrun
                           & (-> & -> & ->) & ->).
      rewrite app_nil_r. by exists (Throw message).
Qed.

End RunCalls.

(** ** What a run calls and what it reports *)

Lemma with_vector_contents (embeddings : list Embedding)
    (docs : list WebDocument) :
  map d_content (imap (with_vector embeddings) docs) = map d_content docs.
Proof.
  apply list_eq. intros i.
  rewrite !list_lookup_fmap, list_lookup_imap.
  by destruct (docs !! i).
Qed.

Lemma storing_kinds (docs : list WebDocument) (v : option Embedding)
    (topK : Q) (initial initial' : option (list Candidate))
    (rest : list Event) :
  storing docs v topK initial initial' rest →
  map kind_of rest `prefix_of` [KEmbed; KUpsert; KQuery] ∧
  calls_of KEmbed rest = 1.
Proof.
  intros [(m & -> & _)|[(e & m & -> & _)|(e & reply & -> & _)]];
    (split; [|done]); simpl.
  - by exists [KUpsert; KQuery].
  - by exists [KQuery].
  - by exists [].
Qed.

Lemma web_post_kinds (query : string) (topK : Q) (v : option Embedding)
    (l l' : Locals) (new : list Event) :
  web_post query topK v l l' new →
  map kind_of new `prefix_of` [KTools; KSearch; KEmbed; KUpsert; KQuery].
Proof.
  intros [(_ & [->|[tool ->]])|Hfound]; simpl.
  - by exists [KSearch; KEmbed; KUpsert; KQuery].
  - by exists [KEmbed; KUpsert; KQuery].
  - destruct Hfound as (tool & results & docs & rest & _ & _ & -> & _ & _ & Hst).
    apply storing_kinds in Hst as [[k Hk] _]. simpl.
    exists k. by rewrite Hk.
Qed.

Lemma prefix_calls (new : list Event) :
  map kind_of new `prefix_of` [KTools; KSearch; KEmbed; KUpsert; KQuery] →
  calls_of KTools new ≤ 1 ∧ calls_of KSearch new ≤ 1 ∧
  calls_of KEmbed new ≤ 1 ∧ calls_of KUpsert new ≤ 1 ∧
  calls_of KQuery new ≤ 1.
Proof.
  intros [k Hk]. unfold calls_of.
  repeat (destruct new as [|[] new]; simplify_eq/=; try (simpl; lia)).
Qed.

(** X10.  The web-search block never throws, whatever its collaborators
    do.  Its calls are an initial part of: tool lookup, search, embedding,
    upsert, repeated query.  When it embeds nothing it leaves the variables
    of [execute] as they were; once it embeds, the web results are reported
    (even if storing them fails); and [initialResults] changes only to a
    non-empty reply of the repeated query, made with [topK + 5]. *)
Theorem webSearch_degrades_gracefully `{Runtime} (query : string) (topK : Q)
    (queryEmbedding : option Embedding) (l : Locals) (s : Sys) :
  ∃ l' s' new,
    webSearch query topK queryEmbedding l s = (Ok tt, l', s') ∧
    calls s' = calls s ++ new ∧
    map kind_of new `prefix_of` [KTools; KSearch; KEmbed; KUpsert; KQuery] ∧
    (calls_of KEmbed new = 0 → l' = l) ∧
    (calls_of KEmbed new = 1 →
       l_webSearchUsed l' = true ∧ l_webSearchResults l' ≠ []) ∧
    (l_initialResults l' = l_initialResults l ∨
     ∃ u us, l_initialResults l' = Some (u :: us) ∧
             last new = Some (EvQuery queryEmbedding (topK + 5)
                                      (Ok (Some (u :: us))))).
Proof.
  destruct (spec_webSearch query topK queryEmbedding l s)
    as (r & l' & s' & new & Hrun & Hcalls & -> & Hweb).
  exists l', s', new. split; [done|]. split; [done|].
  split; [by eapply web_post_kinds|].
  destruct Hweb as [(-> & Hnew)|Hfound].
  { split; [done|]. split; [|by left].
    by destruct Hnew as [->|[tool ->]]. }
  destruct Hfound as (tool & results & docs & rest & Hne & _ & -> & Hused
                      & Hres & Hst).
  pose proof (storing_kinds _ _ _ _ _ _ Hst) as [_ Hone].
  split; [|split].
  - unfold calls_of in *. simpl in *. lia.
  - intros _. by rewrite Hres.
  - destruct Hst as [(m & -> & ->)|[(e & m & -> & ->)|(e & reply & -> & ->)]];
      [by left.. |].
    destruct reply as [[[|u us]|]|]; try by left.
    right. by exists u, us.
Qed.

(** X11.  Whatever the web-search block upserts is the web results it
    reports: one document per reported result, in the same order, with the
    content and metadata built from that result and the original query,
    and with the vector that the embedder returned at the same position for
    the contents of these documents. *)
Theorem webSearch_upserts_reported_results `{Runtime} (query : string)
    (topK : Q) (queryEmbedding : option Embedding) (l : Locals) (s : Sys) :
  ∃ r l' s' new,
    webSearch query topK queryEmbedding l s = (r, l', s') ∧
    calls s' = calls s ++ new ∧
    ∀ request reply, EvUpsert request reply ∈ new →
      ∃ stored embeddings,
        request = UpsertDocuments stored ∧
        EvEmbed (map d_content stored) (Ok embeddings) ∈ new ∧
        l_webSearchUsed l' = true ∧
        length stored = length (l_webSearchResults l') ∧
        ∀ i result, l_webSearchResults l' !! i = Some result →
          ∃ doc, stored !! i = Some doc ∧ web_doc query result doc ∧
                 d_vector doc = embeddings !! i.
Proof.
  destruct (spec_webSearch query topK queryEmbedding l s)
    as (r & l' & s' & new & Hrun & Hcalls & -> & Hweb).
  exists (Ok tt), l', s', new. split; [done|]. split; [done|].
  intros request reply Hin.
  destruct Hweb as [(-> & Hnew)|Hfound].
  { destruct Hnew as [->|[tool ->]]; set_solver. }
  destruct Hfound as (tool & results & docs & rest & Hne & Hdocs & -> & Hused
                      & Hres & Hst).
  assert (∃ embeddings,
            EvUpsert request reply
            = EvUpsert (UpsertDocuments (imap (with_vector embeddings) docs))
                       reply ∧
            EvEmbed (map d_content docs) (Ok embeddings) ∈ rest)
    as (embeddings & [= ->] & Hemb).
  { destruct Hst as [(m & -> & _)|[(e & m & -> & _)|(e & rp & -> & _)]].
    - set_solver.
    - exists e. apply elem_of_cons in Hin as [?|Hin]; [done|].
      apply elem_of_cons in Hin as [?|Hin]; [done|].
      apply elem_of_cons in Hin as [?|Hin]; [done|].
      apply elem_of_cons in Hin as [Heq|Hin]; [|set_solver].
      injection Heq as -> ->. split; [done | by left].
    - exists e. apply elem_of_cons in Hin as [?|Hin]; [done|].
      apply elem_of_cons in Hin as [?|Hin]; [done|].
      apply elem_of_cons in Hin as [?|Hin]; [done|].
      apply elem_of_cons in Hin as [Heq|Hin]; [|set_solver].
      injection Heq as -> ->. split; [done | by left]. }
  exists (imap (with_vector embeddings) docs), embeddings.
  split; [done|]. split.
  { rewrite with_vector_contents. by do 2 right. }
  split; [done|]. rewrite Hres. split.
  { rewrite length_imap. symmetry. by eapply Forall2_length. }
  intros i result Hi.
  destruct (Forall2_lookup_l _ _ _ _ _ Hdocs Hi) as (doc & Hdoc & Hweb).
  exists (with_vector embeddings i doc).
  rewrite list_lookup_imap, Hdoc. done.
Qed.

Lemma loop_post_kinds (initial : list Candidate) (depth : Q)
    (ents : list string) (added : list Candidate) (new : list Event) :
  loop_post initial depth (take 3 ents) added new →
  calls_of KEmbed new ≤ 3 ∧ calls_of KQuery new ≤ 3 ∧
  calls_of KUpsert new = 0 ∧ calls_of KTools new = 0 ∧
  calls_of KSearch new = 0.
Proof.
  intros (Hev & Hq & He & _).
  apply expansion_event_kinds in Hev as (? & ? & ?).
  assert (length (filter (λ e, skipped e = false) (take 3 ents)) ≤ 3).
  { etrans; [apply length_filter|]. rewrite length_take. lia. }
  lia.
Qed.

Lemma respond_post_kinds `{Runtime} (context : ToolContext) (l0 : Locals)
    (r : Res RetrievalResult) (new : list Event) :
  respond_post context l0 r new →
  calls_of KEmbed new ≤ 3 ∧ calls_of KQuery new ≤ 3 ∧
  calls_of KUpsert new = 0 ∧ calls_of KTools new = 0 ∧
  calls_of KSearch new = 0 ∧
  (useEntityEnhancement context = false → new = []).
Proof.
  unfold respond_post.
  destruct (l_initialResults l0) as [[|c initial]|].
  1, 3: intros (-> & _); unfold calls_of; simpl; repeat split; lia || done.
  intros (entityResults & Hloop & _).
  destruct (useEntityEnhancement context); simpl in Hloop.
  - case_bool_decide.
    + apply loop_post_kinds in Hloop. by destruct_and!.
    + destruct Hloop as (-> & _). unfold calls_of; simpl.
      repeat split; lia || done.
  - destruct Hloop as (-> & _). unfold calls_of; simpl.
    repeat split; lia || done.
Qed.

Lemma respond_post_reports `{Runtime} (context : ToolContext) (l0 : Locals)
    (res : RetrievalResult) (new : list Event) :
  respond_post context l0 (Ok res) new →
  webSearchUsed res = l_webSearchUsed l0 ∧
  webSearchResults res = reported_results l0.
Proof.
  unfold respond_post.
  destruct (l_initialResults l0) as [[|c initial]|].
  1, 3: by intros (_ & [= ->]).
  intros (entityResults & _ & Hres).
  destruct (rerankByEntityOverlap _ _); [|done].
  by destruct Hres as (res' & [= <-] & _ & _ & _ & _ & ? & ?).
Qed.

(** X12.  A run of [execute] goes to the web exactly when the first reply
    of the store fails the sufficiency gate.  After a sufficient reply the
    rest of the run looks up no tools, searches nothing and upserts
    nothing, keeps the reply as the initial results, and reports that no
    web search was used; after an insufficient one the next call is the
    lookup of the tools. *)
Theorem web_search_exactly_when_insufficient `{Runtime}
    (context : ToolContext) (pgVector : bool) (s : Sys) :
  ∃ res l' s' new,
    execute context pgVector locals_start s = (Ok res, l', s') ∧
    calls s' = calls s ++ new ∧
    ∀ values embeddings queryVector k first rest,
      new = EvEmbed values embeddings
            :: EvQuery queryVector k (Ok first) :: rest →
      if hasSufficientLocalResults first
      then calls_of KTools rest = 0 ∧ calls_of KSearch rest = 0 ∧
           calls_of KUpsert rest = 0 ∧
           l_initialResults l' = first ∧
           webSearchUsed res = false ∧ webSearchResults res = None
      else ∃ rest', rest = EvGetTools :: rest'.
Proof.
  destruct (spec_execute_calls context pgVector locals_start s)
    as (r & l' & s' & new & Hrun & Hcalls & r0 & Htry & ->).
  eexists _, l', s', new. split; [done|]. split; [done|].
  intros values embeddings queryVector k first rest ->.
  unfold try_run in Htry. destruct pgVector; [|by destruct Htry as (_ & _ & ?)].
  destruct Htry as [(m & _ & _ & ?)|[(e & m & _ & _ & ?)|Hok]]; [done..|].
  destruct Hok as (e & first' & web & rest' & Heq & Hweb & Hresp).
  injection Heq as _ _ _ _ Hfirst Hrest. subst first' rest.
  destruct (hasSufficientLocalResults first).
  - destruct Hweb as (-> & ->). simpl.
    pose proof (respond_post_kinds _ _ _ _ Hresp) as (_ & _ & ? & ? & ? & _).
    do 4 (split; [done|]).
    destruct r0 as [res|message]; [|done].
    by apply respond_post_reports in Hresp.
  - destruct Hweb as [(_ & [->|[tool ->]])|Hfound]; simpl; eauto.
    destruct Hfound as (tool & results & docs & rest & _ & _ & -> & _).
    simpl. eauto.
Qed.

(** X13.  With [useEntityEnhancement] off, a run makes no entity-expansion
    call: at most two embeddings and two store queries (the query and the
    web-search block), an empty entity path, and every source of a
    response that is not the error response is labelled
    vector_similarity. *)
Theorem without_enhancement_no_expansion `{Runtime} (context : ToolContext)
    (pgVector : bool) (s : Sys) :
  useEntityEnhancement context = false →
  ∃ res l' s' new,
    execute context pgVector locals_start s = (Ok res, l', s') ∧
    calls s' = calls s ++ new ∧
    calls_of KEmbed new ≤ 2 ∧ calls_of KQuery new ≤ 2 ∧
    entityPath res = [] ∧
    (is_error_response res ∨
     ∀ src, src ∈ sources res →
            retrievalMethod src = Some (VStr "vector_similarity")).
Proof.
  intros Hoff.
  destruct (spec_execute_calls context pgVector locals_start s)
    as (r & l' & s' & new & Hrun & Hcalls & r0 & Htry & ->).
  eexists _, l', s', new. split; [done|]. split; [done|].
  unfold try_run in Htry. destruct pgVector.
  2: { destruct Htry as ((m & ->) & _ & ->).
       unfold calls_of. simpl. repeat split; try lia.
       left. apply error_result_is_error. }
  destruct Htry as [(m & -> & _ & ->)|[(e & m & -> & _ & ->)|Hok]].
  1, 2: unfold calls_of; simpl; repeat split; try lia;
        left; apply error_result_is_error.
  destruct Hok as (e & first & web & rest & -> & Hweb & Hresp).
  pose proof (respond_post_kinds _ _ _ _ Hresp) as (_ & _ & _ & _ & _ & Hnone).
  rewrite (Hnone Hoff), app_nil_r in *.
  assert (calls_of KEmbed web ≤ 1 ∧ calls_of KQuery web ≤ 1) as [He Hq].
  { destruct (hasSufficientLocalResults first).
    - destruct Hweb as (-> & _). unfold calls_of; simpl; lia.
    - apply web_post_kinds, prefix_calls in Hweb. lia. }
  split; [unfold calls_of in *; simpl; lia|].
  split; [unfold calls_of in *; simpl; lia|].
  destruct r0 as [res|message];
    [|split; [done | left; apply error_result_is_error]].
  unfold respond_post in Hresp.
  destruct (l_initialResults l') as [[|c initial]|].
  1, 3: destruct Hresp as (_ & [= ->]); split; [done|]; right; simpl;
        by intros src ?%elem_of_nil.
  destruct Hresp as (entityResults & Hloop & Hres).
  rewrite Hoff in Hloop. simpl in Hloop. destruct Hloop as (_ & ->).
  destruct (rerankByEntityOverlap _ _) as [reranked|] eqn:Hrank; [|done].
  destruct Hres as (res' & [= <-] & _ & Hpath & Hsrc & _).
  split; [done|]. right. intros src Hin. rewrite Hsrc in Hin.
  apply list_elem_of_lookup in Hin as [i Hi].
  rewrite list_lookup_imap in Hi.
  destruct (reranked !! i) as [c'|] eqn:Hc; [|done].
  injection Hi as <-. unfold retrievalMethod, formatSource. simpl.
  rewrite lookup_insert_eq. apply lookup_lt_Some in Hc.
  apply rerank_length in Hrank. rewrite app_nil_r in Hrank.
  rewrite bool_decide_true; [done|]. simpl in *. lia.
Qed.

(** X14.  In a response of [execute] that is not the error response, the
    sources are as many as the initial results and the entries of the
    entity path together; the i-th source has the id result-i and is
    labelled by its position, vector_similarity below the number of
    initial results and entity_search from there on; and no entry of the
    entity path has the id of an initial result. *)
Theorem sources_are_counted_and_labelled `{Runtime} (context : ToolContext)
    (pgVector : bool) (s : Sys) :
  ∃ res l' s' new,
    execute context pgVector locals_start s = (Ok res, l', s') ∧
    calls s' = calls s ++ new ∧
    (is_error_response res ∨
     let initial := default [] (l_initialResults l') in
     length (sources res) = length initial + length (entityPath res) ∧
     (∀ i src, sources res !! i = Some src →
        s_id src = "result-" +:+ pretty i ∧
        retrievalMethod src
        = Some (VStr (if bool_decide (i < length initial)
                      then "vector_similarity" else "entity_search"))) ∧
     ∀ entry, entry ∈ entityPath res →
        relationship entry = "entity_search" ∧
        nodeId entry ∉ map r_id initial).
Proof.
  destruct (spec_execute_calls context pgVector locals_start s)
    as (r & l' & s' & new & Hrun & Hcalls & r0 & Htry & ->).
  eexists _, l', s', new. split; [done|]. split; [done|].
  destruct r0 as [res|message]; [|left; apply error_result_is_error].
  unfold try_run in Htry. destruct pgVector; [|by destruct Htry as ((? & ?) & _)].
  destruct Htry as [(m & ? & _)|[(e & m & ? & _)|Hok]]; [done..|].
  destruct Hok as (e & first & web & rest & -> & _ & Hresp).
  right. unfold respond_post in Hresp.
  destruct (l_initialResults l') as [[|c initial]|].
  1, 3: destruct Hresp as (_ & [= ->]); simpl; split; [done|];
        split; [done | by intros entry ?%elem_of_nil].
  destruct Hresp as (entityResults & Hloop & Hres).
  destruct (rerankByEntityOverlap _ _) as [reranked|] eqn:Hrank; [|done].
  destruct Hres as (res' & [= <-] & _ & Hpath & Hsrc & _).
  apply rerank_length in Hrank. rewrite length_app in Hrank.
  cbn [default]. split; [|split].
  - by rewrite Hsrc, Hpath, length_imap, length_map.
  - intros i src Hi. rewrite Hsrc, list_lookup_imap in Hi.
    destruct (reranked !! i) as [c'|]; [|done]. injection Hi as <-.
    unfold retrievalMethod, formatSource. simpl.
    rewrite lookup_insert_eq. split; [done|]. by case_bool_decide.
  - intros entry Hin. rewrite Hpath in Hin.
    apply list_elem_of_fmap in Hin as (c' & -> & Hin).
    split; [done|]. simpl.
    destruct (useEntityEnhancement context &&
              bool_decide (0 < length (extractEntities (query context)
                                                       (c :: initial)))).
    + destruct Hloop as (_ & _ & _ & Hfrom).
      destruct (Hfrom c' Hin) as (? & ? & ? & ? & ? & ? & ? & _ & _ & _ & _
                                  & Hfresh & _).
      done.
    + destruct Hloop as (_ & ->). by apply elem_of_nil in Hin.
Qed.

(** X15.  The call budget of a run of [execute]: without a store it calls
    nothing; otherwise its first call embeds the query alone, and in all
    it makes at most five embeddings, five store queries, one lookup of
    the tools, one web search and one upsert. *)
Theorem execute_call_budget `{Runtime} (context : ToolContext)
    (pgVector : bool) (s : Sys) :
  ∃ res l' s' new,
    execute context pgVector locals_start s = (Ok res, l', s') ∧
    calls s' = calls s ++ new ∧
    (if pgVector
     then ∃ reply rest, new = EvEmbed [query context] reply :: rest
     else new = []) ∧
    calls_of KEmbed new ≤ 5 ∧ calls_of KQuery new ≤ 5 ∧
    calls_of KTools new ≤ 1 ∧ calls_of KSearch new ≤ 1 ∧
    calls_of KUpsert new ≤ 1.
Proof.
  destruct (spec_execute_calls context pgVector locals_start s)
    as (r & l' & s' & new & Hrun & Hcalls & r0 & Htry & ->).
  eexists _, l', s', new. split; [done|]. split; [done|].
  unfold try_run in Htry. destruct pgVector.
  2: { destruct Htry as (_ & _ & ->). unfold calls_of. simpl.
       repeat split; lia. }
  destruct Htry as [(m & _ & _ & ->)|[(e & m & _ & _ & ->)|Hok]].
  1, 2: split; [eauto|]; unfold calls_of; simpl; repeat split; lia.
  destruct Hok as (e & first & web & rest & -> & Hweb & Hresp).
  split; [eauto|].
  apply respond_post_kinds in Hresp as (? & ? & ? & ? & ? & _).
  assert (calls_of KTools web ≤ 1 ∧ calls_of KSearch web ≤ 1 ∧
          calls_of KEmbed web ≤ 1 ∧ calls_of KUpsert web ≤ 1 ∧
          calls_of KQuery web ≤ 1) as (? & ? & ? & ? & ?).
  { destruct (hasSufficientLocalResults first).
    - destruct Hweb as (-> & _). unfold calls_of; simpl; lia.
    - by apply web_post_kinds, prefix_calls in Hweb. }
  change (EvEmbed [query context] (Ok e)
          :: EvQuery (head e) (topK context) (Ok first) :: web ++ rest)
    with ([EvEmbed [query context] (Ok e);
           EvQuery (head e) (topK context) (Ok first)] ++ web ++ rest).
  rewrite !calls_of_app. unfold calls_of at 1 4 7 10 13. simpl. lia.
Qed.

Lemma without_enhancement_witness :
  useEntityEnhancement (mkToolContext "population of riverdale" 10 2 false)
  = false ∧
  ∃ res l' s',
    @execute Inputs.weak_store
             (mkToolContext "population of riverdale" 10 2 false) true
             locals_start (Script.start Inputs.weak_store 0)
    = (Ok res, l', s') ∧
    entityPath res = [].
Proof.
  split; [reflexivity|].
  destruct (@without_enhancement_no_expansion Inputs.weak_store
              (mkToolContext "population of riverdale" 10 2 false) true
              (Script.start Inputs.weak_store 0) eq_refl)
    as (res & l' & s' & new & Hrun & _ & _ & _ & Hpath & _).
  exists res, l', s'. split; [exact Hrun | exact Hpath].
Defined.

(** ** The tool that stores web results on request *)

Lemma has_char_app (c : ascii) (s1 s2 : string) :
  has_char c (s1 +:+ s2) = has_char c s1 || has_char c s2.
Proof.
  induction s1 as [|c' s1 IH]; [done|].
  rewrite str_app_cons. simpl. by rewrite IH, orb_assoc.
Qed.

Lemma pretty_N_char_no_underscore (x : N) :
  Ascii.eqb "_" (pretty_N_char x) = false.
Proof.
  destruct x as [|p]; [done|].
  repeat (destruct p as [p|p|]; try done).
Qed.

Lemma pretty_N_go_no_underscore (x : N) (s : string) :
  has_char "_" s = false → has_char "_" (pretty_N_go x s) = false.
Proof.
  revert s. induction (N.lt_wf_0 x) as [x _ IH]. intros s Hs.
  destruct (decide (x = 0)%N) as [->|Hx].
  - by rewrite pretty_N_go_0.
  - rewrite pretty_N_go_step by lia. apply IH.
    + apply N.div_lt; lia.
    + cbn [has_char]. by rewrite pretty_N_char_no_underscore, Hs.
Qed.

Lemma pretty_nat_no_underscore (n : nat) : has_char "_" (pretty n) = false.
Proof.
  unfold pretty, pretty_nat, pretty, pretty_N. case_decide; [done|].
  by apply pretty_N_go_no_underscore.
Qed.

(** In a string [a ++ "_" ++ p] whose tail [p] has no underscore, the tail
    is determined. *)
Lemma last_field_inj (a b p q : string) :
  has_char "_" p = false → has_char "_" q = false →
  a +:+ "_" +:+ p = b +:+ "_" +:+ q → p = q.
Proof.
  change ("_" +:+ p) with (String "_" p).
  change ("_" +:+ q) with (String "_" q).
  intros Hp Hq. revert b. induction a as [|c a IH]; intros [|c' b];
    rewrite ?str_app_nil_l, ?str_app_cons.
  - by intros [= ->].
  - intros [= <- ->]. rewrite has_char_app in Hp.
    simpl in Hp. by destruct (has_char "_" b).
  - intros [= -> Heq]. rewrite <- Heq, has_char_app in Hq.
    simpl in Hq. by destruct (has_char "_" a).
  - intros [= _ Heq]. by apply (IH b).
Qed.

Lemma web_id_inj (now now' : string) (i j : nat) :
  "web_" +:+ now +:+ "_" +:+ pretty i = "web_" +:+ now' +:+ "_" +:+ pretty j →
  i = j.
Proof.
  intros Heq. apply (inj pretty).
  apply (last_field_inj ("web_" +:+ now) ("web_" +:+ now'));
    [apply pretty_nat_no_underscore.. |].
  by rewrite !str_app_assoc.
Qed.

Section Storing.
Context `{Runtime}.

Lemma spec_document {L : Type} (originalQuery : string)
    (indexed : nat * StoreWebResults.SearchResult) :
  spec (StoreWebResults.document originalQuery indexed
          : M L StoreWebResults.Document)
       (λ l r l' new, l' = l ∧ new = [] ∧
          ∃ doc, r = Ok doc ∧ built_from originalQuery indexed doc).
Proof.
  unfold StoreWebResults.document. destruct indexed as [index result].
  eapply spec_weaken.
  - apply spec_bind; [apply spec_ambient|]. intros now.
    apply spec_bind; [apply spec_ambient|]. intros timestamp.
    apply spec_ret.
  - simpl. unfold seq_post.
    intros l r l' new [(message & -> & (? & ?) & _)|Hok]; [done|].
    destruct Hok as (now & l1 & n1 & n2 & (_ & -> & ->) & Hrest & ->).
    destruct Hrest as [(message & -> & (? & ?) & _)|Hok]; [done|].
    destruct Hok as (stamp & l3 & n5 & n6 & (_ & -> & ->) & Hret & ->).
    destruct Hret as (-> & -> & ->).
    split; [done|]. split; [done|]. eexists. split; [done|].
    unfold built_from. simpl. split; [by exists now|].
    repeat split; by simplify_map_eq.
Qed.

Lemma spec_store_try (input : StoreWebResults.Input) (pgVector : bool) :
  spec (StoreWebResults.execute_try input pgVector)
       (λ l r l' new, store_run input pgVector r new).
Proof.
  unfold StoreWebResults.execute_try, store_run.
  destruct (negb (StoreWebResults.userRequested input)).
  { eapply spec_weaken; [apply spec_ret|]. simpl.
    intros l r l' new (-> & -> & ->). split; [done|]. by eexists. }
  destruct (negb pgVector).
  { eapply spec_weaken; [apply spec_throw|]. simpl.
    intros l r l' new (-> & -> & ->). split; [done|]. by eexists. }
  eapply spec_weaken.
  - apply spec_bind;
      [apply (spec_map_m _ (built_from (StoreWebResults.originalQuery input)));
       intros x; apply spec_document|].
    intros documents.
    apply spec_bind; [apply spec_external|]. intros embeddings.
    apply spec_bind; [apply spec_external|]. intros u.
    apply spec_ret.
  - simpl. unfold seq_post.
    intros l r l' new [(message & -> & _ & _ & ? & ? & _)|Hok]; [done|].
    destruct Hok as (docs & l2 & n3 & n4 & (-> & -> & docs' & [= <-] & Hd)
                     & Hrest & ->).
    exists docs. split; [done|].
    destruct Hrest as [(message & -> & -> & ->)|Hok].
    { left. by exists message. }
    destruct Hok as (emb & l3 & n5 & n6 & (-> & ->) & Hrest & ->).
    destruct Hrest as [(message & -> & -> & ->)|Hok].
    { right. left. by exists emb, message. }
    destruct Hok as ([] & l4 & n7 & n8 & (-> & ->) & (-> & -> & ->) & ->).
    right. right. eexists emb, _. split; [done|]. done.
Qed.

Lemma spec_store (input : StoreWebResults.Input) (pgVector : bool) :
  spec (StoreWebResults.execute input pgVector)
       (λ l r l' new,
          ∃ r0, store_run input pgVector r0 new ∧
                ∃ out, r = Ok out ∧
                  match r0 with
                  | Ok out0 => out = out0
                  | Throw _ => StoreWebResults.storedCount out = 0 ∧
                               StoreWebResults.documentIds out = []
                  end).
Proof.
  unfold StoreWebResults.execute. eapply spec_weaken.
  - apply spec_try_catch; [apply spec_store_try|].
    intros message. apply spec_ret.
  - simpl. unfold catch_post.
    intros l r l' new [(out & -> & Hrun)|Hthrown].
    + exists (Ok out). split; [done|]. by exists out.
    + destruct Hthrown as (message & l1 & n1 & n2 & Hrun
                           & (-> & -> & ->) & ->).
      rewrite app_nil_r. exists (Throw message). split; [done|].
      by eexists.
Qed.

End Storing.

(** X16.  The storing tool never throws, and its count is honest:
    [storedCount] is the number of returned document ids, and it is zero
    unless a call of the embedder and then an upsert both succeeded.  The
    tool calls nothing when storage was not requested or the store is
    missing; otherwise it embeds once and upserts at most once.  A
    successful upsert carries one metadata record per search result, in
    order, with the text that was embedded, the original query and the
    marks web_search and userRequested. *)
Theorem store_web_results_outcome `{Runtime}
    (input : StoreWebResults.Input) (pgVector : bool) (s : Sys) :
  ∃ out s' new,
    StoreWebResults.execute input pgVector tt s = (Ok out, tt, s') ∧
    calls s' = calls s ++ new ∧
    StoreWebResults.storedCount out
    = length (StoreWebResults.documentIds out) ∧
    map kind_of new `prefix_of` [KEmbed; KUpsert] ∧
    (StoreWebResults.userRequested input && pgVector = false → new = []) ∧
    ((∀ request, EvUpsert request (Ok tt) ∉ new) →
       StoreWebResults.storedCount out = 0) ∧
    ∀ request, EvUpsert request (Ok tt) ∈ new →
      StoreWebResults.storedCount out
      = length (StoreWebResults.searchResults input) ∧
      ∃ texts embeddings metadata,
        new = [EvEmbed texts (Ok embeddings); EvUpsert request (Ok tt)] ∧
        request = UpsertVectors embeddings metadata ∧
        length metadata = length texts ∧
        ∀ i result, StoreWebResults.searchResults input !! i = Some result →
          ∃ text m,
            text = or_else (StoreWebResults.content result)
                     (or_else (Some (StoreWebResults.snippet result))
                              EmptyString) ∧
            texts !! i = Some text ∧ metadata !! i = Some m ∧
            m !! "text" = Some (VStr text) ∧
            m !! "originalQuery"
            = Some (VStr (StoreWebResults.originalQuery input)) ∧
            m !! "source" = Some (VStr "web_search") ∧
            m !! "userRequested" = Some (VBool true).
Proof.
  destruct (spec_store input pgVector tt s)
    as (r & [] & s' & new & Hrun & Hcalls & r0 & Hstore & out & -> & Hout).
  exists out, s', new. split; [done|]. split; [done|].
  unfold store_run in Hstore.
  destruct (StoreWebResults.userRequested input); simpl in *.
  2: { destruct Hstore as (-> & out0 & -> & Hc & Hi). subst out0.
       rewrite Hc, Hi. split; [done|]. split; [by exists [KEmbed; KUpsert]|].
       split; [done|]. split; [done|]. by intros request ?%elem_of_nil. }
  destruct pgVector; simpl in *.
  2: { destruct Hstore as (-> & message & ->). destruct Hout as (-> & ->).
       split; [done|]. split; [by exists [KEmbed; KUpsert]|].
       split; [done|]. split; [done|]. by intros request ?%elem_of_nil. }
  destruct Hstore as (docs & Hdocs & Hshape).
  destruct Hshape as [(m & -> & ->)|[(e & m & -> & ->)|Hok]].
  1, 2: destruct Hout as (-> & ->); (split; [done|]);
        (split; [by eexists|]); (split; [done|]); (split; [done|]);
        intros request Hin; set_solver.
  destruct Hok as (e & out0 & -> & Hc & Hi & ->). subst out0.
  rewrite Hc, Hi, length_map. split; [done|].
  split; [by exists []|]. split; [done|]. split.
  { intros Hno. exfalso. eapply Hno. right. left. }
  intros request Hin.
  apply elem_of_cons in Hin as [?|Hin]; [done|].
  apply list_elem_of_singleton in Hin. injection Hin as ->.
  pose proof (Forall2_length _ _ _ Hdocs) as Hlen.
  rewrite length_imap in Hlen. split; [done|].
  eexists _, e, _. split; [done|]. split; [done|].
  split; [by rewrite !length_map|].
  intros i result Hi'.
  assert (imap pair (StoreWebResults.searchResults input) !! i
          = Some (i, result)) as Hpair.
  { by rewrite list_lookup_imap, Hi'. }
  destruct (Forall2_lookup_l _ _ _ _ _ Hdocs Hpair)
    as (doc & Hdoc & (_ & Htext & Hsrc & Hq & Hu & Hnone)).
  simpl in Htext.
  eexists _, (StoreWebResults.stored_metadata doc).
  split; [done|]. rewrite !list_lookup_fmap, Hdoc. simpl.
  split; [by rewrite Htext|]. split; [done|].
  unfold StoreWebResults.stored_metadata.
  split; [|split; [|split]].
  - rewrite lookup_union_r by done. rewrite lookup_insert_eq. by rewrite Htext.
  - by apply lookup_union_Some_l.
  - by apply lookup_union_Some_l.
  - by apply lookup_union_Some_l.
Qed.

(** X17.  The document ids that the storing tool returns are pairwise
    distinct, and the i-th one ends with the position i after its last
    underscore. *)
Theorem store_web_results_ids_distinct `{Runtime}
    (input : StoreWebResults.Input) (pgVector : bool) (s : Sys) :
  ∃ out s',
    StoreWebResults.execute input pgVector tt s = (Ok out, tt, s') ∧
    NoDup (StoreWebResults.documentIds out) ∧
    ∀ i id, StoreWebResults.documentIds out !! i = Some id →
            ∃ now, id = "web_" +:+ now +:+ "_" +:+ pretty i.
Proof.
  destruct (spec_store input pgVector tt s)
    as (r & [] & s' & new & Hrun & Hcalls & r0 & Hstore & out & -> & Hout).
  exists out, s'. split; [done|].
  assert (StoreWebResults.documentIds out = [] ∨
          ∃ docs,
            Forall2 (built_from (StoreWebResults.originalQuery input))
                    (imap pair (StoreWebResults.searchResults input)) docs ∧
            StoreWebResults.documentIds out
            = map StoreWebResults.doc_id docs) as [->|Hids].
  { unfold store_run in Hstore.
    destruct (StoreWebResults.userRequested input); simpl in *.
    2: { destruct Hstore as (_ & out0 & -> & _ & Hi). subst out0. by left. }
    destruct pgVector; simpl in *.
    2: { destruct Hstore as (_ & message & ->). left. by destruct Hout. }
    destruct Hstore as (docs & Hdocs & Hshape).
    destruct Hshape as [(m & -> & _)|[(e & m & -> & _)|Hok]].
    1, 2: left; by destruct Hout.
    destruct Hok as (e & out0 & -> & _ & Hi & _). subst out0.
    right. by exists docs. }
  { split; [constructor | by intros i id ?]. }
  destruct Hids as (docs & Hdocs & ->).
  assert (∀ i id, map StoreWebResults.doc_id docs !! i = Some id →
                  ∃ now, id = "web_" +:+ now +:+ "_" +:+ pretty i) as Hshape.
  { intros i id Hi. rewrite list_lookup_fmap in Hi.
    destruct (docs !! i) as [doc|] eqn:Hdoc; [|done]. injection Hi as <-.
    destruct (Forall2_lookup_r _ _ _ _ _ Hdocs Hdoc)
      as ([j result] & Hpair & ((now & Hid) & _)).
    rewrite list_lookup_imap in Hpair.
    destruct (StoreWebResults.searchResults input !! i); [|done].
    injection Hpair as <- _. by exists now. }
  split; [|done].
  apply NoDup_alt. intros i j id Hi Hj.
  destruct (Hshape i id Hi) as (now & ->).
  destruct (Hshape j _ Hj) as (now' & Heq).
  by apply web_id_inj in Heq.
Qed.

(** ** The text of a response *)

Lemma or_notice_nonempty (relevantTexts query : string) :
  or_notice relevantTexts query ≠ EmptyString.
Proof. by destruct relevantTexts. Qed.

Lemma or_notice_cases (relevantTexts query : string) :
  or_notice relevantTexts query = relevantTexts ∨
  ∃ pre post,
    or_notice relevantTexts query
    = pre +:+ dquote +:+ query +:+ dquote +:+ post.
Proof.
  destruct relevantTexts; [|by left]. right.
  exists "No text content found for query: ", EmptyString.
  simpl. by rewrite str_app_nil_r.
Qed.

(** X18.  The context of a response of [execute] is never the empty
    string: it is either text assembled from the results, of at most 6028
    code units, or a notice that quotes the query.  Every entry of the
    entity path shows at most the first hundred code units of its text,
    followed by three dots. *)
Theorem context_is_text_or_notice `{Runtime} (context : ToolContext)
    (pgVector : bool) (s : Sys) :
  ∃ res l' s',
    execute context pgVector locals_start s = (Ok res, l', s') ∧
    relevantContext res ≠ EmptyString ∧
    ((Js.len (relevantContext res) ≤ 6028)%Z ∨
     ∃ pre post,
       relevantContext res
       = pre +:+ dquote +:+ query context +:+ dquote +:+ post) ∧
    ∀ entry, entry ∈ entityPath res →
      (Js.len (p_text entry) ≤ 103)%Z ∧
      ∃ shown, p_text entry = shown +:+ "...".
Proof.
  destruct (spec_execute_calls context pgVector locals_start s)
    as (r & l' & s' & new & Hrun & Hcalls & r0 & Htry & ->).
  eexists _, l', s'. split; [done|].
  assert (∀ message,
    relevantContext (error_result (query context) message) ≠ EmptyString ∧
    ((Js.len (relevantContext (error_result (query context) message))
      ≤ 6028)%Z ∨
     ∃ pre post,
       relevantContext (error_result (query context) message)
       = pre +:+ dquote +:+ query context +:+ dquote +:+ post) ∧
    ∀ entry, entry ∈ entityPath (error_result (query context) message) →
      (Js.len (p_text entry) ≤ 103)%Z ∧
      ∃ shown, p_text entry = shown +:+ "...") as Herror.
  { intros message. split; [done|]. split; [|by intros entry ?%elem_of_nil].
    right. by eexists "Error retrieving information for query: ", _. }
  destruct r0 as [res|message]; [|apply Herror].
  unfold try_run in Htry.
  destruct pgVector; [|by destruct Htry as ((? & ?) & _)].
  destruct Htry as [(m & ? & _)|[(e & m & ? & _)|Hok]]; [done..|].
  destruct Hok as (e & first & web & rest & -> & _ & Hresp).
  unfold respond_post in Hresp.
  destruct (l_initialResults l') as [[|c initial]|].
  1, 3: destruct Hresp as (_ & [= ->]); (split; [done|]);
        (split; [|by intros entry ?%elem_of_nil]); right;
        by eexists "No relevant information found for the query: ", _.
  destruct Hresp as (entityResults & _ & Hres).
  destruct (rerankByEntityOverlap _ _) as [reranked|]; [|done].
  destruct Hres as (res' & [= <-] & _ & Hpath & _ & Hctx & _).
  rewrite Hctx, Hpath. split; [apply or_notice_nonempty|]. split.
  - destruct (or_notice_cases
                (relevantTexts
                   (assemble (uniqueResults reranked)
                      (extractEntities (query context) (c :: initial))))
                (query context)) as [->|Hnotice]; [|by right].
    left. apply assemble_bounds.
  - intros entry (c' & -> & _)%list_elem_of_fmap. unfold pathEntry.
    cbn [p_text].
    destruct (text_of c') as [text|].
    + split; [|by eexists]. rewrite len_app, len_dots.
      pose proof (len_take_str 100 text). lia.
    + split; [by vm_compute | by exists "undefined"].
Qed.

(** ** The file-upload tool *)

Lemma detect_kind (requested : ContentType) (fileExtension : string) :
  FileUploadTool.document_kind (FileUploadTool.detect requested fileExtension)
  = FileUploadTool.detect requested fileExtension ∧
  FileUploadTool.detect requested fileExtension ≠ CtAuto.
Proof.
  unfold FileUploadTool.detect.
  destruct requested; try done.
  by repeat case_match.
Qed.

Lemma upload_runs `{Ingestion} (input : FileUploadTool.Input)
    (pgVector : bool) (s : Sys) :
  ∃ out steps s',
    FileUploadTool.execute input pgVector [] s = (Ok out, steps, s') ∧
    upload_run input pgVector out steps.
Proof.
  unfold FileUploadTool.execute, FileUploadTool.execute_try, upload_run.
  fold (upload_kind input).
  destruct (detect_kind (default CtAuto (FileUploadTool.contentType input))
              (Js.toLowerCase
                 (path_extname (FileUploadTool.filePath input))))
    as [Hkind _].
  fold (upload_kind input) in Hkind. rewrite Hkind.
  unfold try_catch, bind, step, step_total, ret. simpl.
  destruct (fs_existsSync (FileUploadTool.filePath input) (world s))
    as [[] w1]; simpl.
  2: { eexists _, _, _. split; [done|]. by left. }
  destruct (fs_readFileSync (FileUploadTool.filePath input) w1)
    as [[content|m] w2]; simpl.
  2: { eexists _, _, _. split; [done|]. right. left. by exists m. }
  destruct (rt_chunk (upload_kind input) content
              (default 512%Q (FileUploadTool.chunkSize input))
              (default 50%Q (FileUploadTool.overlap input)) w2)
    as [[chunks|m] w3]; simpl.
  2: { eexists _, _, _. split; [done|]. right. right. left.
       by exists content, m. }
  destruct (rt_embedMany chunks w3) as [[embeddings|m] w4]; simpl.
  2: { eexists _, _, _. split; [done|]. do 3 right.
       exists content, chunks. left. by exists m. }
  destruct pgVector; simpl.
  2: { eexists _, _, _. split; [done|]. do 3 right.
       exists content, chunks. right. left. by exists embeddings. }
  unfold upload_request.
  destruct (rt_createIndex w4) as [[[]|m0] w5]; simpl;
    destruct (rt_upsert _ w5) as [[[]|m] w6]; simpl;
    (eexists _, _, _; split; [done|]); do 3 right;
    exists content, chunks; do 2 right.
  - right. by exists embeddings, (Ok tt).
  - left. by exists embeddings, (Ok tt), m.
  - right. by exists embeddings, (Throw m0).
  - left. by exists embeddings, (Throw m0), m.
Qed.

Lemma chunk_metadata_lookup (input : FileUploadTool.Input)
    (kind : ContentType) (chunks : list string)
    (embeddings : list Embedding) (i : nat) (text : string) :
  chunks !! i = Some text →
  ∃ vectors metadata m,
    upload_request input kind chunks embeddings
    = UpsertVectors vectors metadata ∧
    vectors = embeddings ∧ length metadata = length chunks ∧
    metadata !! i = Some m ∧
    m !! "text" = Some (VStr text) ∧
    m !! "entities" = Some (VStrs (FileUpload.extractSimpleEntities text)) ∧
    m !! "source" = Some (VStr (FileUploadTool.filePath input)) ∧
    m !! "contentType" = Some (VStr (FileUploadTool.type_name kind)).
Proof.
  intros Hi. unfold upload_request. eexists _, _, _.
  split; [done|]. split; [done|]. split; [by rewrite length_map|].
  split; [by rewrite list_lookup_fmap, Hi|].
  unfold FileUploadTool.chunk_metadata. repeat split; by simplify_map_eq.
Qed.

(** X19.  The file-upload tool never throws, and it reports success
    exactly when its last step is an upsert that returned.  A successful
    run checks and reads the file, chunks it as the kind detected from the
    requested type and the lower-cased extension, embeds the chunks, tries
    to create the index (whose failure is ignored) and upserts the
    embeddings with one metadata record per chunk, in order, holding the
    text of the chunk, its entities, the path of the file and the name of
    the same kind; the counts of the report are the numbers of chunks and
    of embeddings. *)
Theorem upload_success_means_stored `{Ingestion}
    (input : FileUploadTool.Input) (pgVector : bool) (s : Sys) :
  ∃ out steps s',
    FileUploadTool.execute input pgVector [] s = (Ok out, steps, s') ∧
    (FileUploadTool.success out = true ↔
     ∃ request, last steps = Some (StUpsert request (Ok tt))) ∧
    (FileUploadTool.success out = true →
     pgVector = true ∧
     ∃ content chunks embeddings index request,
       upload_kind input ≠ CtAuto ∧
       steps = chunked_steps input (upload_kind input) content chunks
               ++ [StEmbed chunks (Ok embeddings); StCreateIndex index;
                   StUpsert request (Ok tt)] ∧
       FileUploadTool.chunksCreated out = length chunks ∧
       FileUploadTool.embeddingsGenerated out = length embeddings ∧
       ∀ i text, chunks !! i = Some text →
         ∃ metadata m,
           request = UpsertVectors embeddings metadata ∧
           length metadata = length chunks ∧
           metadata !! i = Some m ∧
           m !! "text" = Some (VStr text) ∧
           m !! "entities"
           = Some (VStrs (FileUpload.extractSimpleEntities text)) ∧
           m !! "source" = Some (VStr (FileUploadTool.filePath input)) ∧
           m !! "contentType"
           = Some (VStr (FileUploadTool.type_name (upload_kind input)))).
Proof.
  destruct (upload_runs input pgVector s) as (out & steps & s' & Hrun & Hshape).
  exists out, steps, s'. split; [done|].
  unfold upload_run in Hshape.
  destruct Hshape as [(-> & ->)|[(m & -> & ->)|[(c & m & -> & ->)|Hchunked]]].
  1, 2, 3: split; [split; [done | by intros (? & ?)] | done].
  destruct Hchunked as (content & chunks & Hrest).
  destruct Hrest as [(m & -> & ->)|[(e & _ & -> & ->)|[(e & i & m & _ & -> & ->)
                    |(e & i & -> & -> & ->)]]].
  1, 2, 3: split; [split; [done | by intros (? & ?)] | done].
  split; [split; [by eexists | done]|].
  intros _. split; [done|].
  exists content, chunks, e, i, (upload_request input (upload_kind input) chunks e).
  split; [apply detect_kind|]. split; [done|]. split; [done|]. split; [done|].
  intros j text Hj.
  destruct (chunk_metadata_lookup input (upload_kind input) chunks e j text Hj)
    as (v & metadata & m & Heq & -> & ? & ? & ? & ? & ? & ?).
  by exists metadata, m.
Qed.

Lemma upload_success_witness :
  ∃ out steps,
    (@FileUploadTool.execute Inputs.empty_store existing_index
       (FileUploadTool.mkInput "notes.MD" None None None) true []
       (Script.start Inputs.empty_store 0)).1 = (Ok out, steps) ∧
    FileUploadTool.success out = true ∧
    StCreateIndex (Throw "relation already exists") ∈ steps.
Proof.
  destruct (@upload_success_means_stored Inputs.empty_store existing_index
              (FileUploadTool.mkInput "notes.MD" None None None) true
              (Script.start Inputs.empty_store 0))
    as (out & steps & s' & Hrun & Hiff & _).
  exists out, steps. rewrite Hrun. split; [reflexivity|].
  vm_compute in Hrun. injection Hrun as _ <- _.
  split.
  - apply Hiff. eexists. reflexivity.
  - do 4 right. left.
Defined.

Ltac threw_steps Hin Hthrew :=
  repeat (apply elem_of_cons in Hin; destruct Hin as [->|Hin];
          [simpl in Hthrew; by simplify_eq|]);
  by apply elem_of_nil in Hin.

(** X20.  How the file-upload tool fails.  A missing file ends the run
    after the one check, with the message that names the path.  A step
    that throws (the creation of the index apart) is the last step, and the
    report has the thrown message and zero counts.  Without a store nothing
    is created or upserted, but the file has been read, chunked and
    embedded by then, and the report carries these counts with
    [success] false. *)
Theorem upload_failure_modes `{Ingestion}
    (input : FileUploadTool.Input) (pgVector : bool) (s : Sys) :
  ∃ out steps s',
    FileUploadTool.execute input pgVector [] s = (Ok out, steps, s') ∧
    (∃ present rest,
       steps = StExists (FileUploadTool.filePath input) present :: rest ∧
       (present = false →
          rest = [] ∧
          FileUploadTool.message out
          = "File not found: " +:+ FileUploadTool.filePath input)) ∧
    (∀ m st, st ∈ steps → threw m st →
       last steps = Some st ∧ out = upload_failed m) ∧
    (pgVector = false →
       (∀ st, st ∈ steps →
          match st with
          | StCreateIndex _ | StUpsert _ _ => False
          | _ => True
          end) ∧
       ∀ values embeddings, StEmbed values (Ok embeddings) ∈ steps →
         FileUploadTool.success out = false ∧
         FileUploadTool.message out = "Vector store not found" ∧
         FileUploadTool.chunksCreated out = length values ∧
         FileUploadTool.embeddingsGenerated out = length embeddings).
Proof.
  destruct (upload_runs input pgVector s) as (out & steps & s' & Hrun & Hshape).
  exists out, steps, s'. split; [done|].
  unfold upload_run, chunked_steps in Hshape.
  destruct Hshape as [(-> & ->)|[(m & -> & ->)|[(c & m & -> & ->)|Hchunked]]].
  - split; [by eexists _, _|]. split.
    + intros m st Hin Hthrew. threw_steps Hin Hthrew.
    + intros _. split.
      * by intros st ->%list_elem_of_singleton.
      * intros v e Hin. by apply list_elem_of_singleton in Hin.
  - split; [by eexists _, _|]. split.
    + intros m' st Hin Hthrew. threw_steps Hin Hthrew.
    + intros _. split.
      * intros st Hin. set_unfold. by destruct Hin as [->|[->|[]]].
      * intros v e Hin. set_unfold. by destruct Hin as [?|[?|[]]].
  - split; [by eexists _, _|]. split.
    + intros m' st Hin Hthrew. threw_steps Hin Hthrew.
    + intros _. split.
      * intros st Hin. set_unfold. by destruct Hin as [->|[->|[->|[]]]].
      * intros v e Hin. set_unfold. by destruct Hin as [?|[?|[?|[]]]].
  - destruct Hchunked as (content & chunks & Hrest).
    destruct Hrest as [(m & -> & ->)|[(e & -> & -> & ->)
                      |[(e & i & m & -> & -> & ->)|(e & i & -> & -> & ->)]]];
      (split; [by eexists _, _|]); simpl.
    + split.
      * intros m' st Hin Hthrew. threw_steps Hin Hthrew.
      * intros _. split.
        -- intros st Hin. set_unfold.
           by destruct Hin as [->|[->|[->|[->|[]]]]].
        -- intros v e Hin. set_unfold.
           by destruct Hin as [?|[?|[?|[?|[]]]]].
    + split.
      * intros m' st Hin Hthrew. threw_steps Hin Hthrew.
      * intros _. split.
        -- intros st Hin. set_unfold.
           by destruct Hin as [->|[->|[->|[->|[]]]]].
        -- intros v e' Hin. set_unfold.
           destruct Hin as [?|[?|[?|[Heq|[]]]]]; try done.
           by injection Heq as -> ->.
    + split; [|done].
      intros m' st Hin Hthrew. threw_steps Hin Hthrew.
    + split; [|done].
      intros m' st Hin Hthrew. threw_steps Hin Hthrew.
Qed.

Lemma upload_failure_witness :
  ∃ out steps,
    (@FileUploadTool.execute Inputs.empty_store existing_index
       (FileUploadTool.mkInput "notes.MD" None None None) false []
       (Script.start Inputs.empty_store 0)).1 = (Ok out, steps) ∧
    FileUploadTool.success out = false ∧
    FileUploadTool.chunksCreated out = 1.
Proof.
  destruct (@upload_failure_modes Inputs.empty_store existing_index
              (FileUploadTool.mkInput "notes.MD" None None None) false
              (Script.start Inputs.empty_store 0))
    as (out & steps & s' & Hrun & _ & _ & Hstore).
  exists out, steps. rewrite Hrun. split; [reflexivity|].
  destruct (Hstore eq_refl) as [_ Hcounts].
  destruct (Hcounts ["Riverdale Heights population"]
                    [Script.embed "Riverdale Heights population"])
    as (Hs & _ & Hc & _).
  - vm_compute in Hrun. injection Hrun as _ <- _.
    do 3 right. left.
  - split; [exact Hs | exact Hc].
Defined.

Lemma set_add_elem (entities : list string) (entity e : string) :
  e ∈ set_add entities entity ↔ e ∈ entities ∨ e = entity.
Proof.
  unfold set_add. case_bool_decide; set_solver.
Qed.

Lemma foldl_set_add_elem (words entities : list string) (e : string) :
  e ∈ foldl set_add entities words ↔ e ∈ entities ∨ e ∈ words.
Proof.
  revert entities. induction words as [|w words IH]; intros entities; simpl.
  - set_solver.
  - rewrite IH, set_add_elem. set_solver.
Qed.

Lemma foldl_set_add_length (words entities : list string) :
  length (foldl set_add entities words) ≤ length entities + length words.
Proof.
  revert entities. induction words as [|w words IH]; intros entities; simpl.
  - lia.
  - etrans; [apply IH|]. unfold set_add. case_bool_decide; simpl.
    + lia.
    + rewrite length_app. simpl. lia.
Qed.

Lemma extractSimpleEntities_length (text : string) :
  length (FileUpload.extractSimpleEntities text) ≤ 10.
Proof.
  unfold FileUpload.extractSimpleEntities. rewrite length_take. lia.
Qed.

Lemma allEntities_from (chunks : list string) (start : list string) :
  let result :=
    foldl (λ entities chunk,
             foldl set_add entities (FileUpload.extractSimpleEntities chunk))
          start chunks in
  (NoDup start → NoDup result) ∧
  (∀ e, e ∈ result ↔
        e ∈ start ∨
        ∃ chunk, chunk ∈ chunks ∧
                 e ∈ FileUpload.extractSimpleEntities chunk) ∧
  length result ≤ length start + 10 * length chunks.
Proof.
  revert start. induction chunks as [|chunk chunks IH]; intros start; simpl.
  - split; [done|]. split; [|lia]. intros e. set_solver.
  - destruct (IH (foldl set_add start
                        (FileUpload.extractSimpleEntities chunk)))
      as (Hnd & Hin & Hlen).
    split; [|split].
    + intros Hstart. by apply Hnd, foldl_set_add_NoDup.
    + intros e. rewrite Hin, foldl_set_add_elem. split.
      * intros [[?|?]|(c & ? & ?)]; [by left | right..].
        -- exists chunk. split; [by left | done].
        -- exists c. split; [by right | done].
      * intros [?|(c & [->|?]%elem_of_cons & ?)];
          [by left; left | by left; right |].
        right. by exists c.
    + pose proof (foldl_set_add_length
                    (FileUpload.extractSimpleEntities chunk) start).
      pose proof (extractSimpleEntities_length chunk). lia.
Qed.

(** X21.  The set of entities that the file-upload tool counts holds every
    entity of every chunk once: it has no duplicate, its members are the
    entities that [extractSimpleEntities] finds in some chunk, and it has
    at most ten entities per chunk. *)
Theorem allEntities_is_union (chunks : list string) :
  NoDup (FileUploadTool.allEntities chunks) ∧
  (∀ e, e ∈ FileUploadTool.allEntities chunks ↔
        ∃ chunk, chunk ∈ chunks ∧
                 e ∈ FileUpload.extractSimpleEntities chunk) ∧
  length (FileUploadTool.allEntities chunks) ≤ 10 * length chunks.
Proof.
  destruct (allEntities_from chunks []) as (Hnd & Hin & Hlen).
  split; [apply Hnd; constructor|]. split; [|exact Hlen].
  intros e. unfold FileUploadTool.allEntities. rewrite Hin. set_solver.
Qed.

(** ** The steps of the workflow *)

(** X22.  The workflow step that stores embeddings never throws, and it
    answers true exactly when the index was created and the upsert
    returned, in this order.  A failure to create the index (for one, an
    index that exists) ends the step before any upsert; without a store
    the step calls nothing.  An upsert carries the embeddings as given and
    one metadata record per chunk holding its text alone. *)
Theorem storeEmbeddings_all_or_nothing `{Ingestion}
    (embeddings : list Embedding) (chunks : list string)
    (vectorStore : bool) (s : Sys) :
  ∃ ok steps s',
    Workflow.storeEmbeddings embeddings chunks vectorStore [] s
    = (Ok ok, steps, s') ∧
    (ok = true ↔
     ∃ request, steps = [StCreateIndex (Ok tt); StUpsert request (Ok tt)]) ∧
    (∀ m, StCreateIndex (Throw m) ∈ steps →
          steps = [StCreateIndex (Throw m)]) ∧
    (vectorStore = false → steps = []) ∧
    ∀ request reply, StUpsert request reply ∈ steps →
      ∃ metadata,
        request = UpsertVectors embeddings metadata ∧
        length metadata = length chunks ∧
        ∀ i text, chunks !! i = Some text →
                  metadata !! i = Some {[ "text" := VStr text ]}.
Proof.
  unfold Workflow.storeEmbeddings, try_catch, bind, step, throw, ret.
  destruct vectorStore; simpl.
  2: { eexists _, _, _. split; [done|].
       split; [split; [done | by intros (? & ?)]|].
       split; [by intros m ?%elem_of_nil|]. split; [done|].
       by intros request reply ?%elem_of_nil. }
  assert (∀ request,
    request = UpsertVectors embeddings
                (map (λ text, <[ "text" := VStr text ]> ∅) chunks) →
    ∃ metadata : list (gmap string JsValue),
      request = UpsertVectors embeddings metadata ∧
      length metadata = length chunks ∧
      ∀ i text, chunks !! i = Some text →
                metadata !! i = Some {[ "text" := VStr text ]}) as Hreq.
  { intros request ->. eexists. split; [done|].
    split; [by rewrite length_map|].
    intros i text Hi. by rewrite list_lookup_fmap, Hi. }
  destruct (rt_createIndex (world s)) as [[[]|m] w1]; simpl.
  2: { eexists _, _, _. split; [done|].
       split; [split; [done | by intros (? & ?)]|].
       split; [by intros m' [= ->]%list_elem_of_singleton|].
       split; [done|]. by intros request reply ?%list_elem_of_singleton. }
  destruct (rt_upsert _ w1) as [[[]|m] w2]; simpl;
    (eexists _, _, _; split; [done|]).
  - split; [split; [by eexists | done]|].
    split; [intros m Hin; set_unfold; by destruct Hin as [?|[?|[]]]|].
    split; [done|]. intros request reply Hin. set_unfold.
    destruct Hin as [?|[Heq|[]]]; [done|]. injection Heq as -> ->.
    by apply Hreq.
  - split; [split; [done | by intros (? & ?)]|].
    split; [intros m' Hin; set_unfold; by destruct Hin as [?|[?|[]]]|].
    split; [done|]. intros request reply Hin. set_unfold.
    destruct Hin as [?|[Heq|[]]]; [done|]. injection Heq as -> ->.
    by apply Hreq.
Qed.

Lemma process_loop_run `{Ingestion} (documents : list string) (size lap : Q)
    (allChunks : list string) (log : list Step) (s : Sys) :
  ∃ r steps s' handled replies,
    Workflow.process_loop documents size lap allChunks log s
    = (r, log ++ steps, s') ∧
    length replies = length handled ∧
    match r with
    | Ok chunks =>
        handled = documents ∧
        steps = zip_with (λ docText reply,
                            StChunk CtText docText size lap (Ok reply))
                         handled replies ∧
        chunks = allChunks ++ concat replies
    | Throw m =>
        ∃ docText rest,
          documents = handled ++ docText :: rest ∧
          steps = zip_with (λ docText reply,
                              StChunk CtText docText size lap (Ok reply))
                           handled replies
                  ++ [StChunk CtText docText size lap (Throw m)]
    end.
Proof.
  revert allChunks log s.
  induction documents as [|docText documents IH]; intros allChunks log s.
  - exists (Ok allChunks), [], s, [], []. simpl.
    unfold ret. by rewrite !app_nil_r.
  - simpl. unfold bind, step.
    destruct (rt_chunk CtText docText size lap (world s)) as [[chunks|m] w].
    + destruct (IH (allChunks ++ chunks)
                   (log ++ [StChunk CtText docText size lap (Ok chunks)])
                   (mkSys w (calls s)))
        as (r & steps & s' & handled & replies & Hrun & Hlen & Hr).
      exists r, (StChunk CtText docText size lap (Ok chunks) :: steps), s',
             (docText :: handled), (chunks :: replies).
      split; [by rewrite Hrun, <- app_assoc|].
      split; [simpl; by rewrite Hlen|].
      destruct r as [all|m].
      * destruct Hr as (-> & -> & ->). simpl.
        by rewrite app_assoc.
      * destruct Hr as (d & rest & -> & ->). by exists d, rest.
    + exists (Throw m), [StChunk CtText docText size lap (Throw m)],
             (mkSys w (calls s)), [], [].
      split; [done|]. split; [done|]. by exists docText, documents.
Qed.

(** X23.  The workflow step that processes documents chunks them one by
    one, in order, as text.  If every call returns, its chunks are the
    replies put end to end; if one throws, the step throws the same and
    the documents after that one are not chunked. *)
Theorem processDocuments_in_order `{Ingestion} (documents : list string)
    (chunkSize overlap : option Q) (s : Sys) :
  ∃ r steps s' handled replies,
    Workflow.processDocuments documents chunkSize overlap [] s
    = (r, steps, s') ∧
    length replies = length handled ∧
    match r with
    | Ok chunks =>
        handled = documents ∧
        steps = zip_with (λ docText reply,
                            StChunk CtText docText (default 512%Q chunkSize)
                                    (default 50%Q overlap) (Ok reply))
                         handled replies ∧
        chunks = concat replies
    | Throw m =>
        ∃ docText rest,
          documents = handled ++ docText :: rest ∧
          steps = zip_with (λ docText reply,
                              StChunk CtText docText
                                      (default 512%Q chunkSize)
                                      (default 50%Q overlap) (Ok reply))
                           handled replies
                  ++ [StChunk CtText docText (default 512%Q chunkSize)
                              (default 50%Q overlap) (Throw m)]
    end.
Proof.
  unfold Workflow.processDocuments.
  destruct (process_loop_run documents (default 512%Q chunkSize)
              (default 50%Q overlap) [] [] s)
    as (r & steps & s' & handled & replies & Hrun & Hlen & Hr).
  exists r, steps, s', handled, replies. by destruct r.
Qed.

(** ** The MCP client *)

Lemma build_many_cached (n : nat) (client : Mcp.Client) (k : nat) :
  Mcp.build_many n (Mcp.mkState (Some client) k)
  = (replicate n client, Mcp.mkState (Some client) k).
Proof.
  induction n as [|n IH]; [done|]. simpl. by rewrite IH.
Qed.

(** X24.  [buildMcp] hands out one client: however often it is called,
    from whatever state of the module, every call returns the same
    client, at most one client is constructed, and none when the module
    already holds one. *)
Theorem buildMcp_is_singleton (n : nat) (st : Mcp.State) :
  ∃ client,
    (Mcp.build_many n st).1 = replicate n client ∧
    Mcp.constructed (Mcp.build_many n st).2
    = match Mcp.mcpClient st, n with
      | None, S _ => S (Mcp.constructed st)
      | _, _ => Mcp.constructed st
      end ∧
    (0 < n → Mcp.mcpClient (Mcp.build_many n st).2 = Some client) ∧
    ∀ held, Mcp.mcpClient st = Some held → client = held.
Proof.
  destruct st as [[held|] k].
  - exists held. rewrite build_many_cached. simpl.
    split; [done|]. split; [by destruct n|]. split; [done|].
    by intros ? [= ->].
  - exists (Mcp.mkClient "self-learning-rag-mcp" k).
    destruct n as [|n]; simpl.
    + split; [done|]. split; [done|]. split; [lia | done].
    + rewrite build_many_cached. simpl. split; [done|]. split; [done|].
      split; [done | done].
Qed.
